(** * Fragment extraction pipeline of disco-dop ([discodop/fragments.py])

    A shallow embedding of the orchestration code of the fragment
    extractor: the work-load planner, the merge of per-worker results,
    the exact counting phase, the cover-fragment merge, the iterated
    extraction of fragments of fragments, the command-line validation,
    the debinarizer and the output formatter.

    Python integers are [Z]; dictionaries are [gmap]s, iterated in the
    order of [map_to_list]; sets are [gset]s, iterated in the order of
    [elements]; exceptions are the [Raise] results of an error monad.  The
    native routines of [_fragments], the tree transforms and the operating
    system are the fields of the class [Native]; the floating-point numbers
    of the interpreter are the class [Floats]. *)

From Stdlib Require Import Ascii.
From stdpp Require Import base numbers list list_numbers strings gmap sets
  fin_maps pretty.

Local Open Scope Z_scope.

(** ** Exceptions and the error monad *)

Inductive exn : Type :=
  | ValueError (msg : string)
  | NotImplementedError
  | ZeroDivisionError
  | AssertionError
  | TypeError
  | AttributeError
  | IndexError
  | KeyError
  | OverflowError
  | UnboundLocalError
  | Exception (msg : string)
  | SystemExit (code : Z).

Inductive result (A : Type) : Type :=
  | Ok (a : A)
  | Raise (e : exn).
Arguments Ok {A} a.
Arguments Raise {A} e.

Global Instance result_ret : MRet result := λ A, Ok.
Global Instance result_bind : MBind result := λ A B f r,
  match r with
  | Ok a => f a
  | Raise e => Raise e
  end.

Global Instance result_fmap : FMap result := λ A B f r,
  match r with
  | Ok a => Ok (f a)
  | Raise e => Raise e
  end.

Definition assert (b : bool) : result unit :=
  if b then Ok tt else Raise AssertionError.

(** [for x in l: acc = f(acc, x)] where the body may raise *)
Fixpoint foldlM {A B} (f : A → B → result A) (acc : A) (l : list B)
    : result A :=
  match l with
  | [] => Ok acc
  | x :: l => acc ← f acc x; foldlM f acc l
  end.

(** [[f(x) for x in l]] where [f] may raise *)
Fixpoint traverse {A B} (f : A → result B) (l : list A) : result (list B) :=
  match l with
  | [] => Ok []
  | x :: l => y ← f x; ys ← traverse f l; Ok (y :: ys)
  end.

(** ** Python built-ins used by the pipeline *)

Definition len {A} (l : list A) : Z := Z.of_nat (length l).

(** [range(a, b)] *)
Definition range (a b : Z) : list Z := seqZ a (b - a).

(** [range(0, n, step)]: [0, step, 2*step, ...] up to but excluding [n];
    a zero step raises. *)
Definition range_step (n step : Z) : result (list Z) :=
  if decide (step = 0)
  then Raise (ValueError "range() arg 3 must not be zero")
  else Ok ((λ k, k * step) <$> seqZ 0 (- ((- n) / step))).

(** [l[a:b]] for [0 <= a] *)
Definition slice {A} (l : list A) (a b : Z) : list A :=
  take (Z.to_nat (b - a)) (drop (Z.to_nat a) l).

(** [dict(pairs)] and [d.update(pairs)]: later pairs win *)
Definition dict_update `{Countable K} {V} (d : gmap K V)
    (pairs : list (K * V)) : gmap K V :=
  foldl (λ d kv, <[kv.1 := kv.2]> d) d pairs.

(** [list(d)] *)
Definition keys `{Countable K} {V} (d : gmap K V) : list K :=
  (map_to_list d).*1.

(** [d[k]] *)
Definition getitem `{Countable K} {V} (d : gmap K V) (k : K) : result V :=
  match d !! k with
  | Some v => Ok v
  | None => Raise KeyError
  end.

(** [multiprocessing.Pool(processes=numproc)] refuses fewer than one
    process. *)
Definition Pool (numproc : Z) : result unit :=
  if decide (numproc < 1)
  then Raise (ValueError "Number of processes must be at least 1")
  else Ok tt.

(** ** Data *)

(** A fragment key.  For discontinuous trees it is the pair [(frag, sent)]
    of a bracketing with indices as leaves and the words they refer to
    ([None] at a frontier position); for continuous trees it is the
    bracketing alone and the second component is unused. *)
Abbreviation fragment := (string * list (option string))%type.

(** The types of the native layer. *)
Class NativeTypes : Type := {
  Ctrees : Type;    (* a treebank in its compiled form *)
  Sents : Type;     (* the sentences stored with it *)
  Labels : Type;
  Prods : Type;
  Tree : Type;      (* [discodop.tree.Tree] *)
  Bitset : Type;    (* the occurrences of a fragment *)
  Multiset : Type;  (* the indices of the trees a fragment occurs in *)
}.

(** The values stored with a fragment: an approximate or exact frequency,
    an occurrence bitset, or a multiset of indices. *)
Inductive value `{NativeTypes} : Type :=
  | VInt (n : Z)
  | VBits (b : Bitset)
  | VIdx (m : Multiset).

(** What [readtreebanks] and [getctrees] put into [PARAMS]. *)
Record corpora `{NativeTypes} : Type := Corpora {
  trees1 : Ctrees;
  sents1 : Sents;
  trees2 : option Ctrees;
  sents2 : option Sents;
  prods : Prods;
  labels : Labels;
}.

(** The global dictionary [PARAMS]: the mode flags and, once a worker is
    initialised, the corpora. *)
Record PARAMS `{NativeTypes} : Type := Params {
  approx : bool;
  indices : bool;
  nofreq : bool;
  complete : bool;
  complement : bool;
  alt : bool;
  relfreq : bool;
  twoterms : bool;
  adjacent : bool;
  debin : bool;
  debug : bool;
  quiet : bool;
  help : bool;
  disc : bool;
  fmt : string;
  cover : option (Z * Z);
  corp : option corpora;
}.

(** [PARAMS.update(c)] for a dictionary [c] of corpora *)
Definition update_corpora `{NativeTypes} (P : PARAMS) (c : corpora)
    : PARAMS :=
  {| approx := approx P; indices := indices P; nofreq := nofreq P;
     complete := complete P; complement := complement P; alt := alt P;
     relfreq := relfreq P; twoterms := twoterms P; adjacent := adjacent P;
     debin := debin P; debug := debug P; quiet := quiet P; help := help P;
     disc := disc P; fmt := fmt P; cover := cover P; corp := Some c |}.

(** [PARAMS['complement'] = b] *)
Definition set_complement `{NativeTypes} (P : PARAMS) (b : bool) : PARAMS :=
  {| approx := approx P; indices := indices P; nofreq := nofreq P;
     complete := complete P; complement := b; alt := alt P;
     relfreq := relfreq P; twoterms := twoterms P; adjacent := adjacent P;
     debin := debin P; debug := debug P; quiet := quiet P; help := help P;
     disc := disc P; fmt := fmt P; cover := cover P; corp := corp P |}.

(** The native layer, the tree transforms and the operating system. *)
Class Native `{NativeTypes} : Type := {
  (* attributes and truth value of a compiled treebank *)
  ctrees_len : Ctrees → Z;
  ctrees_maxnodes : Ctrees → Z;
  ctrees_bool : Ctrees → bool;
  (* [readtreebanks(treebank1, treebank2, fmt, limit, encoding)] *)
  readtreebanks :
    string → option string → string → option Z → string → corpora;
  (* [_fragments.getctrees(trees, sents, disc, trees2, sents2)] *)
  getctrees :
    list Tree → list (list string) → bool →
    option (list Tree) → option (list (list string)) → corpora;
  (* [_fragments.extractfragments(trees1, sents1, offset, end, labels,
      trees2, sents2, approx, discontinuous, complement, debug, twoterms,
      adjacent)] *)
  extractfragments :
    Ctrees → Sents → Z → Z → Labels → option Ctrees → option Sents →
    bool → bool → bool → bool → bool → bool → gmap fragment value;
  (* [_fragments.exactcounts(trees1, trees2, bitsets, indices)] *)
  exactcounts : Ctrees → option Ctrees → list value → bool → list value;
  (* [_fragments.allfragments(trees, sents, labels, maxdepth, maxfrontier,
      discontinuous, indices)] *)
  allfragments :
    Ctrees → Sents → Labels → Z → Z → bool → bool → gmap fragment value;
  (* [_fragments.completebitsets(trees, sents, labels, maxnodes, disc)] *)
  completebitsets :
    Ctrees → Sents → Labels → Z → bool → gmap fragment value;
  (* [multiprocessing.cpu_count()], or 1 *)
  cpu_count : Z;
  (* [binarize(introducepreterminals(Tree(tree), sent, ids=ids),
      childchar="}")]: the tree and the state of the counter [ids] *)
  pseudotree : string → list (option string) → Z → Tree * Z;
  (* ['%s' % unbinarize(Tree(frag))], [None] when it raises *)
  unbinarize : string → option string;
  (* [len(m)], [sorted(m.elements())] and [n in m] of a multiset *)
  multiset_len : Multiset → Z;
  multiset_sorted : Multiset → list Z;
  multiset_mem : Z → Multiset → bool;
  (* [sum(m.values())] *)
  multiset_total : Multiset → Z;
  (* the regular-expression rewriting of [altrepr] *)
  altrepr : string → string;
  (* [gnu_getopt(argv[1:], 'ho:', FLAGS + OPTIONS)], [None] on
     [GetoptError] *)
  gnu_getopt : list string → option (list (string * string) * list string);
  (* [int(s)], [None] when it raises [ValueError] *)
  int_of_string : string → option Z;
  (* [os.path.exists(a)] *)
  path_exists : string → bool;
  (* ['%r' % a] for a fragment key (given [PARAMS['disc']]), for a string *)
  repr_fragment : bool → fragment → string;
  repr_string : string → string;
  (* the text of [traceback.format_exception] for the exception that a
     worker has raised, joined into one string *)
  format_exception : exn → string;
}.

(** ** Floating-point numbers

    The double-precision numbers of the interpreter, as far as [workload]
    uses them.  Converting an integer raises [OverflowError] when it is too
    large, floor division raises [ZeroDivisionError] when the divisor is
    zero, and the other operations do not raise (they round, and give
    infinities and NaN). *)
Class Floats : Type := {
  float : Type;
  (* [float(n)] for an integer [n], as in [0.5 * n] and [x - n]; [None]
     when it raises [OverflowError] *)
  float_of_int : Z → option float;
  (* the constant [0.5] *)
  half : float;
  (* [x * y], [x + y], [x - y] *)
  fmul : float → float → float;
  fadd : float → float → float;
  fsub : float → float → float;
  (* [x // y]; [None] when [y] is zero *)
  ffloordiv : float → float → option float;
  (* [x <= y] *)
  fle : float → float → bool;
  (* twice the value of [x], when that is an integer: [Some z] says that
     [x] stands for the number [z / 2] exactly *)
  twice : float → option Z;
}.

(** What double precision guarantees.  An integer converts if and only if
    it rounds to a finite double, that is below [2^1024 - 2^970] in
    magnitude; up to [2^53] in magnitude it converts exactly, and an
    integer other than zero never converts to zero.  Floor division raises
    if and only if the divisor is zero.  An operation whose exact result is
    an integer up to [2^53] in magnitude (or, for the product, half an
    integer) returns it, and the comparison is that of the values. *)
Class FloatLaws `{Floats} : Prop := {
  of_int_finite z :
    Z.abs z < 2 ^ 1024 - 2 ^ 970 → is_Some (float_of_int z);
  of_int_overflow z :
    2 ^ 1024 - 2 ^ 970 ≤ Z.abs z → float_of_int z = None;
  of_int_exact z :
    Z.abs z ≤ 2 ^ 53 →
    ∃ x, float_of_int z = Some x ∧ twice x = Some (2 * z);
  of_int_nonzero z x :
    float_of_int z = Some x → z ≠ 0 → twice x ≠ Some 0;
  half_exact : twice half = Some 1;
  mul_exact x y a b c :
    twice x = Some a → twice y = Some b → a * b = 2 * c →
    Z.abs c ≤ 2 ^ 53 ∨ (Z.even c = true ∧ Z.abs c ≤ 2 ^ 54) →
    twice (fmul x y) = Some c;
  add_exact x y a b :
    twice x = Some (2 * a) → twice y = Some (2 * b) →
    Z.abs (a + b) ≤ 2 ^ 53 →
    twice (fadd x y) = Some (2 * (a + b));
  sub_exact x y a b :
    twice x = Some (2 * a) → twice y = Some (2 * b) →
    Z.abs (a - b) ≤ 2 ^ 53 →
    twice (fsub x y) = Some (2 * (a - b));
  floordiv_exact x y a b :
    twice x = Some (2 * a) → twice y = Some (2 * b) →
    Z.abs a ≤ 2 ^ 53 → Z.abs b ≤ 2 ^ 53 → b ≠ 0 →
    ∃ q, ffloordiv x y = Some q ∧ twice q = Some (2 * (a / b));
  floordiv_zero x y :
    twice y = Some 0 → ffloordiv x y = None;
  floordiv_defined x y :
    twice y ≠ Some 0 → is_Some (ffloordiv x y);
  le_exact x y a b :
    twice x = Some a → twice y = Some b →
    fle x y = bool_decide (a ≤ b);
}.

Section Model.
Context `{NT : NativeTypes} `{N : !Native} `{FL : Floats}.

(** ** The work-load planner *)

(** [float(n)] where the code hands an integer to float arithmetic *)
Definition float_of (n : Z) : result float :=
  match float_of_int n with
  | Some x => Ok x
  | None => Raise OverflowError
  end.

(** One turn of the loop [for n in range(1, numtrees)] of [workload]; the
    state is [(togo, goal, result, last)], and [togo] and [goal] are
    floats. *)
Definition workload_step (numtrees : Z) (chunk : float)
    (st : float * float * list (Z * Z) * Z) (n : Z)
    : result (float * float * list (Z * Z) * Z) :=
  let '(togo, goal, result, last) := st in
  x ← float_of (numtrees - n);
  let togo := fsub togo x in
  if fle togo goal
  then Ok (togo, fsub goal chunk, result ++ [(last, n)], n)
  else Ok (togo, goal, result, last).

(** [workload(numtrees, mult, numproc)].  [total], [chunk], [goal] and
    [togo] are floats: [0.5 * numtrees * (numtrees - 1)] converts
    [numtrees] and then [numtrees - 1], [total // (mult * numproc) + 1]
    converts the divisor and [1], and [togo -= numtrees - n] converts the
    difference. *)
Definition workload (numtrees mult numproc : Z) : result (list (Z * Z)) :=
  if decide (numproc = 1) then Ok [(0, numtrees)]
  else
    n ← float_of numtrees;
    n1 ← float_of (numtrees - 1);
    let total := fmul (fmul half n) n1 in
    d ← float_of (mult * numproc);
    q ← from_option Ok (Raise ZeroDivisionError) (ffloordiv total d);
    one ← float_of 1;
    let chunk := fadd q one in
    '(_, _, result, last) ←
      foldlM (workload_step numtrees chunk)
             (total, fsub total chunk, [], 0) (range 1 numtrees);
    Ok (if decide (last < numtrees)
        then result ++ [(last, numtrees)] else result).

(** An ordered list of non-empty half-open intervals in which each interval
    starts where the previous one ends, from [lo] up to [hi]. *)
Fixpoint tiles (lo hi : Z) (ivs : list (Z * Z)) : Prop :=
  match ivs with
  | [] => lo = hi
  | (a, b) :: rest => a = lo ∧ a < b ∧ tiles b hi rest
  end.

(** The number of intervals of [ivs] that contain the index [i]. *)
Definition covering (ivs : list (Z * Z)) (i : Z) : nat :=
  length (filter (λ iv : Z * Z, iv.1 ≤ i < iv.2) ivs).

(** ** Workers *)

(** [PARAMS['trees1']] and the like: the corpora must have been loaded. *)
Definition loaded (P : PARAMS) : result corpora :=
  match corp P with
  | Some c => Ok c
  | None => Raise KeyError
  end.

(** [initworker(treebank1, treebank2, limit, encoding)] *)
Definition initworker (P : PARAMS) (treebank1 : string)
    (treebank2 : option string) (limit : option Z) (encoding : string)
    : result PARAMS :=
  let c := readtreebanks treebank1 treebank2 (fmt P) limit encoding in
  let P := update_corpora P c in
  if negb (ctrees_bool (trees1 c)) then Raise (ValueError "treebank1 empty.")
  else
    match treebank2 with
    | Some (String _ _) =>
        if from_option ctrees_bool false (trees2 c) then Ok P
        else Raise (ValueError "treebank2 empty.")
    | _ => Ok P
    end.

(** [initworkersimple(trees, sents, disc, trees2, sents2)] *)
Definition initworkersimple (P : PARAMS) (trees : list Tree)
    (sents : list (list string)) (disc : bool)
    (trees2 : option (list Tree)) (sents2 : option (list (list string)))
    : result PARAMS :=
  let c := getctrees trees sents disc trees2 sents2 in
  _ ← assert (ctrees_bool (trees1 c));
  Ok (update_corpora P c).

(** The decorator [@workerfunc] of the two worker functions (it is
    defined in [discodop.parser]): it calls the function and hands on what
    it returns; an exception of the function (any [Exception]; [SystemExit]
    is none) is caught, and [Exception('in worker process\n%s' % traceback)]
    is raised in its place. *)
Definition workerfunc {A} (r : result A) : result A :=
  match r with
  | Ok a => Ok a
  | Raise (SystemExit code) => Raise (SystemExit code)
  | Raise e =>
      Raise (Exception ("in worker process"
                        +:+ String (Ascii.ascii_of_nat 10) EmptyString
                        +:+ format_exception e))
  end.

(** [worker(interval)] *)
Definition worker (P : PARAMS) (interval : Z * Z)
    : result (gmap fragment value) :=
  workerfunc
    (let '(offset, end_) := interval in
     c ← loaded P;
     _ ← assert (bool_decide (offset < ctrees_len (trees1 c)));
     Ok (extractfragments (trees1 c) (sents1 c) offset end_ (labels c)
           (trees2 c) (sents2 c) (approx P) (disc P) (complement P) (debug P)
           (twoterms P) (adjacent P))).

(** [exactcountworker(args)] *)
Definition exactcountworker (P : PARAMS) (args : Z * Z * list value)
    : result (list value) :=
  workerfunc
    (let '(n, m, bitsets) := args in
     c ← loaded P;
     if complete P
     then Ok (exactcounts (trees1 c) (trees2 c) bitsets (indices P))
     else Ok (exactcounts (trees1 c) (Some (trees1 c)) bitsets (indices P))).

(** ** Merging the results of the workers *)

(** [x + y] on the values of a [defaultdict(int)] *)
Definition value_add (x y : value) : result value :=
  match x, y with
  | VInt a, VInt b => Ok (VInt (a + b))
  | _, _ => Raise TypeError
  end.

(** [for frag, x in results.items(): fragments[frag] += x], where
    [fragments] is a [defaultdict(int)] *)
Definition merge_approx (fragments results : gmap fragment value)
    : result (gmap fragment value) :=
  foldlM (λ fragments '(frag, x),
            v ← value_add (default (VInt 0) (fragments !! frag)) x;
            Ok (<[frag := v]> fragments))
         fragments (map_to_list results).

(** [fragments.update(results)] *)
Definition merge_exact (fragments results : gmap fragment value)
    : gmap fragment value :=
  dict_update fragments (map_to_list results).

(** The frequency a dictionary of approximate counts gives for a key: the
    number stored with it, and 0 for a key it does not have. *)
Definition freq_of (v : option value) : Z :=
  match v with
  | Some (VInt n) => n
  | _ => 0
  end.

(** A dictionary all of whose values are numbers. *)
Definition ints (m : gmap fragment value) : Prop :=
  ∀ k v, m !! k = Some v → ∃ n, v = VInt n.

(** The sum of the frequencies that the partial maps give for a key. *)
Definition partial_sum (parts : list (gmap fragment value)) (k : fragment)
    : Z :=
  foldr (λ results s, freq_of (results !! k) + s) 0 parts.

(** The loop [for results in dowork] of [regular]. *)
Definition merge (P : PARAMS) (fragments results : gmap fragment value)
    : result (gmap fragment value) :=
  if approx P then merge_approx fragments results
  else Ok (merge_exact fragments results).

(** ** The exact counting phase *)

(** [countchunk = len(bitsets) // numproc + 1] *)
Definition countchunk_of (bitsets : list value) (numproc : Z) : result Z :=
  if decide (numproc = 0) then Raise ZeroDivisionError
  else Ok (len bitsets / numproc + 1).

(** [work = list(range(0, len(bitsets), countchunk))] followed by
    [[(n, len(work), bitsets[a:a + countchunk]) for n, a in
    enumerate(work)]] *)
Definition countwork (bitsets : list value) (countchunk : Z)
    : result (list (Z * Z * list value)) :=
  work ← range_step (len bitsets) countchunk;
  Ok (imap (λ n a, (Z.of_nat n, len work,
                    slice bitsets a (a + countchunk))) work).

(** [for a in mymap(exactcountworker, work): counts.extend(a)] *)
Definition collectcounts (P : PARAMS) (work : list (Z * Z * list value))
    : result (list value) :=
  chunks ← traverse (exactcountworker P) work;
  Ok (concat chunks).

Definition exactcounting (P : PARAMS) (bitsets : list value) (numproc : Z)
    : result (list value) :=
  countchunk ← countchunk_of bitsets numproc;
  work ← countwork bitsets countchunk;
  collectcounts P work.

(** ** Merging the cover fragments *)

(** One turn of [for a in cover], where [v] is [cover[a]]:
    [if a not in fragments: fragmentkeys.append(a); counts.append(v)] *)
Definition cover_step (fragments : gmap fragment value)
    (st : list fragment * list value) (av : fragment * value)
    : list fragment * list value :=
  let '(fragmentkeys, counts) := st in
  let '(a, v) := av in
  if decide (a ∈ dom fragments) then st
  else (fragmentkeys ++ [a], counts ++ [v]).

(** The merge of the cover fragments in [regular] and
    [recurringfragments]; the last component is the number the log message
    reports, [len(fragmentkeys) - before]. *)
Definition mergecover (fragments : gmap fragment value)
    (fragmentkeys : list fragment) (counts : list value)
    (cover : gmap fragment value) : list fragment * list value * Z :=
  let before := len fragmentkeys in
  let '(fragmentkeys, counts) :=
    foldl (cover_step fragments) (fragmentkeys, counts) (map_to_list cover) in
  (fragmentkeys, counts, len fragmentkeys - before).

(** ** [regular]: non-batch processing *)

(** [for results in mymap(worker, work)] with the merge of [regular] *)
Definition extract_merge (P : PARAMS) (work : list (Z * Z))
    : result (gmap fragment value) :=
  foldlM (λ fragments interval,
            results ← worker P interval; merge P fragments results)
         ∅ work.

(** The intervals of [regular] when two treebanks are given. *)
Definition evenchunks (numtrees mult numproc : Z) : result (list (Z * Z)) :=
  if decide (mult * numproc = 0) then Raise ZeroDivisionError
  else
    let chunk := numtrees / (mult * numproc) + 1 in
    starts ← range_step numtrees chunk;
    Ok (fmap (M:=list) (λ a, (a, a + chunk)) starts).

Definition regular (P : PARAMS) (filenames : list string) (numproc : Z)
    (limit : option Z) (encoding : string)
    : result (PARAMS * (list fragment * option (list value))) :=
  let mult := 1 in
  treebank1 ← from_option Ok (Raise IndexError) (filenames !! 0%nat);
  let treebank2 :=
    if decide (len filenames = 2) then filenames !! 1%nat else None in
  P ← initworker P treebank1 treebank2 limit encoding;
  _ ← (if decide (numproc = 1) then Ok tt else Pool numproc);
  c ← loaded P;
  let numtrees :=
    match limit with
    | None => ctrees_len (trees1 c)
    | Some limit => ctrees_len (trees1 c) `min` limit
    end in
  fragments ←
    (if complete P then
       match trees2 c with
       | None => Raise AttributeError
       | Some t2 =>
           Ok (completebitsets (trees1 c) (sents1 c) (labels c)
                 (ctrees_maxnodes (trees1 c) `max` ctrees_maxnodes t2)
                 (disc P))
       end
     else
       work ← (if decide (len filenames = 1)
                then workload numtrees mult numproc
                else evenchunks numtrees mult numproc);
       extract_merge P work);
  let fragmentkeys := keys fragments in
  counts ←
    (if nofreq P then Ok None
     else if approx P
     then Some <$> traverse (getitem fragments) fragmentkeys
     else
       bitsets ← traverse (getitem fragments) fragmentkeys;
       Some <$> exactcounting P bitsets numproc);
  '(fragmentkeys, counts) ←
    match cover P with
    | Some (maxdepth, maxfrontier) =>
        let cover := allfragments (trees1 c) (sents1 c) (labels c)
                       maxdepth maxfrontier (disc P) (indices P) in
        match counts with
        | Some counts =>
            let '(fragmentkeys, counts, _) :=
              mergecover fragments fragmentkeys counts cover in
            Ok (fragmentkeys, Some counts)
        | None =>
            (* [counts] is [None], which has no [append] *)
            if decide (dom cover ⊆ dom fragments)
            then Ok (fragmentkeys, None)
            else Raise AttributeError
        end
    | None => Ok (fragmentkeys, counts)
    end;
  (* [if numproc != 1: pool.close(); pool.join(); del dowork, pool]:
     [dowork] is bound only where the workers extract *)
  _ ← (if decide (numproc = 1) then Ok tt
       else if complete P then Raise UnboundLocalError else Ok tt);
  Ok (P, (fragmentkeys, counts)).

(** ** [recurringfragments] and [iteratefragments] *)

(** [for a in mymap(worker, work): fragments.update(a)] *)
Definition extract_update (P : PARAMS) (work : list (Z * Z))
    : result (gmap fragment value) :=
  foldlM (λ fragments interval,
            a ← worker P interval; Ok (merge_exact fragments a))
         ∅ work.

(** The first half of [iteratefragments]: the fragments found in the new
    trees, and the parameters the workers run with. *)
Definition discover (P : PARAMS) (newtrees : list Tree)
    (newsents : list (list string)) (trees : option (list Tree))
    (sents : option (list (list string))) (numproc : Z)
    : result (PARAMS * gmap fragment value) :=
  let numtrees := len newtrees in
  if decide (numtrees = 0) then Raise (ValueError "no trees.")
  else
    _ ← (if decide (numproc = 1) then Ok tt else Pool numproc);
    Pw ← initworkersimple P newtrees newsents (disc P) trees sents;
    work ← workload numtrees 1 numproc;
    newfragments ← extract_update Pw work;
    Ok (Pw, newfragments).

(** [iteratefragments(fragments, newtrees, newsents, trees, sents,
    numproc)]; with one process the initialisation changes the [PARAMS] of
    the caller. *)
Definition iteratefragments (P : PARAMS) (fragments : gmap fragment value)
    (newtrees : list Tree) (newsents : list (list string))
    (trees : option (list Tree)) (sents : option (list (list string)))
    (numproc : Z) : result (PARAMS * (list fragment * list value)) :=
  '(Pw, newfragments) ← discover P newtrees newsents trees sents numproc;
  let P := if decide (numproc = 1) then Pw else P in
  let newkeys := elements (dom newfragments ∖ dom fragments) in
  bitsets ← traverse (getitem newfragments) newkeys;
  countchunk ← countchunk_of bitsets numproc;
  if decide (countchunk = 0) then Ok (P, (newkeys, []))
  else
    work ← countwork bitsets countchunk;
    counts ← collectcounts Pw work;
    Ok (P, (newkeys, counts)).

(** The state of the loop that collects fragments of fragments: the
    variables [fragments], [fragmentkeys], [counts], [newfrags], [trees],
    [sents] and the counter [ids] of [recurringfragments], and [PARAMS]. *)
Record closure : Type := Closure {
  cl_fragments : gmap fragment value;
  cl_fragmentkeys : list fragment;
  cl_counts : list value;
  cl_newfrags : list fragment;
  cl_trees : option (list Tree);
  cl_sents : option (list (list string));
  cl_ids : Z;
  cl_params : PARAMS;
}.

(** [[binarize(introducepreterminals(Tree(tree), sent, ids=ids),
    childchar="}") for tree, sent in newfrags]] *)
Definition newtrees_of (newfrags : list fragment) (ids : Z) : list Tree * Z :=
  foldl (λ '(acc, ids) '(tree, sent),
           let '(t, ids) := pseudotree tree sent ids in (acc ++ [t], ids))
        ([], ids) newfrags.

(** [["#%d" % next(ids) if word is None else word for word in sent]] *)
Definition newsent_of (sent : list (option string)) (ids : Z)
    : list string * Z :=
  foldl (λ '(acc, ids) word,
           match word with
           | None => (acc ++ ["#" +:+ pretty ids], ids + 1)
           | Some word => (acc ++ [word], ids)
           end)
        ([], ids) sent.

Definition newsents_of (newfrags : list fragment) (ids : Z)
    : list (list string) * Z :=
  foldl (λ '(acc, ids) '(_, sent),
           let '(s, ids) := newsent_of sent ids in (acc ++ [s], ids))
        ([], ids) newfrags.

(** How a turn of the loop [for _ in range(10)] ends: with [break], or by
    falling through to the next turn. *)
Inductive outcome : Type :=
  | Break (cl : closure)
  | Continue (cl : closure).

(** The body of the loop [for _ in range(10)]. *)
Definition closure_round (numproc : Z) (cl : closure) : result outcome :=
  let '(newtrees, ids) := newtrees_of (cl_newfrags cl) (cl_ids cl) in
  let '(newsents, ids) := newsents_of (cl_newfrags cl) ids in
  '(P, (newfrags, newcounts)) ←
    iteratefragments (cl_params cl) (cl_fragments cl) newtrees newsents
      (cl_trees cl) (cl_sents cl) numproc;
  if decide (len newfrags = 0)
  then Ok (Break {|
    cl_fragments := cl_fragments cl;
    cl_fragmentkeys := cl_fragmentkeys cl;
    cl_counts := cl_counts cl;
    cl_newfrags := newfrags;
    cl_trees := cl_trees cl;
    cl_sents := cl_sents cl;
    cl_ids := ids;
    cl_params := P |})
  else Ok (Continue {|
    cl_fragments := dict_update (cl_fragments cl) (zip newfrags newcounts);
    cl_fragmentkeys := cl_fragmentkeys cl ++ newfrags;
    cl_counts := cl_counts cl ++ newcounts;
    cl_newfrags := newfrags;
    cl_trees := Some (default [] (cl_trees cl) ++ newtrees);
    cl_sents := Some (default [] (cl_sents cl) ++ newsents);
    cl_ids := ids;
    cl_params := P |}).

(** The fragments that a turn of the loop finds in the trees it makes of
    the fragments of the previous turn: the [newfragments] of
    [iteratefragments]. *)
Definition round_discovered (numproc : Z) (cl : closure)
    : result (gmap fragment value) :=
  let '(newtrees, ids) := newtrees_of (cl_newfrags cl) (cl_ids cl) in
  let '(newsents, ids) := newsents_of (cl_newfrags cl) ids in
  snd <$> discover (cl_params cl) newtrees newsents (cl_trees cl)
            (cl_sents cl) numproc.

(** [rounds numproc k cl cl'] : [k] consecutive turns of the loop that do
    not end it lead from the state [cl] to the state [cl']. *)
Inductive rounds (numproc : Z) : nat → closure → closure → Prop :=
  | rounds_O cl : rounds numproc O cl cl
  | rounds_S k cl cl' cl'' :
      closure_round numproc cl = Ok (Continue cl') →
      rounds numproc k cl' cl'' →
      rounds numproc (S k) cl cl''.

(** [for _ in range(rounds)] *)
Fixpoint closure_loop (rounds : nat) (numproc : Z) (cl : closure)
    : result closure :=
  match rounds with
  | O => Ok cl
  | S rounds =>
      o ← closure_round numproc cl;
      match o with
      | Break cl => Ok cl
      | Continue cl => closure_loop rounds numproc cl
      end
  end.

(** [recurringfragments] up to and including the merge of the cover
    fragments: the state in which the optional iteration starts. *)
Definition recurring_once (P : PARAMS) (trees : list Tree)
    (sents : list (list string)) (numproc : Z)
    (disc complement indices : bool) (maxdepth maxfrontier : Z)
    : result closure :=
  let numtrees := len trees in
  if decide (numtrees = 0) then Raise (ValueError "no trees.")
  else
    let mult := 1 in
    work ← workload numtrees mult numproc;
    let P :=
      {| disc := disc; indices := indices; approx := false;
         complete := false; complement := complement; debug := false;
         adjacent := false; twoterms := false;
         nofreq := nofreq P; alt := alt P; relfreq := relfreq P;
         debin := debin P; quiet := quiet P; help := help P; fmt := fmt P;
         cover := cover P; corp := corp P |} in
    P ← initworkersimple P trees sents disc None None;
    _ ← (if decide (numproc = 1) then Ok tt else Pool numproc);
    fragments ← extract_update P work;
    let fragmentkeys := keys fragments in
    bitsets ← traverse (getitem fragments) fragmentkeys;
    counts ← exactcounting P bitsets numproc;
    '(fragmentkeys, counts) ←
      (if decide (maxdepth = 0) then Ok (fragmentkeys, counts)
       else
         c ← loaded P;
         let cover := allfragments (trees1 c) (sents1 c) (labels c)
                        maxdepth maxfrontier disc indices in
         Ok (mergecover fragments fragmentkeys counts cover).1);
    Ok {| cl_fragments := fragments; cl_fragmentkeys := fragmentkeys;
          cl_counts := counts; cl_newfrags := keys fragments;
          cl_trees := None; cl_sents := None; cl_ids := 0;
          cl_params := P |}.

(** [PARAMS['complement'] = False] at the start of the iteration *)
Definition complement_off (cl : closure) : closure :=
  {| cl_fragments := cl_fragments cl; cl_fragmentkeys := cl_fragmentkeys cl;
     cl_counts := cl_counts cl; cl_newfrags := cl_newfrags cl;
     cl_trees := cl_trees cl; cl_sents := cl_sents cl; cl_ids := cl_ids cl;
     cl_params := set_complement (cl_params cl) false |}.

Definition recurringfragments (P : PARAMS) (trees : list Tree)
    (sents : list (list string)) (numproc : Z)
    (disc iterate complement indices : bool) (maxdepth maxfrontier : Z)
    : result (gmap fragment value) :=
  let numproc := if decide (numproc = 0) then cpu_count else numproc in
  cl ← recurring_once P trees sents numproc disc complement indices
         maxdepth maxfrontier;
  cl ← (if iterate then
          if negb disc then Raise NotImplementedError
          else closure_loop 10 numproc (complement_off cl)
        else Ok cl);
  Ok (dict_update ∅ (zip (cl_fragmentkeys cl) (cl_counts cl))).

(** ** [debinarize] *)

(** [debinarize(fragments)]: each fragment is appended to [result], in its
    debinarized form or, when that raises, as it is.  [PARAMS['disc']] only
    selects the shape of a key, which is a pair here in both cases. *)
Definition debinarize (fragments : list fragment) : list fragment :=
  foldl (λ result origfrag,
           let '(frag, sent) := origfrag in
           match unbinarize frag with
           | None => result ++ [origfrag]
           | Some frag => result ++ [(frag, sent)]
           end)
        [] fragments.

(** ** [printfragments] *)

Definition TAB : string := String (Ascii.ascii_of_nat 9) "".
Definition NL : string := String (Ascii.ascii_of_nat 10) "".

(** The first field of a line of output: the fragment itself or, for a
    discontinuous fragment, ['%s\t%s' % (a[0], ' '.join('%s' % x if x
    else '' for x in a[1]))]. *)
Definition fragtext (P : PARAMS) (a : fragment) : string :=
  if disc P
  then a.1 +:+ TAB +:+ String.concat " " (default "" <$> a.2)
  else a.1.

(** ['%r' % l] for a list of integers *)
Definition repr_list (l : list Z) : string :=
  "[" +:+ String.concat ", " (pretty <$> l) +:+ "]".

(** The validity threshold of the mode and whether a frequency that does
    not exceed it is an error: [(threshold, zeroinvalid)]. *)
Definition threshold_of (P : PARAMS) : Z * bool :=
  if complete P then (0, false)
  else if from_option (λ c, from_option ctrees_bool false (trees2 c))
            false (corp P)
          || bool_decide (is_Some (cover P)) || complement P || approx P
  then (0, true)
  else (1, true).

(** The mode in which fragments recurring in one treebank are sought and
    nothing else: no complete matches, no second treebank, no cover
    fragments, no complement, no approximate counts. *)
Definition pure_recurring (P : PARAMS) : Prop :=
  complete P = false
  ∧ from_option (λ c, from_option ctrees_bool false (trees2 c))
      false (corp P) = false
  ∧ cover P = None
  ∧ complement P = false
  ∧ approx P = false.

(** What [raise ValueError('invalid fragment--frequency=1: %r' % a)]
    raises: a discontinuous fragment is a tuple of two, which [%] takes for
    two arguments where the format has one place, so that the formatting
    raises [TypeError] before there is a [ValueError]. *)
Definition invalid_fragment (P : PARAMS) (a : fragment) : exn :=
  if disc P then TypeError
  else ValueError ("invalid fragment--frequency=1: "
                   +:+ repr_fragment (disc P) a).

(** A line of the default output: ['%s\t%d\n' % (text, freq)] *)
Definition freq_line (P : PARAMS) (a : fragment) (freq : Z) : string :=
  fragtext P a +:+ TAB +:+ pretty freq +:+ NL.

(** The loop [for a, freq in zip(fragments, counts)] of the default output:
    the lines written so far are [out]; the result is what has been written
    when the loop ends and the exception that ended it, if any.  Comparing
    a value that is not a number with the threshold is a type error. *)
Fixpoint write_freqs (P : PARAMS) (threshold : Z) (zeroinvalid : bool)
    (pairs : list (fragment * value)) (out : list string)
    : list string * option exn :=
  match pairs with
  | [] => (out, None)
  | (a, VInt freq) :: pairs =>
      if decide (freq > threshold)
      then write_freqs P threshold zeroinvalid pairs
             (out ++ [freq_line P a freq])
      else if zeroinvalid then (out, Some (invalid_fragment P a))
      else write_freqs P threshold zeroinvalid pairs out
  | _ :: _ => (out, Some TypeError)
  end.

(** The indices written for a fragment: all of them, or with [--adjacent]
    those next to another one. *)
Definition indices_payload (P : PARAMS) (theindices : Multiset) : list Z :=
  if adjacent P
  then List.filter (λ n, multiset_mem (n - 1) theindices
                         || multiset_mem (n + 1) theindices)
         (multiset_sorted theindices)
  else multiset_sorted theindices.

(** A line of the output of indices: ['%s\t%r\n' % (text, indices)] *)
Definition indices_line (P : PARAMS) (a : fragment) (theindices : Multiset)
    : string :=
  fragtext P a +:+ TAB +:+ repr_list (indices_payload P theindices) +:+ NL.

(** The loop [for a, theindices in zip(fragments, counts)] of the output
    of indices. *)
Fixpoint write_indices (P : PARAMS) (threshold : Z) (zeroinvalid : bool)
    (pairs : list (fragment * value)) (out : list string)
    : list string * option exn :=
  match pairs with
  | [] => (out, None)
  | (a, VIdx theindices) :: pairs =>
      if decide (multiset_len theindices > threshold)
      then write_indices P threshold zeroinvalid pairs
             (out ++ [indices_line P a theindices])
      else if zeroinvalid then (out, Some (invalid_fragment P a))
      else write_indices P threshold zeroinvalid pairs out
  | _ :: _ => (out, Some TypeError)
  end.

(** [a.index(' ')] for a string *)
Fixpoint index_space (a : string) : option nat :=
  match a with
  | EmptyString => None
  | String c a => if decide (c = " "%char) then Some O
                  else S <$> index_space a
  end.

(** [a[1:a.index(' ')]]: the root label of a continuous fragment.  A
    discontinuous fragment is a tuple, in which [' '] is found only when it
    is the first component, and the slice is then the empty tuple, [None]
    here. *)
Definition rootlabel (P : PARAMS) (a : fragment) : result (option string) :=
  if disc P then
    if decide (a.1 = " ") then Ok None
    else Raise (ValueError "tuple.index(x): x not in tuple")
  else
    match index_space a.1 with
    | Some i => Ok (Some (String.substring 1 (i - 1) a.1))
    | None => Raise (ValueError "substring not found")
    end.

(** The first loop of the output of relative frequencies, which sums the
    frequencies per root label. *)
Fixpoint sum_roots (P : PARAMS) (threshold : Z) (zeroinvalid : bool)
    (pairs : list (fragment * value)) (sums : gmap (option string) Z)
    : result (gmap (option string) Z) :=
  match pairs with
  | [] => Ok sums
  | (a, VInt freq) :: pairs =>
      if decide (freq > threshold) then
        r ← rootlabel P a;
        sum_roots P threshold zeroinvalid pairs
          (<[r := default 0 (sums !! r) + freq]> sums)
      else if zeroinvalid
      then Raise (ValueError ("invalid fragment--frequency=" +:+ pretty freq
                              +:+ ": " +:+ repr_fragment (disc P) a))
      else sum_roots P threshold zeroinvalid pairs sums
  | _ :: _ => Raise TypeError
  end.

(** The second loop of the output of relative frequencies. *)
Fixpoint write_relfreqs (P : PARAMS) (pairs : list (fragment * value))
    (sums : gmap (option string) Z) (out : list string)
    : list string * option exn :=
  match pairs with
  | [] => (out, None)
  | (a, freq) :: pairs =>
      match rootlabel P a, freq with
      | Raise e, _ => (out, Some e)
      | Ok r, VInt freq =>
          write_relfreqs P pairs sums
            (out ++ [fragtext P a +:+ TAB +:+ pretty freq +:+ "/"
                     +:+ pretty (default 0 (sums !! r)) +:+ NL])
      | Ok _, _ => (out, Some TypeError)
      end
  end.

(** The number logged in complete-match mode: [sum(sum(a.values()) for a
    in counts) if PARAMS['indices'] else sum(counts)]. *)
Definition total_matches (P : PARAMS) (counts : option (list value))
    : result Z :=
  match counts with
  | None => Raise TypeError
  | Some counts =>
      if indices P
      then foldlM (λ acc a, match a with
                            | VIdx m => Ok (acc + multiset_total m)
                            | _ => Raise AttributeError
                            end) 0 counts
      else foldlM (λ acc a, match a with
                            | VInt n => Ok (acc + n)
                            | _ => Raise TypeError
                            end) 0 counts
  end.

(** [for n, a in enumerate(fragments): fragments[n] = altrepr(a)]; a
    discontinuous fragment is a tuple, which has no [replace]. *)
Definition alt_fragments (P : PARAMS) (fragments : list fragment)
    : result (list fragment) :=
  if alt P then
    if disc P then
      match fragments with
      | [] => Ok []
      | _ :: _ => Raise AttributeError
      end
    else Ok ((λ a : fragment, (altrepr a.1, a.2)) <$> fragments)
  else Ok fragments.

(** [printfragments(fragments, counts, out)]: the lines written to [out]
    and the exception raised, if any. *)
Definition printfragments (P : PARAMS) (fragments : list fragment)
    (counts : option (list value)) : list string * option exn :=
  match
    fragments ← alt_fragments P fragments;
    _ ← (if complete P then total_matches P counts else Ok (len fragments));
    Ok fragments
  with
  | Raise e => ([], Some e)
  | Ok fragments =>
      if nofreq P then ((λ a, fragtext P a +:+ NL) <$> fragments, None)
      else
        let '(threshold, zeroinvalid) := threshold_of P in
        match counts with
        | None => ([], Some TypeError)
        | Some counts =>
            let pairs := zip fragments counts in
            if indices P
            then write_indices P threshold zeroinvalid pairs []
            else if relfreq P then
              match sum_roots P threshold zeroinvalid pairs ∅ with
              | Raise e => ([], Some e)
              | Ok sums => write_relfreqs P pairs sums []
              end
            else write_freqs P threshold zeroinvalid pairs []
        end
  end.

(** ** [main]: the command line *)

(** What [main] does once the command line is accepted: it prints the
    usage, or it calls [batch] or [regular] (and then [debinarize] and
    [printfragments]) with these arguments and [PARAMS]. *)
Inductive action : Type :=
  | PrintUsage
  | RunBatch (P : PARAMS) (batchdir : string) (args : list string)
      (limit : option Z) (encoding : string) (debin : bool)
  | RunRegular (P : PARAMS) (args : list string) (numproc : Z)
      (limit : option Z) (encoding : string) (out : option string)
      (debin : bool).

(** [int(s)] *)
Definition parse_int (s : string) : result Z :=
  match int_of_string s with
  | Some n => Ok n
  | None => Raise (ValueError "invalid literal for int() with base 10")
  end.

(** [s.split(',')] *)
Fixpoint split_comma (s : string) : list string :=
  match s with
  | EmptyString => [EmptyString]
  | String c s =>
      if decide (c = ","%char) then EmptyString :: split_comma s
      else
        match split_comma s with
        | [] => [String c EmptyString]
        | part :: parts => String c part :: parts
        end
  end.

(** The value of [PARAMS['cover']]. *)
Definition parse_cover (opts : gmap string string)
    : result (option (Z * Z)) :=
  match opts !! "--cover" with
  | Some s =>
      match split_comma s with
      | [_] => a ← parse_int s; Ok (Some (a, 999))
      | [a; b] => a ← parse_int a; b ← parse_int b; Ok (Some (a, b))
      | _ => Raise (ValueError "too many values to unpack")
      end
  | None => Ok None
  end.

(** The checks of [main] under [if PARAMS['complete']]. *)
Definition check_complete (P : PARAMS) (args : list string) : result unit :=
  if complete P then
    if decide (len args < 2)
    then Raise (ValueError "need at least two treebanks with --complete.")
    else if twoterms P || adjacent P
    then Raise (ValueError
           "--twoterms and --adjacent are incompatible with --complete.")
    else if approx P || nofreq P
    then Raise (ValueError
           "--complete is incompatible with --nofreq and --approx")
    else Ok tt
  else Ok tt.

(** What [main] has computed when it reaches the checks of
    [--complete]. *)
Record config : Type := Config {
  cfg_params : PARAMS;
  cfg_numproc : Z;
  cfg_limit : option Z;
  cfg_encoding : string;
  cfg_batchdir : option string;
  cfg_args : list string;
  cfg_out : option string;
  cfg_debin : bool;
}.

(** [o in opts] *)
Definition given (opts : gmap string string) (o : string) : bool :=
  bool_decide (is_Some (opts !! o)).

(** [main] from the setting of the flags to the check that the treebanks
    exist. *)
Definition configure (opts : gmap string string) (args : list string)
    : result config :=
  numproc ← from_option parse_int (Ok 1) (opts !! "--numproc");
  let numproc := if decide (numproc = 0) then cpu_count else numproc in
  if decide (numproc = 0)
  then Raise (ValueError "numproc should be an integer > 0. got: 0")
  else
    numtrees ← from_option parse_int (Ok 0) (opts !! "--numtrees");
    let limit := if decide (numtrees = 0) then None else Some numtrees in
    cover ← parse_cover opts;
    let P :=
      {| approx := given opts "--approx"; indices := given opts "--indices";
         nofreq := given opts "--nofreq"; complete := given opts "--complete";
         complement := given opts "--complement"; alt := given opts "--alt";
         relfreq := given opts "--relfreq";
         twoterms := given opts "--twoterms";
         adjacent := given opts "--adjacent"; debin := given opts "--debin";
         debug := given opts "--debug"; quiet := given opts "--quiet";
         help := given opts "--help";
         disc := bool_decide
                   (default "bracket" (opts !! "--fmt") ≠ "bracket");
         fmt := default "bracket" (opts !! "--fmt");
         cover := cover; corp := None |} in
    let encoding := default "utf8" (opts !! "--encoding") in
    let batchdir := opts !! "--batch" in
    if bool_decide (batchdir = None)
       && negb (bool_decide (len args = 1 ∨ len args = 2))
    then Raise (SystemExit 2)
    else if bool_decide (is_Some batchdir ∧ batchdir ≠ Some "")
            && negb (bool_decide (numproc = 1))
    then Raise (ValueError
           "Batch mode only supported in single-process mode. Use the xargs command for multi-processing.")
    else
      args ← match args with
             | [] => Raise IndexError
             | a :: rest =>
                 Ok ((if decide (a = "-") then "/dev/stdin" else a) :: rest)
             end;
      _ ← foldlM (λ _ a, if path_exists a then Ok tt
                         else Raise (ValueError ("not found: "
                                                 +:+ repr_string a)))
                 tt args;
      Ok {| cfg_params := P; cfg_numproc := numproc; cfg_limit := limit;
            cfg_encoding := encoding; cfg_batchdir := batchdir;
            cfg_args := args; cfg_out := opts !! "-o";
            cfg_debin := given opts "--debin" |}.

(** [main] from the checks of [--complete] on: the call of [batch] or
    [regular]. *)
Definition dispatch (cfg : config) : result action :=
  _ ← check_complete (cfg_params cfg) (cfg_args cfg);
  if bool_decide (cfg_numproc cfg = 1)
     && bool_decide (is_Some (cfg_batchdir cfg) ∧ cfg_batchdir cfg ≠ Some "")
  then Ok (RunBatch (cfg_params cfg) (default "" (cfg_batchdir cfg))
             (cfg_args cfg) (cfg_limit cfg) (cfg_encoding cfg) (cfg_debin cfg))
  else Ok (RunRegular (cfg_params cfg) (cfg_args cfg) (cfg_numproc cfg)
             (cfg_limit cfg) (cfg_encoding cfg) (cfg_out cfg) (cfg_debin cfg)).

(** [main(argv)], up to the call of [batch] or [regular]. *)
Definition main (argv : list string) : result action :=
  match gnu_getopt (drop 1 argv) with
  | None => Raise (SystemExit 2)
  | Some (opts, args) =>
      let opts : gmap string string := dict_update ∅ opts in
      if given opts "--help" || given opts "-h" then Ok PrintUsage
      else cfg ← configure opts args; dispatch cfg
  end.

End Model.

(** * Floating-point numbers without rounding

    Dyadic rationals: the pair [(n, k)] stands for [n / 2^k].  They behave
    as double-precision numbers do as long as no result needs more than 53
    significant bits: nothing is rounded, and the conversion of an integer
    overflows where that of a double does, from [2^1024 - 2^970] on. *)

Definition dyadic : Type := Z * nat.

Definition dy_of_int (z : Z) : option dyadic :=
  if decide (Z.abs z < 2 ^ 1024 - 2 ^ 970) then Some (z, 0%nat) else None.

Definition dy_mul (x y : dyadic) : dyadic :=
  (x.1 * y.1, (x.2 + y.2)%nat).

Definition dy_add (x y : dyadic) : dyadic :=
  (x.1 * 2 ^ Z.of_nat y.2 + y.1 * 2 ^ Z.of_nat x.2, (x.2 + y.2)%nat).

Definition dy_sub (x y : dyadic) : dyadic :=
  (x.1 * 2 ^ Z.of_nat y.2 - y.1 * 2 ^ Z.of_nat x.2, (x.2 + y.2)%nat).

Definition dy_floordiv (x y : dyadic) : option dyadic :=
  if decide (y.1 = 0) then None
  else Some ((x.1 * 2 ^ Z.of_nat y.2) / (y.1 * 2 ^ Z.of_nat x.2), 0%nat).

Definition dy_le (x y : dyadic) : bool :=
  bool_decide (x.1 * 2 ^ Z.of_nat y.2 ≤ y.1 * 2 ^ Z.of_nat x.2).

Definition dy_twice (x : dyadic) : option Z :=
  if decide ((2 * x.1) `mod` 2 ^ Z.of_nat x.2 = 0)
  then Some (2 * x.1 / 2 ^ Z.of_nat x.2) else None.

Definition dyadic_floats : Floats :=
  {| float := dyadic; float_of_int := dy_of_int; half := (1, 1%nat);
     fmul := dy_mul; fadd := dy_add; fsub := dy_sub;
     ffloordiv := dy_floordiv; fle := dy_le; twice := dy_twice |}.

(** * A small native layer

    Stand-ins for the native routines, so that the pipeline can be run on
    concrete inputs: a treebank is the list of its trees as strings, a
    fragment is a whole tree, and it occurs where the same tree stands. *)

Definition toy_types : NativeTypes :=
  {| Ctrees := list string; Sents := list (list string); Labels := unit;
     Prods := unit; Tree := string; Bitset := list Z; Multiset := list Z |}.

Section Toy.
#[local] Existing Instance toy_types.

(** The positions of the tree [t] in [trees], counted from [i]. *)
Fixpoint toy_positions (t : string) (trees : list string) (i : Z) : list Z :=
  match trees with
  | [] => []
  | t' :: trees =>
      if decide (t = t') then i :: toy_positions t trees (i + 1)
      else toy_positions t trees (i + 1)
  end.

(** The trees at the positions [offset, end) that stand in the treebank
    at least twice, each with its positions. *)
Definition toy_extract (trees1 : list string) (offset end_ : Z) (approx : bool)
    : gmap fragment (value) :=
  dict_update ∅
    (omap (λ t : string,
             let occ := toy_positions t trees1 0 in
             if decide (2 ≤ len occ)
             then Some ((t, []), if approx then VInt (len occ) else VBits occ)
             else None)
          (slice trees1 offset end_)).

Definition toy_count (wantindices : bool) (v : value)
    : value :=
  match v with
  | VBits occ => if wantindices then VIdx occ else VInt (len occ)
  | v => v
  end.

(** Every tree of the treebank, with its positions. *)
Definition toy_all (trees : list string) (wantindices : bool)
    : gmap fragment (value) :=
  dict_update ∅
    ((λ t : string, ((t, []), toy_count wantindices
                                (VBits (toy_positions t trees 0))))
     <$> trees).

(** Options are the arguments that start with a dash. *)
Definition toy_getopt (argv : list string)
    : option (list (string * string) * list string) :=
  Some ((λ o, (o, EmptyString))
          <$> List.filter (λ a, String.prefix "-" a && negb (String.eqb a "-"))
                argv,
        List.filter (λ a, negb (String.prefix "-" a) || String.eqb a "-") argv).

Definition toy_read (treebank1 : string) (treebank2 : option string)
    (fmt : string) (limit : option Z) (encoding : string) : corpora :=
  {| trees1 := [treebank1; treebank1]; sents1 := [];
     trees2 := (λ t, [t]) <$> treebank2; sents2 := None;
     prods := tt; labels := tt |}.

Definition toy_ctrees (trees : list string) (sents : list (list string))
    (disc : bool) (trees2 : option (list string))
    (sents2 : option (list (list string))) : corpora :=
  {| trees1 := trees; sents1 := sents; trees2 := trees2; sents2 := sents2;
     prods := tt; labels := tt |}.

Definition toy_int (s : string) : option Z :=
  if decide (s = "0") then Some 0
  else if decide (s = "1") then Some 1
  else if decide (s = "2") then Some 2
  else None.

Definition toy : @Native toy_types :=
  @Build_Native toy_types
    (* ctrees_len, ctrees_maxnodes, ctrees_bool *)
    (λ trees : list string, len trees)
    (λ _, 1)
    (λ trees : list string, bool_decide (trees ≠ []))
    (* readtreebanks, getctrees *)
    toy_read
    toy_ctrees
    (* extractfragments *)
    (λ trees1 _ offset end_ _ _ _ approx _ _ _ _ _,
       toy_extract trees1 offset end_ approx)
    (* exactcounts *)
    (λ _ _ bitsets wantindices, toy_count wantindices <$> bitsets)
    (* allfragments, completebitsets *)
    (λ trees _ _ _ _ _ wantindices, toy_all trees wantindices)
    (λ trees _ _ _ _, toy_all trees false)
    (* cpu_count *)
    2
    (* pseudotree: the tree cut down to its root *)
    (λ tree _ ids, (String.substring 0 2 tree, ids + 1))
    (* unbinarize *)
    (λ frag, if decide (frag = EmptyString) then None else Some frag)
    (* multiset_len, multiset_sorted, multiset_mem, multiset_total *)
    (λ m : list Z, len m)
    (λ m : list Z, m)
    (λ n (m : list Z), bool_decide (n ∈ m))
    (λ m : list Z, len m)
    (* altrepr *)
    (λ a, a)
    (* gnu_getopt, int_of_string, path_exists *)
    toy_getopt
    toy_int
    (λ _, true)
    (* repr_fragment, repr_string *)
    (λ _ a, a.1)
    (λ a, a)
    (* format_exception *)
    (λ _, "Traceback (most recent call last)").

(** [PARAMS] with every flag off. *)
Definition toy_params : @PARAMS toy_types :=
  {| approx := false; indices := false; nofreq := false; complete := false;
     complement := false; alt := false; relfreq := false; twoterms := false;
     adjacent := false; debin := false; debug := false; quiet := false;
     help := false; disc := false; fmt := "bracket"; cover := None;
     corp := None |}.

(** [PARAMS] of complete-match mode. *)
Definition toy_complete : @PARAMS toy_types :=
  {| approx := false; indices := false; nofreq := false; complete := true;
     complement := false; alt := false; relfreq := false; twoterms := false;
     adjacent := false; debin := false; debug := false; quiet := false;
     help := false; disc := false; fmt := "bracket"; cover := None;
     corp := None |}.

(** Five occurrence bitsets. *)
Definition toy_bitsets : list value :=
  @VBits toy_types <$> [[0; 1]; [2; 5]; [3; 4]; [6; 7]; [8; 9]].

(** A main result with the one key [X], and a cover with [X] and [Y]. *)
Definition toy_result : gmap fragment value :=
  {[ ("X", []) := @VBits toy_types [0; 1; 2; 3; 4] ]}.

Definition toy_cover : gmap fragment value :=
  {[ ("X", []) := VInt 1; ("Y", []) := VInt 1 ]}.

(** Two fragments to print. *)
Definition toy_fragments : list fragment := [("(S x)", []); ("(NP y)", [])].

End Toy.

(** * Batch mode, and measures of the pipeline *)

Section Batch.
Context `{NT : NativeTypes} `{N : !Native} `{FL : Floats}.

(** [read2ndtreebank(treebank2, labels, prods, fmt, limit, encoding)]: the
    native reader and indexer for one more treebank; it gives [trees2],
    [sents2] and the extended [prods] and [labels]. *)
Variable read2ndtreebank :
  string → Labels → Prods → string → option Z → string →
  Ctrees * Sents * Prods * Labels.

(** The comparisons that the rows [a + 1, ..., b] of the loop of
    [workload] take away from [togo]: [numtrees - n] for each row [n]. *)
Definition cost (numtrees a b : Z) : Z :=
  foldr Z.add 0 ((λ n, numtrees - n) <$> range (a + 1) (b + 1)).

(** The state of the loop of fragments of fragments is aligned: the counts
    are as many as the keys, and every accumulated key is among them. *)
Definition aligned (cl : closure) : Prop :=
  length (cl_counts cl) = length (cl_fragmentkeys cl)
  ∧ dom (cl_fragments cl) ⊆ list_to_set (cl_fragmentkeys cl).

(** What [worker] returns for an interval it accepts. *)
Definition extracted (P : PARAMS) (c : corpora) (iv : Z * Z)
    : gmap fragment value :=
  extractfragments (trees1 c) (sents1 c) iv.1 iv.2 (labels c)
    (trees2 c) (sents2 c) (approx P) (disc P) (complement P) (debug P)
    (twoterms P) (adjacent P).

(** The root label under which the output of relative frequencies counts
    a fragment whose label can be read off: the key of [sums] in
    [printfragments]. *)
Definition root_of (P : PARAMS) (a : fragment) : option string :=
  match rootlabel P a with
  | Ok r => r
  | Raise _ => None
  end.

(** The sum of the frequencies of the fragments with the root label [r]. *)
Definition root_total (P : PARAMS) (pairs : list (fragment * Z))
    (r : option string) : Z :=
  foldr (λ p s, if decide (root_of P p.1 = r) then p.2 + s else s) 0 pairs.

(** A line of the output of relative frequencies:
    ['%s\t%d/%d\n' % (text, freq, total)] *)
Definition relfreq_line (P : PARAMS) (a : fragment) (freq total : Z)
    : string :=
  fragtext P a +:+ TAB +:+ pretty freq +:+ "/" +:+ pretty total +:+ NL.

(** [os.path.basename(path)]: what follows the last slash. *)
Fixpoint basename_from (acc path : string) : string :=
  match path with
  | EmptyString => acc
  | String c path =>
      if decide (c = "/"%char) then basename_from EmptyString path
      else basename_from (acc +:+ String c EmptyString) path
  end.

Definition basename (path : string) : string :=
  basename_from EmptyString path.

(** [PARAMS.update(read2ndtreebank(...))] *)
Definition update_second (P : PARAMS) (c : corpora)
    (r : Ctrees * Sents * Prods * Labels) : PARAMS :=
  let '(t2, s2, pr, lb) := r in
  update_corpora P
    {| trees1 := trees1 c; sents1 := sents1 c; trees2 := Some t2;
       sents2 := Some s2; prods := pr; labels := lb |}.

(** The variables that the loop of [batch] carries from one treebank to
    the next: [PARAMS], [fragments] and [fragmentkeys]. *)
Record batchstate : Type := BatchState {
  bs_params : PARAMS;
  bs_fragments : gmap fragment value;
  bs_fragmentkeys : list fragment;
}.

(** One turn of [for filename in filenames[1:]] in [batch], up to the
    opening of the output file: the state, the counts and the name of the
    file.  [trees1] and [sents1] are the locals read before the loop;
    [extractfragments] is called without [complement], which is off. *)
Definition batch_prepare (trees1 : Ctrees) (sents1 : Sents)
    (outputdir first : string) (limit : option Z) (encoding : string)
    (st : batchstate) (filename : string)
    : result (batchstate * option (list value) * string) :=
  c ← loaded (bs_params st);
  let P := update_second (bs_params st) c
             (read2ndtreebank filename (labels c) (prods c)
                (fmt (bs_params st)) limit encoding) in
  c ← loaded P;
  let '(fragments, fragmentkeys) :=
    if complete P then (bs_fragments st, bs_fragmentkeys st)
    else
      let fragments :=
        extractfragments trees1 sents1 0 0 (labels c) (trees2 c) (sents2 c)
          (approx P) (disc P) false (debug P) (twoterms P) (adjacent P) in
      (fragments, keys fragments) in
  counts ←
    (if approx P || bool_decide (fragments = ∅)
     then Ok (Some (map_to_list fragments).*2)
     else if negb (nofreq P) then
       bitsets ← traverse (getitem fragments) fragmentkeys;
       Ok (Some (exactcounts trees1 (trees2 c) bitsets (indices P)))
     else Ok None);
  Ok (BatchState P fragments fragmentkeys, counts,
      outputdir +:+ "/" +:+ basename first +:+ "_" +:+ basename filename).

(** The loop of [batch]: the files opened for writing so far, each with
    the lines written to it, and the exception that ends the loop, if any.
    [printfragments] rewrites the list it is given in place when [--alt] is
    on, and [fragmentkeys] names the debinarized list when [debin] is. *)
Fixpoint batch_loop (trees1 : Ctrees) (sents1 : Sents)
    (outputdir first : string) (limit : option Z) (encoding : string)
    (debin : bool) (st : batchstate) (others : list string)
    (files : list (string * list string))
    : list (string * list string) * option exn :=
  match others with
  | [] => (files, None)
  | filename :: others =>
      match batch_prepare trees1 sents1 outputdir first limit encoding
              st filename with
      | Raise e => (files, Some e)
      | Ok (st, counts, outputfilename) =>
          let fragmentkeys :=
            if debin then debinarize (bs_fragmentkeys st)
            else bs_fragmentkeys st in
          let '(lines, raised) :=
            printfragments (bs_params st) fragmentkeys counts in
          let files := files ++ [(outputfilename, lines)] in
          match raised with
          | Some e => (files, Some e)
          | None =>
              let fragmentkeys :=
                match alt_fragments (bs_params st) fragmentkeys with
                | Ok fragmentkeys => fragmentkeys
                | Raise _ => fragmentkeys
                end in
              batch_loop trees1 sents1 outputdir first limit encoding debin
                (BatchState (bs_params st) (bs_fragments st) fragmentkeys)
                others files
          end
      end
  end.

(** [batch(outputdir, filenames, limit, encoding, debin)] *)
Definition batch (P : PARAMS) (outputdir : string) (filenames : list string)
    (limit : option Z) (encoding : string) (debin : bool)
    : list (string * list string) * option exn :=
  match
    first ← from_option Ok (Raise IndexError) (filenames !! 0%nat);
    P ← initworker P first None limit encoding;
    c ← loaded P;
    Ok (first, P, c)
  with
  | Raise e => ([], Some e)
  | Ok (first, P, c) =>
      let fragments :=
        if complete P
        then completebitsets (trees1 c) (sents1 c) (labels c)
               (ctrees_maxnodes (trees1 c)) (disc P)
        else ∅ in
      batch_loop (trees1 c) (sents1 c) outputdir first limit encoding debin
        (BatchState P fragments (keys fragments)) (drop 1 filenames) []
  end.

(** The names of the files that [batch] is to write. *)
Definition batch_names (outputdir : string) (filenames : list string)
    : list string :=
  (λ filename, outputdir +:+ "/" +:+ basename (default EmptyString
                                                  (filenames !! 0%nat))
               +:+ "_" +:+ basename filename) <$> drop 1 filenames.

End Batch.

(** * More of the small native layer *)

Section ToyMore.
#[local] Existing Instance toy_types.

(** The native layer in which a binarized tree is marked with a bar in
    front, which debinarization takes away. *)
Definition toy_marking : @Native toy_types :=
  @Build_Native toy_types
    (@ctrees_len _ toy) (@ctrees_maxnodes _ toy) (@ctrees_bool _ toy)
    (@readtreebanks _ toy) (@getctrees _ toy)
    (@extractfragments _ toy) (@exactcounts _ toy)
    (@allfragments _ toy) (@completebitsets _ toy)
    (@cpu_count _ toy) (@pseudotree _ toy)
    (* unbinarize *)
    (λ frag, match frag with
             | String "|" frag => Some frag
             | _ => None
             end)
    (@multiset_len _ toy) (@multiset_sorted _ toy) (@multiset_mem _ toy)
    (@multiset_total _ toy) (@altrepr _ toy)
    (@gnu_getopt _ toy) (@int_of_string _ toy) (@path_exists _ toy)
    (@repr_fragment _ toy) (@repr_string _ toy) (@format_exception _ toy).

(** One more treebank: the tree named by the file, once. *)
Definition toy_read2nd (filename : string) (labels prods : unit)
    (fmt : string) (limit : option Z) (encoding : string)
    : list string * list (list string) * unit * unit :=
  ([filename], [], tt, tt).

(** [PARAMS] with a treebank of three trees loaded. *)
Definition toy_loaded : @PARAMS toy_types :=
  update_corpora toy_params (toy_ctrees ["a"; "a"; "b"] [] false None None).

(** [PARAMS] for relative frequencies, for approximate counts, and for
    relative frequencies of discontinuous fragments. *)
Definition toy_relfreq : @PARAMS toy_types :=
  {| approx := false; indices := false; nofreq := false; complete := false;
     complement := false; alt := false; relfreq := true; twoterms := false;
     adjacent := false; debin := false; debug := false; quiet := false;
     help := false; disc := false; fmt := "bracket"; cover := None;
     corp := None |}.

Definition toy_approx : @PARAMS toy_types :=
  {| approx := true; indices := false; nofreq := false; complete := false;
     complement := false; alt := false; relfreq := false; twoterms := false;
     adjacent := false; debin := false; debug := false; quiet := false;
     help := false; disc := false; fmt := "bracket"; cover := None;
     corp := None |}.

Definition toy_disc_relfreq : @PARAMS toy_types :=
  {| approx := false; indices := false; nofreq := false; complete := false;
     complement := false; alt := false; relfreq := true; twoterms := false;
     adjacent := false; debin := false; debug := false; quiet := false;
     help := false; disc := true; fmt := "export"; cover := None;
     corp := None |}.

(** [PARAMS] of the pure recurring mode for discontinuous fragments. *)
Definition toy_disc : @PARAMS toy_types :=
  {| approx := false; indices := false; nofreq := false; complete := false;
     complement := false; alt := false; relfreq := false; twoterms := false;
     adjacent := false; debin := false; debug := false; quiet := false;
     help := false; disc := true; fmt := "export"; cover := None;
     corp := None |}.

(** A treebank in which [(S x)] and [(S y)] stand twice and [(S] once. *)
Definition toy_treebank : list string :=
  ["(S x)"; "(S x)"; "(S y)"; "(S y)"; "(S"].

(** The state in which the loop of [batch] starts in complete-match mode
    for a first treebank that holds the marked tree [|A]. *)
Definition toy_batchstate : @batchstate toy_types :=
  {| bs_params :=
       update_corpora toy_complete
         (toy_read "|A" None "bracket" None "utf8");
     bs_fragments := toy_all ["|A"; "|A"] false;
     bs_fragmentkeys := keys (toy_all ["|A"; "|A"] false) |}.

End ToyMore.

(** * Properties *)

Section Facts.
Context `{NT : NativeTypes} `{N : !Native} `{FL : Floats}.

(** ** The work-load planner *)

Lemma tiles_app lo mid hi ivs1 ivs2 :
  tiles lo mid ivs1 → tiles mid hi ivs2 → tiles lo hi (ivs1 ++ ivs2).
Proof.
  revert lo. induction ivs1 as [|[a b] ivs1 IH]; simpl; intros lo.
  - by intros ->.
  - intros (-> & ? & ?) ?. eauto.
Qed.

Lemma tiles_le lo hi ivs : tiles lo hi ivs → lo ≤ hi.
Proof.
  revert lo. induction ivs as [|[a b] ivs IH]; simpl; intros lo.
  - lia.
  - intros (-> & ? & ?%IH). lia.
Qed.

Lemma covering_outside lo hi ivs i :
  tiles lo hi ivs → i < lo ∨ hi ≤ i → covering ivs i = 0%nat.
Proof.
  unfold covering. revert lo.
  induction ivs as [|[a b] ivs IH]; simpl; intros lo; [done|].
  intros (-> & Hab & Ht) Hi. pose proof (tiles_le _ _ _ Ht).
  rewrite filter_cons. simpl. case_decide; [lia|].
  apply (IH b); [done|lia].
Qed.

Lemma covering_inside lo hi ivs i :
  tiles lo hi ivs → lo ≤ i < hi → covering ivs i = 1%nat.
Proof.
  unfold covering. revert lo.
  induction ivs as [|[a b] ivs IH]; simpl; intros lo; [lia|].
  intros (-> & Hab & Ht) Hi.
  rewrite filter_cons. simpl. case_decide; simpl.
  - f_equal. apply (covering_outside b hi); [done|lia].
  - apply (IH b); [done|lia].
Qed.

Lemma consecutive_even n : 2 * (n * (n - 1) / 2) = n * (n - 1).
Proof.
  destruct (Z.Even_or_Odd n) as [[m ->]|[m ->]].
  - replace (2 * m * (2 * m - 1)) with ((m * (2 * m - 1)) * 2) by lia.
    rewrite Z.div_mul by lia. lia.
  - replace ((2 * m + 1) * (2 * m + 1 - 1)) with (((2 * m + 1) * m) * 2) by lia.
    rewrite Z.div_mul by lia. lia.
Qed.

Lemma foldlM_app {A B} (f : A → B → result A) (acc : A) (l1 l2 : list B) :
  foldlM f acc (l1 ++ l2) = acc' ← foldlM f acc l1; foldlM f acc' l2.
Proof.
  revert acc. induction l1 as [|x l1 IH]; intros acc; [done|].
  cbn [app foldlM]. destruct (f acc x) as [acc'|]; [|done]. apply IH.
Qed.

(** Whatever the floats do, the intervals that the loop of [workload] has
    appended after the turns [n = 1, ..., k] follow each other from 0 up
    to [last]. *)
Lemma workload_loop_tiles numtrees chunk togo0 goal0 (k : nat) togo goal
    result last :
  foldlM (workload_step numtrees chunk) (togo0, goal0, [], 0)
    (seqZ 1 (Z.of_nat k)) = Ok (togo, goal, result, last) →
  tiles 0 last result ∧ 0 ≤ last ≤ Z.of_nat k.
Proof.
  revert togo goal result last. induction k as [|k IH];
    intros togo goal result last.
  - simpl. intros [= <- <- <- <-]. simpl. lia.
  - rewrite seqZ_S, foldlM_app.
    destruct (foldlM _ _ (seqZ 1 (Z.of_nat k)))
      as [[[[togo1 goal1] result1] last1]|]; [|done].
    destruct (IH _ _ _ _ eq_refl) as [Ht Hl].
    cbn [mbind result_bind foldlM]. unfold workload_step.
    destruct (float_of _) as [x|]; [|done]. cbn [mbind result_bind].
    destruct (fle _ _); cbn [mbind result_bind foldlM];
      intros [= <- <- <- <-].
    + split; [|lia]. eapply tiles_app; [done|]. simpl. lia.
    + split; [done|lia].
Qed.

(** What [workload] returns, when it returns, is a tiling: no rounding of
    the floats can break it. *)
Lemma workload_returns_tiles numtrees mult numproc ivs :
  workload numtrees mult numproc = Ok ivs → 1 ≤ numtrees →
  tiles 0 numtrees ivs.
Proof.
  unfold workload. intros Hw Hn. case_decide.
  - injection Hw as <-. simpl. lia.
  - destruct (float_of numtrees) as [n|]; [|done]. cbn in Hw.
    destruct (float_of (numtrees - 1)) as [n1|]; [|done]. cbn in Hw.
    destruct (float_of (mult * numproc)) as [d|]; [|done]. cbn in Hw.
    destruct (ffloordiv _ _) as [q|]; [|done]. cbn in Hw.
    destruct (float_of 1) as [one|]; [|done]. cbn in Hw.
    unfold range in Hw.
    destruct (foldlM _ _ _) as [[[[togo goal] result] last]|] eqn:Hfold;
      [|done].
    rewrite <- (Z2Nat.id (numtrees - 1)) in Hfold by lia.
    apply workload_loop_tiles in Hfold as [Ht Hl]. cbn in Hw.
    injection Hw as <-. rewrite decide_True by lia.
    eapply tiles_app; [done|]. simpl. lia.
Qed.

Lemma workload_chunk_bound total d :
  0 < d → total < d * (total / d + 1).
Proof. intros. pose proof (Z.mul_succ_div_gt total d). lia. Qed.

Lemma float_of_exact (HL : FloatLaws) (z : Z) :
  Z.abs z ≤ 2 ^ 53 → ∃ x, float_of z = Ok x ∧ twice x = Some (2 * z).
Proof.
  intros Hz. destruct (of_int_exact z Hz) as (x & Hx & Ht).
  exists x. unfold float_of. by rewrite Hx.
Qed.

(** The invariant of the loop of [workload] after the turns
    [n = 1, ..., k], where the floats are exact: [togo] and [goal] stand
    for the integers of the computation, every cut costs one [chunk], and
    it is made only when the rows done have used up one more [chunk]. *)
Lemma workload_loop_exact (HL : FloatLaws) numtrees chunk total
    (chunkf togof goalf : float) (k : nat) :
  2 * total = numtrees * (numtrees - 1) →
  total + 1 ≤ 2 ^ 53 → numtrees ≤ 2 ^ 53 →
  1 ≤ chunk ≤ total + 1 →
  twice chunkf = Some (2 * chunk) →
  twice togof = Some (2 * total) →
  twice goalf = Some (2 * (total - chunk)) →
  Z.of_nat k ≤ numtrees - 1 →
  ∃ togof' goalf' result last togo,
    foldlM (workload_step numtrees chunkf) (togof, goalf, [], 0)
      (seqZ 1 (Z.of_nat k)) = Ok (togof', goalf', result, last)
    ∧ twice togof' = Some (2 * togo)
    ∧ twice goalf' = Some (2 * (total - (len result + 1) * chunk))
    ∧ tiles 0 last result
    ∧ 0 ≤ last ≤ Z.of_nat k
    ∧ 2 * togo = (numtrees - 1 - Z.of_nat k) * (numtrees - Z.of_nat k)
    ∧ len result * chunk ≤ total - togo
    ∧ ∀ (i : nat) a b, result !! i = Some (a, b) →
        0 ≤ b ≤ Z.of_nat k
        ∧ 2 * ((Z.of_nat i + 1) * chunk)
          ≤ numtrees * (numtrees - 1) - (numtrees - 1 - b) * (numtrees - b).
Proof.
  intros Htotal Hbound Hnum Hchunk Hchunkf Htogof Hgoalf.
  induction k as [|k IH]; intros Hk.
  - exists togof, goalf, [], 0, total. simpl. unfold len. simpl.
    rewrite Htogof, Hgoalf. split_and!; try done; try lia.
    f_equal; lia.
  - destruct IH as (togo1 & goal1 & result & last & togo & Hfold & Htogo1
                    & Hgoal1 & Ht & Hl & Htogo & Hlen & Hcuts); [lia|].
    rewrite seqZ_S, foldlM_app, Hfold. cbn [mbind result_bind foldlM].
    unfold workload_step.
    destruct (float_of_exact HL (numtrees - (1 + Z.of_nat k)) ltac:(lia))
      as (x & -> & Hx).
    cbn [mbind result_bind].
    assert (0 ≤ len result) as Hlen0 by (unfold len; lia).
    set (row := numtrees - (1 + Z.of_nat k)) in *.
    assert (2 * (togo - row)
            = (numtrees - 1 - (1 + Z.of_nat k))
              * (numtrees - (1 + Z.of_nat k))) as Hnew by (unfold row; lia).
    assert (0 ≤ togo - row) as Hpos by nia.
    assert (togo ≤ total) as Htop by nia.
    pose proof (sub_exact _ _ _ _ Htogo1 Hx ltac:(lia)) as Htogo2.
    rewrite (le_exact _ _ _ _ Htogo2 Hgoal1).
    set (G := total - (len result + 1) * chunk) in *.
    assert (G ≤ total) as HG by (unfold G; nia).
    case_bool_decide as Hcut.
    + pose proof (sub_exact _ _ _ _ Hgoal1 Hchunkf ltac:(lia)) as Hgoal2.
      eexists _, _, _, _, (togo - row). split; [done|].
      assert (len (result ++ [(last, 1 + Z.of_nat k)]) = len result + 1) as ->.
      { unfold len. rewrite length_app. simpl. lia. }
      split_and!.
      * rewrite Htogo2. f_equal; lia.
      * rewrite Hgoal2. unfold G. f_equal; lia.
      * eapply tiles_app; [done|]. simpl. lia.
      * lia.
      * lia.
      * rewrite Nat2Z.inj_succ. lia.
      * unfold G in *. lia.
      * intros i a b Hi. apply lookup_app_Some in Hi as [Hi|[Hge Hi]].
        -- destruct (Hcuts i a b Hi). split; [lia|done].
        -- apply list_lookup_singleton_Some in Hi as [Hi0 [= <- <-]].
           split; [lia|].
           assert (Z.of_nat i = len result) as -> by (unfold len; lia).
           fold row. unfold G in *. rewrite <- Htotal. lia.
    + eexists _, _, _, _, (togo - row). split; [done|].
      split_and!.
      * rewrite Htogo2. f_equal; lia.
      * done.
      * done.
      * lia.
      * lia.
      * rewrite Nat2Z.inj_succ. lia.
      * lia.
      * intros i a b Hi. destruct (Hcuts i a b Hi). split; [lia|done].
Qed.

(** [total], [chunk] and the first [goal] of [workload] where the floats
    are exact. *)
Lemma workload_setup_exact (HL : FloatLaws) (numtrees d total chunk : Z) :
  2 * total = numtrees * (numtrees - 1) → chunk = total / d + 1 →
  Z.abs numtrees ≤ 2 ^ 53 → Z.abs (numtrees - 1) ≤ 2 ^ 53 →
  total ≤ 2 ^ 53 → Z.abs d ≤ 2 ^ 53 → d ≠ 0 →
  Z.abs chunk ≤ 2 ^ 53 → Z.abs (total - chunk) ≤ 2 ^ 53 →
  ∃ n n1 df q one,
    float_of numtrees = Ok n ∧ float_of (numtrees - 1) = Ok n1
    ∧ float_of d = Ok df
    ∧ ffloordiv (fmul (fmul half n) n1) df = Some q
    ∧ float_of 1 = Ok one
    ∧ twice (fmul (fmul half n) n1) = Some (2 * total)
    ∧ twice (fadd q one) = Some (2 * chunk)
    ∧ twice (fsub (fmul (fmul half n) n1) (fadd q one))
      = Some (2 * (total - chunk)).
Proof.
  intros Htotal -> Hn Hn1 Hbound Hd Hd0 Hchunk Hgoal.
  assert (0 ≤ total) as Hpos by nia.
  destruct (float_of_exact HL numtrees Hn) as (n & Hfn & Htn).
  destruct (float_of_exact HL (numtrees - 1) Hn1) as (n1 & Hfn1 & Htn1).
  destruct (float_of_exact HL d Hd) as (df & Hfd & Htd).
  destruct (float_of_exact HL 1 ltac:(lia)) as (one & Hfone & Htone).
  pose proof (mul_exact half n 1 (2 * numtrees) numtrees half_exact Htn
                ltac:(lia) ltac:(left; lia)) as Hhalf.
  assert (twice (fmul (fmul half n) n1) = Some (2 * total)) as Htot.
  { apply (mul_exact _ _ numtrees (2 * (numtrees - 1))); [done|done|lia|].
    right. split; [by rewrite Z.even_mul|lia]. }
  destruct (floordiv_exact _ _ total d Htot Htd ltac:(lia) Hd Hd0)
    as (q & Hq & Htq).
  pose proof (add_exact q one (total / d) 1 Htq Htone Hchunk) as Hch.
  pose proof (sub_exact _ _ total (total / d + 1) Htot Hch Hgoal) as Hg.
  exists n, n1, df, q, one. by split_and!.
Qed.

(** [workload] in the range in which its floats are exact, for more than
    one process. *)
Lemma workload_exact_shape (HL : FloatLaws) (numtrees mult numproc : Z) :
  1 ≤ numtrees → numproc ≠ 1 → 1 ≤ mult * numproc ≤ 2 ^ 53 →
  numtrees * (numtrees - 1) < 2 ^ 54 →
  let total := numtrees * (numtrees - 1) / 2 in
  let chunk := total / (mult * numproc) + 1 in
  ∃ result last togo,
    workload numtrees mult numproc = Ok (result ++ [(last, numtrees)])
    ∧ tiles 0 last result
    ∧ 0 ≤ last < numtrees
    ∧ 0 ≤ togo
    ∧ len result * chunk ≤ total - togo
    ∧ ∀ (i : nat) a b, result !! i = Some (a, b) →
        0 ≤ b < numtrees
        ∧ 2 * ((Z.of_nat i + 1) * chunk)
          ≤ numtrees * (numtrees - 1) - (numtrees - 1 - b) * (numtrees - b).
Proof.
  intros Hn Hp Hd Hrange total chunk.
  pose proof (consecutive_even numtrees) as Htotal. fold total in Htotal.
  assert (0 ≤ total) as Hpos by nia.
  assert (total + 1 ≤ 2 ^ 53) as Hbound by lia.
  assert (numtrees ≤ 2 ^ 53) as Hnum by nia.
  assert (1 ≤ chunk ≤ total + 1) as Hchunk.
  { unfold chunk. pose proof (Z.div_pos total (mult * numproc)).
    pose proof (Z.div_le_upper_bound total (mult * numproc) total). nia. }
  destruct (workload_setup_exact HL numtrees (mult * numproc) total chunk)
    as (n & n1 & df & q & one & Hfn & Hfn1 & Hfd & Hq & Hfone & Htot & Hch
        & Hg); try done; try lia.
  destruct (workload_loop_exact HL numtrees chunk total _ _ _
              (Z.to_nat (numtrees - 1)) Htotal Hbound Hnum Hchunk Hch Htot Hg)
    as (togof & goalf & result & last & togo & Hfold & _ & _ & Ht & Hl
        & Htogo & Hlen & Hcuts); [lia|].
  rewrite Z2Nat.id in * by lia.
  exists result, last, togo. unfold workload. rewrite decide_False by done.
  rewrite Hfn. cbn [mbind result_bind]. rewrite Hfn1. cbn [mbind result_bind].
  rewrite Hfd. cbn [mbind result_bind]. rewrite Hq. cbn [from_option mbind result_bind].
  rewrite Hfone. cbn [mbind result_bind]. unfold range.
  rewrite Hfold. cbn [mbind result_bind]. rewrite decide_True by lia.
  split_and!; try done; try lia; try nia.
  intros i a b Hi. destruct (Hcuts i a b Hi). split; [lia|done].
Qed.

(** Converting an integer: it converts below the limit and raises from
    the limit on. *)
Lemma float_of_finite (HL : FloatLaws) (z : Z) :
  Z.abs z < 2 ^ 1024 - 2 ^ 970 → ∃ x, float_of z = Ok x.
Proof.
  intros Hz. destruct (of_int_finite z Hz) as [x Hx].
  exists x. unfold float_of. by rewrite Hx.
Qed.

Lemma float_of_overflow (HL : FloatLaws) (z : Z) :
  2 ^ 1024 - 2 ^ 970 ≤ Z.abs z → float_of z = Raise OverflowError.
Proof. intros Hz. unfold float_of. by rewrite (of_int_overflow z Hz). Qed.

(** The loop of [workload] raises only when a conversion does. *)
Lemma workload_loop_returns (HL : FloatLaws) numtrees chunk
    (st : float * float * list (Z * Z) * Z) (l : list Z) :
  Forall (λ n, Z.abs (numtrees - n) < 2 ^ 1024 - 2 ^ 970) l →
  ∃ st', foldlM (workload_step numtrees chunk) st l = Ok st'.
Proof.
  revert st. induction l as [|n l IH]; intros st Hl.
  - by exists st.
  - apply Forall_cons in Hl as [Hn Hl]. cbn [foldlM].
    destruct st as [[[togo goal] result] last]. unfold workload_step.
    destruct (float_of_finite HL _ Hn) as [x ->]. cbn [mbind result_bind].
    destruct (fle _ _); cbn [mbind result_bind]; apply IH, Hl.
Qed.

(** What [workload] does with more than one process: it raises
    [OverflowError] when [numtrees], [numtrees - 1] or [mult * numproc] is
    no float, [ZeroDivisionError] when [mult * numproc] is zero, and it
    returns otherwise. *)
Lemma workload_outcome (HL : FloatLaws) (numtrees mult numproc : Z) :
  numproc ≠ 1 →
  (2 ^ 1024 - 2 ^ 970 ≤ Z.abs numtrees
   ∨ 2 ^ 1024 - 2 ^ 970 ≤ Z.abs (numtrees - 1)
   ∨ 2 ^ 1024 - 2 ^ 970 ≤ Z.abs (mult * numproc) →
   workload numtrees mult numproc = Raise OverflowError)
  ∧ (Z.abs numtrees < 2 ^ 1024 - 2 ^ 970 →
     Z.abs (numtrees - 1) < 2 ^ 1024 - 2 ^ 970 →
     mult * numproc = 0 →
     workload numtrees mult numproc = Raise ZeroDivisionError)
  ∧ (Z.abs numtrees < 2 ^ 1024 - 2 ^ 970 →
     Z.abs (numtrees - 1) < 2 ^ 1024 - 2 ^ 970 →
     Z.abs (mult * numproc) < 2 ^ 1024 - 2 ^ 970 →
     mult * numproc ≠ 0 →
     ∃ ivs, workload numtrees mult numproc = Ok ivs).
Proof.
  intros Hp. unfold workload. rewrite decide_False by done. split_and!.
  - intros Hbig.
    destruct (decide (2 ^ 1024 - 2 ^ 970 ≤ Z.abs numtrees)) as [Hn|Hn].
    { by rewrite (float_of_overflow HL _ Hn). }
    destruct (float_of_finite HL numtrees ltac:(lia)) as [n ->].
    cbn [mbind result_bind].
    destruct (decide (2 ^ 1024 - 2 ^ 970 ≤ Z.abs (numtrees - 1))) as [Hn1|Hn1].
    { by rewrite (float_of_overflow HL _ Hn1). }
    destruct (float_of_finite HL (numtrees - 1) ltac:(lia)) as [n1 ->].
    cbn [mbind result_bind].
    destruct Hbig as [?|[?|Hd]]; [lia|lia|].
    by rewrite (float_of_overflow HL _ Hd).
  - intros Hn Hn1 Hd.
    destruct (float_of_finite HL numtrees Hn) as [n ->].
    cbn [mbind result_bind].
    destruct (float_of_finite HL (numtrees - 1) Hn1) as [n1 ->].
    cbn [mbind result_bind]. rewrite Hd.
    destruct (float_of_exact HL 0 ltac:(lia)) as (d & -> & Hd0).
    cbn [mbind result_bind]. by rewrite (floordiv_zero _ d Hd0).
  - intros Hn Hn1 Hd Hd0.
    destruct (float_of_finite HL numtrees Hn) as [n ->].
    cbn [mbind result_bind].
    destruct (float_of_finite HL (numtrees - 1) Hn1) as [n1 ->].
    cbn [mbind result_bind].
    destruct (float_of_finite HL (mult * numproc) Hd) as [d Hfd].
    rewrite Hfd. cbn [mbind result_bind].
    assert (twice d ≠ Some 0) as Hnz.
    { apply (of_int_nonzero (mult * numproc)); [|done].
      unfold float_of in Hfd. by destruct (float_of_int _); simplify_eq. }
    destruct (floordiv_defined (fmul (fmul half n) n1) d Hnz) as [q ->].
    cbn [from_option mbind result_bind].
    destruct (float_of_exact HL 1 ltac:(lia)) as (one & -> & _).
    cbn [mbind result_bind].
    edestruct (workload_loop_returns HL numtrees (fadd q one))
      as [[[[togo goal] result] last] ->]; [|by eexists].
    apply Forall_forall. intros k Hk. unfold range in Hk.
    apply elem_of_seqZ in Hk. lia.
Qed.

(** The number of intervals where the floats are exact. *)
Lemma workload_exact_count (HL : FloatLaws) (numtrees mult numproc : Z) ivs :
  1 ≤ numtrees → 1 ≤ mult → 1 ≤ numproc →
  numproc = 1
  ∨ (numtrees * (numtrees - 1) < 2 ^ 54 ∧ mult * numproc ≤ 2 ^ 53) →
  workload numtrees mult numproc = Ok ivs →
  len ivs ≤ mult * numproc.
Proof.
  intros Hn Hm Hp Hrange Hw. destruct (decide (numproc = 1)) as [->|Hp1].
  - unfold workload in Hw. simpl in Hw. injection Hw as <-.
    unfold len. simpl. lia.
  - destruct Hrange as [?|[Hrange Hd]]; [done|].
    destruct (workload_exact_shape HL numtrees mult numproc)
      as (result & last & togo & Hw' & _ & _ & Htogo & Hlen & _);
      [lia|done|nia|done|].
    rewrite Hw in Hw'. injection Hw' as ->.
    set (total := numtrees * (numtrees - 1) / 2) in *.
    set (chunk := total / (mult * numproc) + 1) in *.
    assert (0 < mult * numproc) as Hmp by nia.
    assert (total < mult * numproc * chunk) as Hchunk
      by by apply workload_chunk_bound.
    assert (0 ≤ total).
    { pose proof (consecutive_even numtrees) as Hev. fold total in Hev.
      nia. }
    assert (1 ≤ chunk).
    { unfold chunk. pose proof (Z.div_pos total (mult * numproc)). lia. }
    assert (len result < mult * numproc).
    { destruct (decide (len result < mult * numproc)); [done|].
      assert (mult * numproc * chunk ≤ len result * chunk)
        by (apply Z.mul_le_mono_nonneg_r; lia).
      lia. }
    unfold len in *. rewrite length_app. simpl. lia.
Qed.

(** There are no more intervals than indices. *)
Lemma tiles_length lo hi ivs : tiles lo hi ivs → len ivs ≤ hi - lo.
Proof.
  revert lo. induction ivs as [|[a b] ivs IH]; intros lo; simpl.
  - intros ->. unfold len. simpl. lia.
  - intros (-> & Hab & Ht%IH). unfold len in *. simpl. lia.
Qed.

(** C1, amended: for [numtrees > 1], [mult >= 1] and [numproc >= 1],
    [workload] returns for one process, and for more than one as long as
    [numtrees] and [mult * numproc] are floats (below [2^1024 - 2^970]);
    from there on it raises [OverflowError].  Whenever it returns, it
    returns an ordered list of non-empty half-open intervals that starts at
    0, ends at [numtrees] and in which each interval starts where the
    previous one ends, so that every index of [[0, numtrees)] lies in
    exactly one interval and no other index lies in any; for [numproc = 1]
    the list is [[(0, numtrees)]]; and it has at most [numproc * mult + 1]
    intervals for one process, for at most [numproc * mult + 1] trees, and
    where the floats of [workload] are exact
    ([numtrees * (numtrees - 1) < 2^54] and [mult * numproc <= 2^53]). *)
Theorem workload_partitions (HL : FloatLaws) (numtrees mult numproc : Z) :
  1 < numtrees → 1 ≤ mult → 1 ≤ numproc →
  (numproc = 1
   ∨ (numtrees < 2 ^ 1024 - 2 ^ 970 ∧ mult * numproc < 2 ^ 1024 - 2 ^ 970) →
   ∃ ivs, workload numtrees mult numproc = Ok ivs)
  ∧ (numproc ≠ 1 →
     2 ^ 1024 - 2 ^ 970 ≤ numtrees ∨ 2 ^ 1024 - 2 ^ 970 ≤ mult * numproc →
     workload numtrees mult numproc = Raise OverflowError)
  ∧ ∀ ivs, workload numtrees mult numproc = Ok ivs →
      tiles 0 numtrees ivs
      ∧ (∀ i, covering ivs i
              = if decide (0 ≤ i < numtrees) then 1%nat else 0%nat)
      ∧ (numproc = 1 → ivs = [(0, numtrees)])
      ∧ (numproc = 1
         ∨ numtrees ≤ numproc * mult + 1
         ∨ (numtrees * (numtrees - 1) < 2 ^ 54 ∧ mult * numproc ≤ 2 ^ 53) →
         len ivs ≤ numproc * mult + 1).
Proof.
  intros Hn Hm Hp. split_and!.
  - intros [->|[Hnt Hd]].
    + exists [(0, numtrees)]. by unfold workload.
    + destruct (decide (numproc = 1)) as [->|Hp1].
      * exists [(0, numtrees)]. by unfold workload.
      * destruct (workload_outcome HL numtrees mult numproc Hp1)
          as (_ & _ & Hret). apply Hret; nia.
  - intros Hp1 Hbig.
    destruct (workload_outcome HL numtrees mult numproc Hp1) as (Hov & _).
    apply Hov. lia.
  - intros ivs Hw.
    pose proof (workload_returns_tiles _ _ _ _ Hw ltac:(lia)) as Ht.
    split_and!.
    + done.
    + intros i. case_decide.
      * by eapply covering_inside.
      * eapply covering_outside; [done|lia].
    + intros ->. unfold workload in Hw. simpl in Hw. by injection Hw as <-.
    + intros Hrange.
      destruct (decide (numtrees ≤ numproc * mult + 1)) as [Hfew|Hmany].
      * pose proof (tiles_length _ _ _ Ht). lia.
      * pose proof (workload_exact_count HL numtrees mult numproc ivs
                      ltac:(lia) Hm Hp ltac:(tauto) Hw). nia.
Qed.


(** ** Merging the results of the workers *)

Lemma dict_update_nodup `{Countable K} {V} (d : gmap K V) (l : list (K * V)) :
  NoDup l.*1 → dict_update d l = list_to_map l ∪ d.
Proof.
  unfold dict_update. revert d.
  induction l as [|[k v] l IH]; intros d Hnd; csimpl.
  - by rewrite (left_id_L ∅ (∪)).
  - apply NoDup_cons in Hnd as [Hk Hnd]. rewrite IH by done.
    rewrite <-insert_union_l. symmetry. apply insert_union_r.
    by apply not_elem_of_list_to_map_1.
Qed.

Lemma merge_exact_union (fragments results : gmap fragment value) :
  merge_exact fragments results = results ∪ fragments.
Proof.
  unfold merge_exact. rewrite dict_update_nodup.
  - by rewrite list_to_map_to_list.
  - apply NoDup_fst_map_to_list.
Qed.

Lemma ints_insert (m : gmap fragment value) k n :
  ints m → ints (<[k := VInt n]> m).
Proof.
  intros Hm k' v. rewrite lookup_insert. case_decide; [|by apply Hm].
  intros [= <-]. eauto.
Qed.

(** The loop of [merge_approx] over a list of pairs with distinct keys. *)
Lemma merge_approx_pairs (l : list (fragment * value))
    (acc : gmap fragment value) :
  NoDup l.*1 → ints acc → ints (list_to_map l) →
  ∃ m : gmap fragment value,
    foldlM (λ fragments '(frag, x),
              v ← value_add (default (VInt 0) (fragments !! frag)) x;
              Ok (<[frag := v]> fragments)) acc l = Ok m
    ∧ ints m
    ∧ dom m = dom acc ∪ dom (list_to_map l : gmap fragment value)
    ∧ ∀ k, freq_of (m !! k)
           = freq_of (acc !! k)
             + freq_of ((list_to_map l : gmap fragment value) !! k).
Proof.
  revert acc. induction l as [|[k0 v0] l IH]; intros acc Hnd Hacc Hl.
  - exists acc. simpl. split_and!; try done.
    + set_solver.
    + intros k. rewrite lookup_empty. simpl. lia.
  - csimpl in Hnd. apply NoDup_cons in Hnd as [Hk0 Hnd]. csimpl in Hl.
    destruct (Hl k0 v0) as [x0 ->]; [by rewrite lookup_insert_eq|].
    assert (ints (list_to_map l)) as Hl'.
    { intros k v Hkv. apply (Hl k v).
      rewrite lookup_insert_ne; [done|]. intros <-.
      apply not_elem_of_list_to_map_1 in Hk0. congruence. }
    assert (∃ a0, default (VInt 0) (acc !! k0) = VInt a0
                  ∧ a0 = freq_of (acc !! k0)) as (a0 & Ha0 & Hfa0).
    { destruct (acc !! k0) as [v|] eqn:E; simpl.
      - destruct (Hacc _ _ E) as [n ->]. eauto.
      - eauto. }
    simpl. rewrite Ha0. simpl.
    destruct (IH (<[k0 := VInt (a0 + x0)]> acc)) as (m & Hm & Hints & Hdom & Hsum);
      [done|by apply ints_insert|done|].
    exists m. split_and!; [done|done| |].
    + rewrite Hdom, !dom_insert_L. set_solver.
    + intros k. rewrite Hsum. rewrite !lookup_insert.
      apply not_elem_of_list_to_map_1 in Hk0.
      repeat case_decide; subst; simpl; try congruence; try lia.
      rewrite Hk0. simpl. lia.
Qed.

Lemma merge_approx_sum (fragments results : gmap fragment value) :
  ints fragments → ints results →
  ∃ m, merge_approx fragments results = Ok m
       ∧ ints m
       ∧ dom m = dom fragments ∪ dom results
       ∧ ∀ k, freq_of (m !! k)
              = freq_of (fragments !! k) + freq_of (results !! k).
Proof.
  intros Hf Hr. unfold merge_approx.
  destruct (merge_approx_pairs (map_to_list results) fragments)
    as (m & Hm & Hints & Hdom & Hsum).
  - apply NoDup_fst_map_to_list.
  - done.
  - by rewrite list_to_map_to_list.
  - rewrite list_to_map_to_list in *. eauto.
Qed.

Lemma merge_approx_parts (parts : list (gmap fragment value))
    (acc : gmap fragment value) :
  ints acc → Forall ints parts →
  ∃ m, foldlM merge_approx acc parts = Ok m
       ∧ ints m
       ∧ ∀ k, freq_of (m !! k) = freq_of (acc !! k) + partial_sum parts k.
Proof.
  revert acc. induction parts as [|r parts IH]; intros acc Hacc Hparts.
  - exists acc. simpl. split_and!; [done..|]. intros k. lia.
  - apply Forall_cons in Hparts as [Hr Hparts].
    destruct (merge_approx_sum acc r) as (m1 & Hm1 & Hi1 & _ & Hs1);
      [done..|].
    destruct (IH m1) as (m & Hm & Hi & Hs); [done..|].
    exists m. simpl. rewrite Hm1. simpl. split_and!; [done..|].
    intros k. rewrite Hs, Hs1. lia.
Qed.

(** C2: in approximate mode the merged value of a key is the sum of the
    values that the accumulated map and the partial map give for it (a key
    absent from a map counting as 0), and so the merge of several partial
    maps gives each key the sum of its partial values; in exact mode the
    merge is the dictionary update, in which the value of the partial map
    wins, so that merging a map whose keys already have the same values in
    the accumulated map, in particular the accumulated map itself, changes
    nothing. *)
Theorem merge_sums_or_updates (P : PARAMS)
    (fragments results : gmap fragment value) :
  (approx P = true → ints fragments → ints results →
   ∃ m, merge P fragments results = Ok m
        ∧ ints m
        ∧ dom m = dom fragments ∪ dom results
        ∧ ∀ k, freq_of (m !! k)
               = freq_of (fragments !! k) + freq_of (results !! k))
  ∧ (∀ parts, Forall ints parts →
     ∃ m, foldlM merge_approx ∅ parts = Ok m
          ∧ ∀ k, freq_of (m !! k) = partial_sum parts k)
  ∧ (approx P = false →
     ∃ m, merge P fragments results = Ok m
          ∧ m = merge_exact fragments results
          ∧ (∀ k, m !! k = match results !! k with
                           | Some v => Some v
                           | None => fragments !! k
                           end)
          ∧ ((∀ k v, results !! k = Some v → fragments !! k = Some v) →
             m = fragments))
  ∧ merge_exact fragments fragments = fragments.
Proof.
  split_and!.
  - intros Ha Hf Hr. unfold merge. rewrite Ha. by apply merge_approx_sum.
  - intros parts Hparts.
    destruct (merge_approx_parts parts ∅) as (m & Hm & _ & Hs); [|done|].
    { intros k v. by rewrite lookup_empty. }
    exists m. split; [done|]. intros k. rewrite Hs, lookup_empty. simpl. lia.
  - intros Ha. unfold merge. rewrite Ha. eexists. split; [done|].
    split; [done|]. rewrite !merge_exact_union. split.
    + intros k. rewrite lookup_union.
      destruct (results !! k), (fragments !! k); done.
    + intros Hsub. apply map_eq. intros k. rewrite lookup_union.
      destruct (results !! k) as [v|] eqn:E.
      * rewrite (Hsub _ _ E). done.
      * by destruct (fragments !! k).
  - rewrite merge_exact_union. apply map_eq. intros k.
    rewrite lookup_union. by destruct (fragments !! k).
Qed.

(** ** The exact counting phase *)

Lemma concat_chunks {A} (l : list A) (c q : nat) :
  concat ((λ i, take c (drop (i * c) l)) <$> seq 0 q) = take (q * c) l.
Proof.
  induction q as [|q IH]; [done|].
  rewrite seq_S, fmap_app, concat_app, IH. simpl.
  rewrite app_nil_r, take_take_drop. f_equal. lia.
Qed.

(** The number of chunks of size [c] needed for [n] elements. *)
Lemma ceil_div_bounds (n c : Z) :
  0 < c → n ≤ c * - (- n / c) < n + c.
Proof.
  intros Hc. pose proof (Z.div_mod (- n) c ltac:(lia)).
  pose proof (Z.mod_pos_bound (- n) c Hc). lia.
Qed.

(** The work list of the counting phase, chunk by chunk. *)
Lemma countwork_chunks (bitsets : list value) (countchunk : Z) :
  0 < countchunk →
  let c := Z.to_nat countchunk in
  let q := Z.to_nat (- (- len bitsets / countchunk)) in
  countwork bitsets countchunk
  = Ok ((λ i, (Z.of_nat i, Z.of_nat q, take c (drop (i * c) bitsets)))
        <$> seq 0 q).
Proof.
  intros Hc c q. unfold countwork, range_step.
  rewrite decide_False by lia. simpl. f_equal.
  unfold seqZ. fold q. apply list_eq. intros j.
  rewrite list_lookup_imap, !list_lookup_fmap.
  unfold len. rewrite !length_fmap, length_seq.
  destruct (seq 0 q !! j) as [i|] eqn:Hj; simpl; [|done].
  apply lookup_seq in Hj as [-> Hj]. simpl.
  do 2 f_equal. unfold slice. subst c. f_equal.
  - f_equal. lia.
  - f_equal. rewrite Z.add_0_r, Z2Nat.inj_mul, Nat2Z.id by lia. done.
Qed.

(** C6, amended: for [numproc >= 1] the counting phase cuts the list of
    values into at most [numproc] contiguous chunks of
    [len(bitsets) // numproc + 1] values each, the last one possibly
    shorter, none empty; the chunks in order make up the list again; and
    when the counting routine gives each value its own count, the counts
    collected chunk by chunk are the counts of the values in their order,
    so that the i-th count belongs to the i-th key. *)
Theorem exact_counting_chunks (P : PARAMS) (bitsets : list value)
    (numproc : Z) :
  1 ≤ numproc →
  ∃ countchunk work,
    countchunk_of bitsets numproc = Ok countchunk
    ∧ countchunk = len bitsets / numproc + 1
    ∧ countwork bitsets countchunk = Ok work
    ∧ len work ≤ numproc
    ∧ concat (work.*2) = bitsets
    ∧ (∀ i n m chunk, work !! i = Some (n, m, chunk) →
         n = Z.of_nat i ∧ m = len work
         ∧ chunk = slice bitsets (Z.of_nat i * countchunk)
                     (Z.of_nat i * countchunk + countchunk)
         ∧ 0 < len chunk ≤ countchunk
         ∧ (Z.of_nat i + 1 < len work → len chunk = countchunk))
    ∧ (∀ c f, loaded P = Ok c →
         (∀ chunk,
            exactcounts (trees1 c)
              (if complete P then trees2 c else Some (trees1 c))
              chunk (indices P) = f <$> chunk) →
         exactcounting P bitsets numproc = Ok (f <$> bitsets)).
Proof.
  intros Hp.
  set (cc := len bitsets / numproc + 1).
  assert (0 ≤ len bitsets) as Hlen0 by (unfold len; lia).
  assert (1 ≤ cc) as Hcc.
  { unfold cc. pose proof (Z.div_pos (len bitsets) numproc). lia. }
  assert (len bitsets < numproc * cc) as Hbound
    by (apply workload_chunk_bound; lia).
  pose proof (ceil_div_bounds (len bitsets) cc ltac:(lia)) as Hq.
  set (Q := - (- len bitsets / cc)) in *.
  assert (0 ≤ Q) as HQ0 by nia.
  assert (Q ≤ numproc) as HQ.
  { destruct (decide (Q ≤ numproc)); [done|].
    assert (cc * (numproc + 1) ≤ cc * Q) by (apply Z.mul_le_mono_nonneg_l; lia).
    lia. }
  pose proof (countwork_chunks bitsets cc ltac:(lia)) as Hwork.
  simpl in Hwork. fold Q in Hwork.
  set (c := Z.to_nat cc) in *. set (q := Z.to_nat Q) in *.
  assert (length bitsets ≤ q * c)%nat as Hcover.
  { unfold len in *. subst q c. nia. }
  eexists cc, _. unfold countchunk_of. rewrite decide_False by lia.
  split_and!; [done|done|exact Hwork| | | |].
  - unfold len. rewrite length_fmap, length_seq. lia.
  - rewrite <-list_fmap_compose.
    transitivity (take (q * c) bitsets); [|by apply take_ge].
    by rewrite <-concat_chunks.
  - intros i n m chunk. rewrite list_lookup_fmap.
    destruct (seq 0 q !! i) as [i'|] eqn:Hi; simpl; [|done].
    apply lookup_seq in Hi as [-> Hi]. simpl. intros [= <- <- <-].
    unfold len. rewrite length_fmap, length_seq.
    rewrite length_take, length_drop. unfold slice.
    split_and!; try done; try lia.
    + f_equal; [f_equal; lia|]. f_equal. subst c. nia.
    + unfold len in *. subst q c. nia.
    + unfold len in *. subst q c. nia.
  - intros co f Hco Hf. unfold exactcounting, countchunk_of.
    rewrite decide_False by lia. simpl. fold cc. rewrite Hwork. simpl.
    unfold collectcounts.
    assert (∀ work : list (Z * Z * list value),
              traverse (exactcountworker P) work
              = Ok ((λ w, f <$> w.2) <$> work)) as ->.
    { induction work as [|[[n m] chunk] work IH]; [done|].
      cbn [traverse]. rewrite IH. unfold exactcountworker. rewrite Hco.
      specialize (Hf chunk). simpl. destruct (complete P); rewrite Hf; done. }
    simpl. f_equal. rewrite <-list_fmap_compose.
    transitivity (f <$> take (q * c) bitsets); [|by rewrite take_ge].
    rewrite <-concat_chunks.
    change (fmap f (concat ?l)) with (map f (concat l)).
    rewrite concat_map.
    change (map (map f)) with (fmap (M:=list) (fmap (M:=list) f)).
    by rewrite <-list_fmap_compose.
Qed.

(** ** Merging the cover fragments *)

(** The loop of the cover merge appends the cover entries whose key is not
    in [fragments], in their order. *)
Lemma cover_loop (fragments : gmap fragment value)
    (l : list (fragment * value)) fragmentkeys counts :
  foldl (cover_step fragments) (fragmentkeys, counts) l
  = (fragmentkeys ++ (filter (λ av, av.1 ∉ dom fragments) l).*1,
     counts ++ (filter (λ av, av.1 ∉ dom fragments) l).*2).
Proof.
  revert fragmentkeys counts.
  induction l as [|[a v] l IH]; intros fragmentkeys counts; cbn [foldl].
  - by rewrite filter_nil, !app_nil_r.
  - rewrite filter_cons. cbn [fst].
    assert (cover_step fragments (fragmentkeys, counts) (a, v)
            = if decide (a ∈ dom fragments) then (fragmentkeys, counts)
              else (fragmentkeys ++ [a], counts ++ [v])) as -> by done.
    destruct (decide (a ∈ dom fragments)) as [Hin|Hout].
    + rewrite decide_False by (intros Hn; by apply Hn). apply IH.
    + rewrite decide_True by done. rewrite IH. csimpl.
      by rewrite <-!app_assoc.
Qed.

Lemma keys_zip `{Countable K} {V} (d : gmap K V) (counts : list V) :
  length counts = length (keys d) →
  NoDup (zip (keys d) counts).*1 ∧ (zip (keys d) counts).*1 = keys d.
Proof.
  intros Hlen. rewrite fst_zip by lia. split; [|done].
  apply NoDup_fst_map_to_list.
Qed.


(** ** [debinarize] *)

(** What [debinarize] puts in the place of one fragment. *)
Lemma debinarize_loop (result fragments : list fragment) :
  foldl (λ result origfrag,
           let '(frag, sent) := origfrag in
           match unbinarize frag with
           | None => result ++ [origfrag]
           | Some frag => result ++ [(frag, sent)]
           end) result fragments
  = result ++ ((λ origfrag : fragment,
                  match unbinarize origfrag.1 with
                  | None => origfrag
                  | Some frag => (frag, origfrag.2)
                  end) <$> fragments).
Proof.
  revert result. induction fragments as [|[frag sent] fragments IH];
    intros result; csimpl.
  - by rewrite app_nil_r.
  - rewrite IH. destruct (unbinarize frag); by rewrite <-app_assoc.
Qed.

(** C10: [debinarize] returns a list as long as its input in which each
    position holds the debinarized form of the fragment at that position of
    the input or, when debinarizing it raises, that fragment unchanged. *)
Theorem debinarize_positions (fragments : list fragment) :
  length (debinarize fragments) = length fragments
  ∧ ∀ i origfrag, fragments !! i = Some origfrag →
      debinarize fragments !! i
      = Some match unbinarize origfrag.1 with
             | Some frag => (frag, origfrag.2)
             | None => origfrag
             end.
Proof.
  unfold debinarize. rewrite debinarize_loop. simpl. split.
  - by rewrite length_fmap.
  - intros i origfrag Hi. rewrite list_lookup_fmap, Hi. simpl.
    by destruct (unbinarize origfrag.1).
Qed.

(** ** Fragments of fragments *)

Lemma dict_update_notin `{Countable K} {V} (d : gmap K V)
    (l : list (K * V)) k :
  k ∉ l.*1 → dict_update d l !! k = d !! k.
Proof.
  unfold dict_update. revert d.
  induction l as [|[k' v] l IH]; intros d Hk; csimpl in *; [done|].
  apply not_elem_of_cons in Hk as [Hne Hk].
  rewrite IH by done. by rewrite lookup_insert_ne.
Qed.

Lemma dict_update_dom `{Countable K} {V} (d : gmap K V) (l : list (K * V)) :
  dom (dict_update d l) = dom d ∪ list_to_set l.*1.
Proof.
  unfold dict_update. revert d.
  induction l as [|[k' v] l IH]; intros d; csimpl.
  - set_solver.
  - rewrite IH, dom_insert_L. set_solver.
Qed.

(** The keys that [iteratefragments] returns are the keys found in the new
    trees that [fragments] does not have. *)
Lemma iteratefragments_keys (P : PARAMS) fragments newtrees newsents trees
    sents numproc P' newkeys counts :
  iteratefragments P fragments newtrees newsents trees sents numproc
  = Ok (P', (newkeys, counts)) →
  ∃ Pw newfragments,
    discover P newtrees newsents trees sents numproc = Ok (Pw, newfragments)
    ∧ newkeys = elements (dom newfragments ∖ dom fragments).
Proof.
  unfold iteratefragments.
  destruct (discover _ _ _ _ _ _) as [[Pw newfragments]|]; simpl; [|done].
  intros Hit. exists Pw, newfragments. split; [done|].
  destruct (traverse _ _) as [bitsets|]; simpl in Hit; [|done].
  destruct (countchunk_of _ _) as [countchunk|]; simpl in Hit; [|done].
  case_decide; [by simplify_eq|].
  destruct (countwork _ _) as [work|]; simpl in Hit; [|done].
  destruct (collectcounts _ _) as [cs|]; simpl in Hit; [|done].
  by simplify_eq.
Qed.

(** What a turn of the loop does when it does not raise. *)
Lemma closure_round_ok numproc cl o :
  closure_round numproc cl = Ok o →
  ∃ discovered,
    round_discovered numproc cl = Ok discovered
    ∧ let newkeys := elements (dom discovered ∖ dom (cl_fragments cl)) in
      match o with
      | Break cl' =>
          newkeys = []
          ∧ cl_fragments cl' = cl_fragments cl
          ∧ cl_fragmentkeys cl' = cl_fragmentkeys cl
          ∧ cl_counts cl' = cl_counts cl
      | Continue cl' =>
          newkeys ≠ []
          ∧ cl_newfrags cl' = newkeys
          ∧ ∃ newcounts,
              cl_fragmentkeys cl' = cl_fragmentkeys cl ++ newkeys
              ∧ cl_counts cl' = cl_counts cl ++ newcounts
              ∧ cl_fragments cl'
                = dict_update (cl_fragments cl) (zip newkeys newcounts)
      end.
Proof.
  unfold closure_round, round_discovered.
  destruct (newtrees_of _ _) as [newtrees ids1].
  destruct (newsents_of _ _) as [newsents ids2].
  destruct (iteratefragments _ _ _ _ _ _ _)
    as [[P' [newkeys newcounts]]|] eqn:Hit; simpl; [|done].
  apply iteratefragments_keys in Hit as (Pw & discovered & Hd & ->).
  rewrite Hd. simpl. intros Ho. exists discovered. split; [done|].
  case_decide as Hlen; simplify_eq; simpl.
  - split_and!; try done. unfold len in Hlen. apply nil_length_inv. lia.
  - split_and!; [|done|by eexists].
    intros Hnil. apply Hlen. unfold len. by rewrite Hnil.
Qed.

(** A turn that does not end the loop only adds keys to [fragments], and
    only adds to the lists of keys and counts. *)
Lemma closure_round_grows numproc cl cl' :
  closure_round numproc cl = Ok (Continue cl') →
  dom (cl_fragments cl) ⊆ dom (cl_fragments cl')
  ∧ (∀ a, a ∈ dom (cl_fragments cl) →
          cl_fragments cl' !! a = cl_fragments cl !! a)
  ∧ cl_fragmentkeys cl `prefix_of` cl_fragmentkeys cl'
  ∧ cl_counts cl `prefix_of` cl_counts cl'.
Proof.
  intros (discovered & _ & Hne & _ & newcounts & Hk & Hc & Hf)%closure_round_ok.
  rewrite Hf, Hk, Hc. split_and!.
  - rewrite dict_update_dom. set_solver.
  - intros a Ha. apply dict_update_notin.
    intros Hin. apply list_elem_of_fmap in Hin as [[a' v] [Heq Hin]].
    simpl in Heq. subst a'. apply elem_of_zip_l in Hin.
    apply elem_of_elements in Hin. set_solver.
  - by apply prefix_app_r.
  - by apply prefix_app_r.
Qed.

Lemma rounds_grow numproc k cl cl' :
  rounds numproc k cl cl' →
  dom (cl_fragments cl) ⊆ dom (cl_fragments cl')
  ∧ (∀ a, a ∈ dom (cl_fragments cl) →
          cl_fragments cl' !! a = cl_fragments cl !! a)
  ∧ cl_fragmentkeys cl `prefix_of` cl_fragmentkeys cl'
  ∧ cl_counts cl `prefix_of` cl_counts cl'.
Proof.
  induction 1 as [cl|k cl cl' cl'' Hround _ IH]; [done|].
  destruct (closure_round_grows _ _ _ Hround) as (Hd & Hv & Hk & Hc).
  destruct IH as (Hd' & Hv' & Hk' & Hc').
  split_and!.
  - set_solver.
  - intros a Ha. rewrite Hv' by set_solver. by apply Hv.
  - by etrans.
  - by etrans.
Qed.

Lemma rounds_snoc numproc k cl cl' cl'' :
  rounds numproc k cl cl' →
  closure_round numproc cl' = Ok (Continue cl'') →
  rounds numproc (S k) cl cl''.
Proof.
  induction 1 as [cl|k cl cl1 cl2 Hround _ IH]; intros Hlast.
  - eapply rounds_S; [done|]. apply rounds_O.
  - eapply rounds_S; [done|]. by apply IH.
Qed.

(** The loop runs the body until a turn ends it, and at most [n] times. *)
Lemma closure_loop_rounds (n : nat) numproc cl :
  ∃ k cl_k,
    (k ≤ n)%nat ∧ rounds numproc k cl cl_k
    ∧ match closure_loop n numproc cl with
      | Ok cl_end =>
          (k = n ∧ cl_end = cl_k)
          ∨ ((k < n)%nat ∧ closure_round numproc cl_k = Ok (Break cl_end))
      | Raise e => (k < n)%nat ∧ closure_round numproc cl_k = Raise e
      end.
Proof.
  revert cl. induction n as [|n IH]; intros cl.
  - exists O, cl. simpl. split_and!; [lia|apply rounds_O|by left].
  - simpl. destruct (closure_round numproc cl) as [[cl'|cl']|e] eqn:Hround;
      simpl.
    + exists O, cl. split_and!; [lia|apply rounds_O|]. right. split; [lia|done].
    + destruct (IH cl') as (k & cl_k & Hk & Hrounds & Hend).
      exists (S k), cl_k. split_and!; [lia|by eapply rounds_S|].
      destruct (closure_loop n numproc cl').
      * destruct Hend as [[-> ->]|[? ?]]; [by left|right; split; [lia|done]].
      * destruct Hend. split; [lia|done].
    + exists O, cl. split_and!; [lia|apply rounds_O|lia|done].
Qed.

(** X22: the loop that collects fragments of fragments runs its body at most
    10 times: it makes some [k <= 10] turns that do not end it and then
    either has made all 10, or its next turn, still among the 10, ends it
    with [break] or raises.  A turn that does not raise ends the loop
    exactly when the keys it discovers, minus the keys accumulated in
    [fragments], are none; otherwise exactly these keys are the new keys,
    appended to the keys of the result and added to [fragments].  Across
    the turns the key set of [fragments] only grows, the values stored with
    its keys do not change, and the lists of keys and counts of the result
    are only extended. *)
Theorem closure_bounded_monotone (numproc : Z) (cl : closure) :
  (∃ k cl_k,
     (k ≤ 10)%nat ∧ rounds numproc k cl cl_k
     ∧ match closure_loop 10 numproc cl with
       | Ok cl_end =>
           (k = 10%nat ∧ cl_end = cl_k)
           ∨ ((k < 10)%nat ∧ closure_round numproc cl_k = Ok (Break cl_end))
       | Raise e => (k < 10)%nat ∧ closure_round numproc cl_k = Raise e
       end
     ∧ dom (cl_fragments cl) ⊆ dom (cl_fragments cl_k)
     ∧ (∀ a, a ∈ dom (cl_fragments cl) →
             cl_fragments cl_k !! a = cl_fragments cl !! a)
     ∧ cl_fragmentkeys cl `prefix_of` cl_fragmentkeys cl_k
     ∧ cl_counts cl `prefix_of` cl_counts cl_k)
  ∧ (∀ cl1 o, closure_round numproc cl1 = Ok o →
     ∃ discovered,
       round_discovered numproc cl1 = Ok discovered
       ∧ match o with
         | Break cl2 =>
             dom discovered ∖ dom (cl_fragments cl1) = ∅
             ∧ cl_fragments cl2 = cl_fragments cl1
             ∧ cl_fragmentkeys cl2 = cl_fragmentkeys cl1
             ∧ cl_counts cl2 = cl_counts cl1
         | Continue cl2 =>
             dom discovered ∖ dom (cl_fragments cl1) ≠ ∅
             ∧ list_to_set (cl_newfrags cl2)
               = dom discovered ∖ dom (cl_fragments cl1)
             ∧ NoDup (cl_newfrags cl2)
             ∧ (∃ newcounts,
                  cl_fragmentkeys cl2
                  = cl_fragmentkeys cl1 ++ cl_newfrags cl2
                  ∧ cl_counts cl2 = cl_counts cl1 ++ newcounts
                  ∧ cl_fragments cl2
                    = dict_update (cl_fragments cl1)
                        (zip (cl_newfrags cl2) newcounts))
             ∧ dom (cl_fragments cl1) ⊆ dom (cl_fragments cl2)
             ∧ (∀ a, a ∈ dom (cl_fragments cl1) →
                     cl_fragments cl2 !! a = cl_fragments cl1 !! a)
         end).
Proof.
  split.
  - destruct (closure_loop_rounds 10 numproc cl)
      as (k & cl_k & Hk & Hrounds & Hend).
    exists k, cl_k. destruct (rounds_grow _ _ _ _ Hrounds) as (? & ? & ? & ?).
    split_and!; done.
  - intros cl1 o Hround.
    destruct (closure_round_ok _ _ _ Hround) as (discovered & Hd & Ho).
    exists discovered. split; [done|]. simpl in Ho.
    destruct o as [cl2|cl2].
    + destruct Ho as (Hnil & ? & ? & ?). split_and!; try done.
      apply elements_empty_inv in Hnil. by apply leibniz_equiv.
    + destruct Ho as (Hne & Hnew & newcounts & ? & ? & ?).
      destruct (closure_round_grows _ _ _ Hround) as (? & ? & _ & _).
      rewrite Hnew.
      refine (conj _ (conj _ (conj _ (conj _ (conj _ _))))); try done.
      * intros Hempty. apply Hne. rewrite Hempty. apply elements_empty.
      * apply list_to_set_elements_L.
      * apply NoDup_elements.
      * by exists newcounts.
Qed.

(** C8, amended: with [iterate=True] and [disc=False],
    [recurringfragments] never returns a result and never enters the
    loop: when the extraction, the counting and the cover merge that come
    first succeed it raises [NotImplementedError], and when one of them
    raises it raises that exception. *)
Theorem iterate_requires_disc (P : PARAMS) (trees : list Tree)
    (sents : list (list string)) (numproc : Z) (complement indices : bool)
    (maxdepth maxfrontier : Z) :
  recurringfragments P trees sents numproc false true complement indices
    maxdepth maxfrontier
  = match recurring_once P trees sents
            (if decide (numproc = 0) then cpu_count else numproc)
            false complement indices maxdepth maxfrontier with
    | Ok _ => Raise NotImplementedError
    | Raise e => Raise e
    end
  ∧ ∀ result, recurringfragments P trees sents numproc false true complement
                indices maxdepth maxfrontier ≠ Ok result.
Proof.
  unfold recurringfragments.
  destruct (recurring_once _ _ _ _ _ _ _ _ _); simpl; done.
Qed.

(** ** The output formatter *)

Lemma zip_VInt (fragments : list fragment) (freqs : list Z) :
  zip fragments (VInt <$> freqs) = prod_map id VInt <$> zip fragments freqs.
Proof.
  revert freqs. induction fragments as [|a fragments IH];
    intros [|freq freqs]; csimpl; [done..|]. by rewrite IH.
Qed.

(** Fragments whose frequency exceeds the threshold are written, one line
    each, and the loop goes on. *)
Lemma write_freqs_valid (P : PARAMS) threshold zeroinvalid
    (pre rest : list (fragment * Z)) out :
  Forall (λ p, threshold < p.2) pre →
  write_freqs P threshold zeroinvalid (prod_map id VInt <$> (pre ++ rest)) out
  = write_freqs P threshold zeroinvalid (prod_map id VInt <$> rest)
      (out ++ ((λ p, freq_line P p.1 p.2) <$> pre)).
Proof.
  revert out. induction pre as [|[a freq] pre IH]; intros out Hpre; csimpl.
  - by rewrite app_nil_r.
  - apply Forall_cons in Hpre as [Hfreq Hpre]. simpl in Hfreq.
    rewrite decide_True by lia. rewrite IH by done.
    by rewrite <-app_assoc.
Qed.


(** The first fragment whose frequency does not exceed the threshold. *)
Lemma first_invalid {A} (freq_of : A → Z) (threshold : Z)
    (pairs : list (fragment * A)) i a x :
  pairs !! i = Some (a, x) → freq_of x ≤ threshold →
  ∃ pre a' x' post,
    pairs = pre ++ (a', x') :: post
    ∧ Forall (λ p, threshold < freq_of p.2) pre
    ∧ freq_of x' ≤ threshold ∧ (length pre ≤ i)%nat.
Proof.
  revert i. induction pairs as [|[a0 x0] pairs IH]; intros i Hi Hfreq;
    [done|].
  destruct (decide (threshold < freq_of x0)) as [Hvalid|Hinvalid].
  - destruct i as [|i]; simpl in Hi; [simplify_eq; lia|].
    destruct (IH i Hi Hfreq) as (pre & a' & x' & post & -> & ? & ? & ?).
    exists ((a0, x0) :: pre), a', x', post.
    split_and!; [done|by constructor|done|simpl; lia].
  - exists [], a0, x0, pairs. split_and!; [done|done|lia|simpl; lia].
Qed.

Lemma zip_VIdx (fragments : list fragment) (ms : list Multiset) :
  zip fragments (VIdx <$> ms) = prod_map id VIdx <$> zip fragments ms.
Proof.
  revert ms. induction fragments as [|a fragments IH];
    intros [|m ms]; csimpl; [done..|]. by rewrite IH.
Qed.

Lemma write_indices_valid (P : PARAMS) threshold zeroinvalid
    (pre rest : list (fragment * Multiset)) out :
  Forall (λ p, threshold < multiset_len p.2) pre →
  write_indices P threshold zeroinvalid
    (prod_map id VIdx <$> (pre ++ rest)) out
  = write_indices P threshold zeroinvalid (prod_map id VIdx <$> rest)
      (out ++ ((λ p, indices_line P p.1 p.2) <$> pre)).
Proof.
  revert out. induction pre as [|[a m] pre IH]; intros out Hpre; csimpl.
  - by rewrite app_nil_r.
  - apply Forall_cons in Hpre as [Hm Hpre]. simpl in Hm.
    rewrite decide_True by lia. rewrite IH by done.
    by rewrite <-app_assoc.
Qed.




Lemma printfragments_counts (P : PARAMS) fragments fragments' counts n :
  alt_fragments P fragments = Ok fragments' →
  (if complete P then total_matches P (Some counts) else Ok (len fragments'))
  = Ok n →
  nofreq P = false →
  printfragments P fragments (Some counts)
  = let '(threshold, zeroinvalid) := threshold_of P in
    let pairs := zip fragments' counts in
    if indices P then write_indices P threshold zeroinvalid pairs []
    else if relfreq P then
      match sum_roots P threshold zeroinvalid pairs ∅ with
      | Raise e => ([], Some e)
      | Ok sums => write_relfreqs P pairs sums []
      end
    else write_freqs P threshold zeroinvalid pairs [].
Proof.
  intros Halt Hlog Hnofreq. unfold printfragments.
  rewrite Halt. unfold mbind, result_bind. rewrite Hlog. by rewrite Hnofreq.
Qed.

Lemma threshold_pure (P : PARAMS) :
  pure_recurring P → threshold_of P = (1, true).
Proof.
  intros (Hc & Ht & Hcov & Hcompl & Ha). unfold threshold_of.
  by rewrite Hc, Ht, Hcov, Hcompl, Ha.
Qed.

(** X23: in the pure single-corpus recurring mode, with frequencies
    reported, the threshold is 1 and a frequency that does not exceed it is
    an error.  In the default output (and likewise in the output of
    indices, where the frequency of a fragment is the size of its index
    set): when all frequencies exceed 1, every fragment is written and
    nothing is raised; the first fragment whose frequency does not exceed 1
    makes [printfragments] raise the error for it right after the lines of
    the fragments before it; so a fragment whose frequency does not exceed
    1 always makes it raise that error for such a fragment, and no line is
    written for it or for a later one.  The error for a fragment is
    [invalid_fragment]: the invalid-fragment [ValueError] for a continuous
    fragment, and for a discontinuous one the [TypeError] that the
    formatting of its message raises. *)
Theorem pure_recurring_threshold (P : PARAMS)
    (fragments fragments' : list fragment) :
  pure_recurring P → nofreq P = false →
  alt_fragments P fragments = Ok fragments' →
  threshold_of P = (1, true)
  ∧ (indices P = false → relfreq P = false → ∀ freqs : list Z,
       let pairs := zip fragments' freqs in
       let run := printfragments P fragments (Some (VInt <$> freqs)) in
       (Forall (λ p, 1 < p.2) pairs →
        run = ((λ p, freq_line P p.1 p.2) <$> pairs, None))
       ∧ (∀ pre a freq post,
            pairs = pre ++ (a, freq) :: post →
            Forall (λ p, 1 < p.2) pre → freq ≤ 1 →
            run = ((λ p, freq_line P p.1 p.2) <$> pre,
                   Some (invalid_fragment P a)))
       ∧ (∀ i a freq, pairs !! i = Some (a, freq) → freq ≤ 1 →
            ∃ out a', run = (out, Some (invalid_fragment P a'))
                      ∧ (length out ≤ i)%nat))
  ∧ (indices P = true → ∀ ms : list Multiset,
       let pairs := zip fragments' ms in
       let run := printfragments P fragments (Some (VIdx <$> ms)) in
       (Forall (λ p, 1 < multiset_len p.2) pairs →
        run = ((λ p, indices_line P p.1 p.2) <$> pairs, None))
       ∧ (∀ pre a m post,
            pairs = pre ++ (a, m) :: post →
            Forall (λ p, 1 < multiset_len p.2) pre → multiset_len m ≤ 1 →
            run = ((λ p, indices_line P p.1 p.2) <$> pre,
                   Some (invalid_fragment P a)))
       ∧ (∀ i a m, pairs !! i = Some (a, m) → multiset_len m ≤ 1 →
            ∃ out a', run = (out, Some (invalid_fragment P a'))
                      ∧ (length out ≤ i)%nat)).
Proof.
  intros Hpure Hnofreq Halt.
  pose proof (threshold_pure P Hpure) as Hthr.
  destruct Hpure as (Hc & _).
  split_and!; [done| |].
  - intros Hi Hr freqs pairs run.
    assert (run = write_freqs P 1 true (prod_map id VInt <$> pairs) [])
      as Hrun.
    { unfold run. erewrite printfragments_counts; [|done| |done].
      - by rewrite Hthr, Hi, Hr, zip_VInt.
      - by rewrite Hc. }
    assert (∀ pre a freq post,
              pairs = pre ++ (a, freq) :: post →
              Forall (λ p, 1 < p.2) pre → freq ≤ 1 →
              run = ((λ p, freq_line P p.1 p.2) <$> pre,
                     Some (invalid_fragment P a))) as Hfirst.
    { intros pre a freq post Hpairs Hpre Hfreq.
      rewrite Hrun, Hpairs, write_freqs_valid by done. csimpl.
      by rewrite decide_False by lia. }
    split_and!; [|done|].
    + intros Hall. rewrite Hrun.
      rewrite <-(app_nil_r pairs) at 1. rewrite write_freqs_valid by done.
      done.
    + intros i a freq Hi' Hfreq.
      destruct (first_invalid id 1 pairs i a freq Hi' Hfreq)
        as (pre & a' & freq' & post & Hpairs & Hpre & Hfreq' & Hlen).
      eexists _, a'. split; [by eapply Hfirst|].
      by rewrite length_fmap.
  - intros Hi ms pairs run.
    assert (run = write_indices P 1 true (prod_map id VIdx <$> pairs) [])
      as Hrun.
    { unfold run. erewrite printfragments_counts; [|done| |done].
      - by rewrite Hthr, Hi, zip_VIdx.
      - by rewrite Hc. }
    assert (∀ pre a m post,
              pairs = pre ++ (a, m) :: post →
              Forall (λ p, 1 < multiset_len p.2) pre → multiset_len m ≤ 1 →
              run = ((λ p, indices_line P p.1 p.2) <$> pre,
                     Some (invalid_fragment P a))) as Hfirst.
    { intros pre a m post Hpairs Hpre Hm.
      rewrite Hrun, Hpairs, write_indices_valid by done. csimpl.
      by rewrite decide_False by lia. }
    split_and!; [|done|].
    + intros Hall. rewrite Hrun.
      rewrite <-(app_nil_r pairs) at 1. rewrite write_indices_valid by done.
      done.
    + intros i a m Hi' Hm.
      destruct (first_invalid multiset_len 1 pairs i a m Hi' Hm)
        as (pre & a' & m' & post & Hpairs & Hpre & Hm' & Hlen).
      eexists _, a'. split; [by eapply Hfirst|].
      by rewrite length_fmap.
Qed.



(** ** The command line *)

(** The flags that [configure] puts into [PARAMS] are the options given. *)
Lemma configure_flags (opts : gmap string string) args cfg :
  configure opts args = Ok cfg →
  complete (cfg_params cfg) = given opts "--complete"
  ∧ twoterms (cfg_params cfg) = given opts "--twoterms"
  ∧ adjacent (cfg_params cfg) = given opts "--adjacent"
  ∧ approx (cfg_params cfg) = given opts "--approx"
  ∧ nofreq (cfg_params cfg) = given opts "--nofreq".
Proof.
  unfold configure.
  destruct (from_option parse_int (Ok 1) _) as [numproc|]; simpl; [|done].
  case_decide; [done|].
  destruct (from_option parse_int (Ok 0) _) as [numtrees|]; simpl; [|done].
  destruct (parse_cover opts) as [cover|]; simpl; [|done].
  destruct (_ && _); [done|]. destruct (_ && _); [done|].
  destruct (match args with [] => _ | _ => _ end) as [args'|]; simpl; [|done].
  destruct (foldlM _ _ _); simpl; [|done].
  by intros [= <-].
Qed.

(** C9, amended: when [--complete] is given together with [--twoterms],
    [--adjacent], [--approx] or [--nofreq], [main] never calls [batch] or
    [regular], so that no treebank is read and no fragment extracted:
    with [--help] or [-h] it prints the usage and returns; otherwise it
    raises, namely the exception of an earlier check of the command line
    when one fails, and else the [ValueError] of the checks of
    [--complete]. *)
Theorem complete_conflicts_rejected (argv : list string)
    (opts : list (string * string)) (args : list string) :
  gnu_getopt (drop 1 argv) = Some (opts, args) →
  given (dict_update ∅ opts) "--complete" = true →
  given (dict_update ∅ opts) "--twoterms"
  || given (dict_update ∅ opts) "--adjacent"
  || given (dict_update ∅ opts) "--approx"
  || given (dict_update ∅ opts) "--nofreq" = true →
  (given (dict_update ∅ opts) "--help" || given (dict_update ∅ opts) "-h"
   = true → main argv = Ok PrintUsage)
  ∧ (given (dict_update ∅ opts) "--help" || given (dict_update ∅ opts) "-h"
     = false →
     match configure (dict_update ∅ opts) args with
     | Raise e => main argv = Raise e
     | Ok cfg =>
         main argv
         = Raise (ValueError
             (if decide (len (cfg_args cfg) < 2)
              then "need at least two treebanks with --complete."
              else if given (dict_update ∅ opts) "--twoterms"
                      || given (dict_update ∅ opts) "--adjacent"
              then "--twoterms and --adjacent are incompatible with --complete."
              else "--complete is incompatible with --nofreq and --approx"))
     end)
  ∧ (∀ a, main argv = Ok a → a = PrintUsage).
Proof.
  intros Hopt Hcomplete Hflag.
  assert (given (dict_update ∅ opts) "--help"
          || given (dict_update ∅ opts) "-h" = false →
          match configure (dict_update ∅ opts) args with
          | Raise e => main argv = Raise e
          | Ok cfg =>
              main argv
              = Raise (ValueError
                  (if decide (len (cfg_args cfg) < 2)
                   then "need at least two treebanks with --complete."
                   else if given (dict_update ∅ opts) "--twoterms"
                           || given (dict_update ∅ opts) "--adjacent"
                   then "--twoterms and --adjacent are incompatible with --complete."
                   else "--complete is incompatible with --nofreq and --approx"))
          end) as Hrun.
  { intros Hhelp. unfold main. rewrite Hopt, Hhelp.
    destruct (configure _ _) as [cfg|e] eqn:Hcfg; simpl; [|done].
    destruct (configure_flags _ _ _ Hcfg) as (Hc & Ht & Had & Hap & Hn).
    unfold dispatch, check_complete.
    rewrite Hc, Ht, Had, Hap, Hn, Hcomplete.
    case_decide; [done|].
    destruct (given _ "--twoterms" || given _ "--adjacent") eqn:Hta;
      simpl; [done|].
    simpl in Hflag. by rewrite Hflag. }
  split_and!; [|done|].
  - intros Hhelp. unfold main. by rewrite Hopt, Hhelp.
  - intros a Ha.
    destruct (given (dict_update ∅ opts) "--help"
              || given (dict_update ∅ opts) "-h") eqn:Hhelp.
    + unfold main in Ha. rewrite Hopt, Hhelp in Ha. by simplify_eq.
    + specialize (Hrun eq_refl).
      destruct (configure _ _); congruence.
Qed.

End Facts.

(** * The floats without rounding keep the laws of the exact range *)

Lemma dy_twice_Some (n : Z) (k : nat) (a : Z) :
  dy_twice (n, k) = Some a ↔ 2 * n = a * 2 ^ Z.of_nat k.
Proof.
  unfold dy_twice. simpl.
  assert (0 < 2 ^ Z.of_nat k) as Hpos by (apply Z.pow_pos_nonneg; lia).
  split.
  - case_decide as Hmod; [|done]. intros [= <-].
    pose proof (Z.div_mod (2 * n) (2 ^ Z.of_nat k) ltac:(lia)). lia.
  - intros Heq. rewrite Heq, Z.mod_mul, Z.div_mul by lia.
    by rewrite decide_True.
Qed.

Lemma dyadic_float_laws : @FloatLaws dyadic_floats.
Proof.
  assert (2 ^ 53 < 2 ^ 1024 - 2 ^ 970) as Hsmall by done.
  assert (2 ^ 1024 - 2 ^ 970 < 2 ^ 1024) as Hlarge by done.
  split; simpl.
  - intros z Hz. unfold dy_of_int. by rewrite decide_True by lia.
  - intros z Hz. unfold dy_of_int. by rewrite decide_False by lia.
  - intros z Hz. exists (z, 0%nat). unfold dy_of_int.
    rewrite decide_True by lia. split; [done|].
    apply dy_twice_Some. simpl. lia.
  - intros z x. unfold dy_of_int. case_decide; [|done].
    intros [= <-] Hz Ht%dy_twice_Some. simpl in Ht. lia.
  - by apply dy_twice_Some.
  - intros [n1 k1] [n2 k2] a b c Hx%dy_twice_Some Hy%dy_twice_Some Hab _.
    apply dy_twice_Some. simpl.
    rewrite Nat2Z.inj_add, Z.pow_add_r by lia.
    set (P1 := 2 ^ Z.of_nat k1) in *. set (P2 := 2 ^ Z.of_nat k2) in *.
    assert (2 * (2 * (n1 * n2)) = 2 * (c * (P1 * P2))) as Heq; [|lia].
    transitivity ((2 * n1) * (2 * n2)); [lia|]. rewrite Hx, Hy.
    transitivity ((a * b) * (P1 * P2)); [lia|]. rewrite Hab. lia.
  - intros [n1 k1] [n2 k2] a b Hx%dy_twice_Some Hy%dy_twice_Some _.
    apply dy_twice_Some. simpl.
    rewrite Nat2Z.inj_add, Z.pow_add_r by lia.
    set (P1 := 2 ^ Z.of_nat k1) in *. set (P2 := 2 ^ Z.of_nat k2) in *.
    transitivity ((2 * n1) * P2 + (2 * n2) * P1); [lia|]. rewrite Hx, Hy. lia.
  - intros [n1 k1] [n2 k2] a b Hx%dy_twice_Some Hy%dy_twice_Some _.
    apply dy_twice_Some. simpl.
    rewrite Nat2Z.inj_add, Z.pow_add_r by lia.
    set (P1 := 2 ^ Z.of_nat k1) in *. set (P2 := 2 ^ Z.of_nat k2) in *.
    transitivity ((2 * n1) * P2 - (2 * n2) * P1); [lia|]. rewrite Hx, Hy. lia.
  - intros [n1 k1] [n2 k2] a b Hx%dy_twice_Some Hy%dy_twice_Some _ _ Hb.
    assert (0 < 2 ^ Z.of_nat k1) as Hp1 by (apply Z.pow_pos_nonneg; lia).
    assert (0 < 2 ^ Z.of_nat k2) as Hp2 by (apply Z.pow_pos_nonneg; lia).
    set (P1 := 2 ^ Z.of_nat k1) in *. set (P2 := 2 ^ Z.of_nat k2) in *.
    assert (n1 = a * P1) as -> by lia. assert (n2 = b * P2) as -> by lia.
    unfold dy_floordiv. simpl. fold P1 P2.
    rewrite decide_False by nia. eexists. split; [done|].
    apply dy_twice_Some. simpl.
    replace (a * P1 * P2) with (a * (P1 * P2)) by lia.
    replace (b * P2 * P1) with (b * (P1 * P2)) by lia.
    rewrite Z.div_mul_cancel_r by lia. lia.
  - intros x [n2 k2] Hy%dy_twice_Some. unfold dy_floordiv. simpl.
    by rewrite decide_True by lia.
  - intros x [n2 k2] Hy. unfold dy_floordiv. simpl.
    rewrite decide_False; [done|]. intros ->. apply Hy.
    apply dy_twice_Some. lia.
  - intros [n1 k1] [n2 k2] a b Hx%dy_twice_Some Hy%dy_twice_Some.
    assert (0 < 2 ^ Z.of_nat k1) as Hp1 by (apply Z.pow_pos_nonneg; lia).
    assert (0 < 2 ^ Z.of_nat k2) as Hp2 by (apply Z.pow_pos_nonneg; lia).
    unfold dy_le. simpl.
    set (P1 := 2 ^ Z.of_nat k1) in *. set (P2 := 2 ^ Z.of_nat k2) in *.
    apply bool_decide_ext.
    assert (2 * (n1 * P2) = a * (P1 * P2)) as H1 by nia.
    assert (2 * (n2 * P1) = b * (P1 * P2)) as H2 by nia.
    assert (0 < P1 * P2) as HQ by lia.
    rewrite (Z.mul_le_mono_pos_r a b (P1 * P2) HQ). lia.
Qed.

(** * The pipeline on concrete inputs *)

Section Runs.
#[local] Existing Instances toy_types toy dyadic_floats.

(** Ten trees for four processes. *)
Lemma workload_partitions_witness :
  1 < 10 ∧ 1 ≤ 1 ∧ 1 ≤ 4
  ∧ (∃ ivs, workload 10 1 4 = Ok ivs)
  ∧ ∀ ivs, workload 10 1 4 = Ok ivs →
      tiles 0 10 ivs
      ∧ (∀ i, covering ivs i = if decide (0 ≤ i < 10) then 1%nat else 0%nat)
      ∧ (4 = 1 → ivs = [(0, 10)])
      ∧ len ivs ≤ 4 * 1 + 1.
Proof.
  split_and!; [lia..| |];
    destruct (workload_partitions dyadic_float_laws 10 1 4)
      as (Hret & _ & Hall); try lia.
  - apply Hret. right. lia.
  - intros ivs Hw. destruct (Hall ivs Hw) as (Ht & Hc & Hone & Hlen).
    split_and!; [done..|]. apply Hlen. right. right. lia.
Defined.

(** A multiplier that is no float: the conversion of the divisor raises. *)
Lemma workload_partitions_counterexample :
  1 < 10 ∧ 1 ≤ 10 ^ 400 ∧ 1 ≤ 2
  ∧ workload 10 (10 ^ 400) 2 = Raise OverflowError.
Proof. split_and!; by vm_compute. Qed.

Example workload_four : workload 10 1 4 = Ok [(0, 2); (2, 3); (3, 6); (6, 10)].
Proof. reflexivity. Qed.

Example workload_one : workload 10 1 1 = Ok [(0, 10)].
Proof. reflexivity. Qed.

(** Approximate merge: [{A:2}] and [{A:3}] give [{A:5}]; exact merge of
    [{A:v}] with itself gives [{A:v}]. *)
Example merge_approx_example :
  merge_approx {[ ("A", []) := VInt 2 ]} {[ ("A", []) := VInt 3 ]}
  = Ok {[ ("A", []) := VInt 5 ]}.
Proof. by vm_compute. Qed.

Example merge_exact_example :
  merge_exact {[ ("A", []) := @VBits toy_types [0; 3] ]}
    {[ ("A", []) := VBits [0; 3] ]}
  = {[ ("A", []) := VBits [0; 3] ]}.
Proof. by vm_compute. Qed.

(** Five values for four processes: three chunks, of 2, 2 and 1 values,
    not four chunks of one size. *)
Lemma exact_counting_chunks_counterexample :
  ∃ work,
    (countchunk ← countchunk_of (VInt <$> [1; 2; 3; 4; 5]) 4;
     countwork (VInt <$> [1; 2; 3; 4; 5]) countchunk) = Ok work
    ∧ work = [(0, 3, [VInt 1; VInt 2]); (1, 3, [VInt 3; VInt 4]);
              (2, 3, [VInt 5])]
    ∧ len work ≠ 4
    ∧ (λ w : Z * Z * list value, length w.2) <$> work = [2; 2; 1]%nat.
Proof.
  eexists. split; [by vm_compute|]. split; [done|]. split; [|done].
  unfold len. simpl. lia.
Qed.

Lemma exact_counting_chunks_witness :
  1 ≤ 4
  ∧ ∃ countchunk work,
      countchunk_of toy_bitsets 4 = Ok countchunk
      ∧ countwork toy_bitsets countchunk = Ok work
      ∧ len work ≤ 4
      ∧ concat (work.*2) = toy_bitsets.
Proof.
  split; [lia|].
  destruct (exact_counting_chunks toy_params toy_bitsets 4)
    as (countchunk & work & H1 & _ & H2 & H3 & H4 & _); [lia|].
  exists countchunk, work. split_and!; assumption.
Defined.

(** Cover merge: the result [{X:5}] and the cover [{X:1, Y:1}] give
    [{X:5, Y:1}], and one fragment is reported as merged. *)
Example cover_merge_example :
  mergecover toy_result [("X", [])] [VInt 5] toy_cover
  = ([("X", []); ("Y", [])], [VInt 5; VInt 1], 1)
  ∧ dict_update (∅ : gmap fragment value)
      (zip [("X", []); ("Y", [])] [VInt 5; VInt 1])
    = {[ ("X", []) := VInt 5; ("Y", []) := VInt 1 ]}.
Proof. by vm_compute. Qed.




(** Pure recurring mode, frequencies 2 and 1: the first fragment is
    written and the second raises. *)
Lemma pure_recurring_threshold_witness :
  pure_recurring toy_params
  ∧ printfragments toy_params toy_fragments (Some (VInt <$> [2; 1]))
    = ([freq_line toy_params ("(S x)", []) 2],
       Some (invalid_fragment toy_params ("(NP y)", []))).
Proof.
  assert (pure_recurring toy_params) as Hpure by (by repeat split).
  split; [exact Hpure|].
  destruct (pure_recurring_threshold toy_params toy_fragments toy_fragments)
    as (_ & H & _); [done..|].
  destruct (H eq_refl eq_refl [2; 1]) as (_ & Hfirst & _).
  apply (Hfirst [(("(S x)", []), 2)] ("(NP y)", []) 1 []);
    [done|by repeat constructor|lia].
Defined.

(** The iteration without discontinuous trees, on an empty treebank: the
    check of the treebank comes first. *)
Lemma iterate_requires_disc_counterexample :
  recurringfragments toy_params [] [] 1 false true false true 1 999
  = Raise (ValueError "no trees.")
  ∧ recurringfragments toy_params [] [] 1 false true false true 1 999
    ≠ Raise NotImplementedError.
Proof. split; [by vm_compute|]. by vm_compute. Qed.

(** Two fragments with the same root: the first round of the iteration
    finds the root as a new fragment, the second finds nothing new. *)
Example closure_example :
  map_to_list <$> recurringfragments toy_params
                    ["(S x)"; "(S x)"; "(S y)"; "(S y)"] [[]; []; []; []]
                    1 true true false false 0 999
  = Ok [(("(S y)", []), VInt 2); (("(S x)", []), VInt 2);
        (("(S", []), VInt 2)].
Proof. by vm_compute. Qed.

(** C3: the cover fragment [(S] stands once in the treebank and is no
    recurring fragment, so it is a key of the result, with the count 1, but
    no key of [fragments].  The first turn of the loop finds it among the
    fragments of fragments and takes it for new: it is appended to the
    keys a second time, with the count 2, which replaces the count 1 in the
    dictionary that is returned.  Without the iteration the count is 1. *)
Lemma closure_recounts_cover_key :
  lookup ("(S", []) <$> recurringfragments toy_params toy_treebank
                          [[]; []; []; []; []] 1 true false false false 1 999
  = Ok (Some (VInt 1))
  ∧ lookup ("(S", []) <$> recurringfragments toy_params toy_treebank
                            [[]; []; []; []; []] 1 true true false false 1 999
    = Ok (Some (VInt 2))
  ∧ (λ cl, (cl_fragments cl !! ("(S", []),
            filter (λ kv, kv.1 = ("(S", []))
              (zip (cl_fragmentkeys cl) (cl_counts cl))))
    <$> recurring_once toy_params toy_treebank [[]; []; []; []; []]
          1 true false false 1 999
    = Ok (None, [(("(S", []), VInt 1)])
  ∧ (λ cl, (cl_fragments cl !! ("(S", []),
            filter (λ kv, kv.1 = ("(S", []))
              (zip (cl_fragmentkeys cl) (cl_counts cl))))
    <$> (cl0 ← recurring_once toy_params toy_treebank [[]; []; []; []; []]
                 1 true false false 1 999;
         closure_loop 10 1 (complement_off cl0))
    = Ok (Some (VInt 2), [(("(S", []), VInt 1); (("(S", []), VInt 2)]).
Proof. split_and!; by vm_compute. Qed.

(** C7: a discontinuous fragment with the frequency 1 in the pure recurring
    mode: the formatting of the message of the invalid-fragment error
    raises [TypeError], and that is what [printfragments] raises; for a
    continuous fragment it raises the [ValueError] with the message. *)
Lemma invalid_fragment_disc_typeerror :
  pure_recurring toy_disc
  ∧ printfragments toy_disc [("(S 0)", [Some "x"])] (Some [VInt 1])
    = ([], Some TypeError)
  ∧ printfragments toy_params [("(S x)", [])] (Some [VInt 1])
    = ([], Some (ValueError "invalid fragment--frequency=1: (S x)")).
Proof. split_and!; by vm_compute. Qed.

Example iterate_requires_disc_example :
  map_to_list <$> recurringfragments toy_params ["(S x)"; "(S x)"; "(NP y)"]
                    [[]; []; []] 1 false false false false 1 999
  = Ok [(("(S x)", []), VInt 2); (("(NP y)", []), VInt 1)]
  ∧ recurringfragments toy_params ["(S x)"; "(S x)"; "(NP y)"]
      [[]; []; []] 1 false true false false 1 999
    = Raise NotImplementedError.
Proof. split; by vm_compute. Qed.

(** [--complete --approx]: with [--help] the usage is printed; without
    it the incompatible flags are refused. *)
Lemma complete_conflicts_counterexample :
  main ["fragments.py"; "--complete"; "--approx"; "--help"; "a"; "b"]
  = Ok PrintUsage.
Proof. by vm_compute. Qed.

Lemma complete_conflicts_rejected_witness :
  gnu_getopt (drop 1 ["fragments.py"; "--complete"; "--approx"; "a"; "b"])
  = Some ([("--complete", ""); ("--approx", "")], ["a"; "b"])
  ∧ main ["fragments.py"; "--complete"; "--approx"; "a"; "b"]
    = Raise (ValueError
               "--complete is incompatible with --nofreq and --approx").
Proof.
  split; [by vm_compute|].
  destruct (complete_conflicts_rejected
              ["fragments.py"; "--complete"; "--approx"; "a"; "b"]
              [("--complete", ""); ("--approx", "")] ["a"; "b"])
    as (_ & H & _); [by vm_compute..|].
  specialize (H ltac:(by vm_compute)). vm_compute in H. exact H.
Defined.

End Runs.

(** * Further properties of the pipeline *)

Section MoreFacts.
Context `{NT : NativeTypes} `{N : !Native} `{FL : Floats}.

(** ** The work-load planner on all its inputs *)

(** X1: for at least one tree, [workload] returns for one process, and
    for any other number of processes exactly when [numtrees] and
    [mult * numproc] are floats (below [2^1024 - 2^970] in magnitude) and
    [mult * numproc] is not zero.  Whenever it returns, whatever its floats
    have been rounded to, it partitions the trees: the intervals are
    non-empty, each starts where the one before ends, they run from 0 to
    [numtrees]; so there is at least one and at most one per tree. *)
Theorem workload_always_partitions (HL : FloatLaws)
    (numtrees mult numproc : Z) :
  1 ≤ numtrees →
  ((∃ ivs, workload numtrees mult numproc = Ok ivs)
   ↔ numproc = 1
     ∨ (numtrees < 2 ^ 1024 - 2 ^ 970
        ∧ Z.abs (mult * numproc) < 2 ^ 1024 - 2 ^ 970
        ∧ mult * numproc ≠ 0))
  ∧ ∀ ivs, workload numtrees mult numproc = Ok ivs →
      tiles 0 numtrees ivs ∧ 1 ≤ len ivs ≤ numtrees.
Proof.
  intros Hn. split.
  - split.
    + intros [ivs Hw]. destruct (decide (numproc = 1)) as [?|Hp]; [by left|].
      right.
      destruct (workload_outcome HL numtrees mult numproc Hp)
        as (Hov & Hzero & _).
      destruct (decide (2 ^ 1024 - 2 ^ 970 ≤ numtrees)) as [Hbig|Hsmall].
      { rewrite Hov in Hw by lia. done. }
      destruct (decide (2 ^ 1024 - 2 ^ 970 ≤ Z.abs (mult * numproc)))
        as [Hbig|Hd].
      { rewrite Hov in Hw by lia. done. }
      destruct (decide (mult * numproc = 0)) as [Hz|Hnz].
      { rewrite Hzero in Hw by lia. done. }
      lia.
    + intros [->|(Hnt & Hd & Hnz)].
      * exists [(0, numtrees)]. by unfold workload.
      * destruct (decide (numproc = 1)) as [->|Hp].
        { exists [(0, numtrees)]. by unfold workload. }
        destruct (workload_outcome HL numtrees mult numproc Hp)
          as (_ & _ & Hret).
        apply Hret; lia.
  - intros ivs Hw.
    pose proof (workload_returns_tiles _ _ _ _ Hw Hn) as Ht.
    split; [done|]. pose proof (tiles_length _ _ _ Ht).
    destruct ivs; [simpl in Ht; lia|]. unfold len in *. simpl in *. lia.
Qed.

(** X2: with at least one tree, at least one process and a multiplier of
    at least one, where the floats of [workload] are exact
    ([numtrees * (numtrees - 1) < 2^54] and [mult * numproc <= 2^53], or one
    process), [workload] returns at most [mult * numproc] intervals. *)
Theorem workload_count_tight (HL : FloatLaws) (numtrees mult numproc : Z) :
  1 ≤ numtrees → 1 ≤ mult → 1 ≤ numproc →
  numproc = 1
  ∨ (numtrees * (numtrees - 1) < 2 ^ 54 ∧ mult * numproc ≤ 2 ^ 53) →
  ∃ ivs,
    workload numtrees mult numproc = Ok ivs ∧ len ivs ≤ mult * numproc.
Proof.
  intros Hn Hm Hp Hrange.
  assert (∃ ivs, workload numtrees mult numproc = Ok ivs) as [ivs Hw].
  { destruct (decide (numproc = 1)) as [->|Hp1].
    - exists [(0, numtrees)]. by unfold workload.
    - destruct Hrange as [?|[Hrange Hd]]; [done|].
      destruct (workload_exact_shape HL numtrees mult numproc)
        as (result & last & togo & Hw & _); [lia|done|nia|done|].
      by eexists. }
  exists ivs. split; [done|].
  by apply (workload_exact_count HL numtrees mult numproc).
Qed.

(** Without trees and with more than one process the loop of [workload]
    makes no turn and nothing is appended after it. *)
Lemma workload_no_trees (HL : FloatLaws) (numtrees mult numproc : Z) :
  numtrees ≤ 0 → numproc ≠ 1 →
  Z.abs (numtrees - 1) < 2 ^ 1024 - 2 ^ 970 →
  Z.abs (mult * numproc) < 2 ^ 1024 - 2 ^ 970 →
  mult * numproc ≠ 0 →
  workload numtrees mult numproc = Ok [].
Proof.
  intros Hn Hp Hn1 Hd Hnz.
  destruct (workload_outcome HL numtrees mult numproc Hp)
    as (_ & _ & Hret).
  destruct Hret as [ivs Hw]; [lia|done..|]. rewrite Hw. f_equal.
  unfold workload in Hw. rewrite decide_False in Hw by done.
  destruct (float_of numtrees) as [n|]; [|done]. cbn in Hw.
  destruct (float_of (numtrees - 1)) as [n1|]; [|done]. cbn in Hw.
  destruct (float_of (mult * numproc)) as [d|]; [|done]. cbn in Hw.
  destruct (ffloordiv _ _) as [q|]; [|done]. cbn in Hw.
  destruct (float_of 1) as [one|]; [|done]. cbn in Hw.
  unfold range in Hw. rewrite seqZ_nil in Hw by lia. cbn in Hw.
  rewrite decide_False in Hw by lia. by injection Hw as <-.
Qed.

(** X3: the edges of [workload].  For one process it gives the one
    interval [(0, numtrees)] whatever the other arguments are, also without
    trees, when that interval holds no tree.  For any other number of
    processes: without trees it gives no interval at all, as long as
    [numtrees - 1] and [mult * numproc] are floats and the latter is not
    zero; a multiplier or a number of processes of zero makes it divide by
    zero, as long as [numtrees] and [numtrees - 1] are floats; and when
    [numtrees], [numtrees - 1] or [mult * numproc] is no float (from
    [2^1024 - 2^970] on in magnitude), it raises [OverflowError]. *)
Theorem workload_degenerate (HL : FloatLaws) (numtrees mult numproc : Z) :
  (numproc = 1 → workload numtrees mult numproc = Ok [(0, numtrees)])
  ∧ (numtrees ≤ 0 → numproc ≠ 1 →
     Z.abs (numtrees - 1) < 2 ^ 1024 - 2 ^ 970 →
     Z.abs (mult * numproc) < 2 ^ 1024 - 2 ^ 970 →
     mult * numproc ≠ 0 →
     workload numtrees mult numproc = Ok [])
  ∧ (numproc ≠ 1 →
     Z.abs numtrees < 2 ^ 1024 - 2 ^ 970 →
     Z.abs (numtrees - 1) < 2 ^ 1024 - 2 ^ 970 →
     mult * numproc = 0 →
     workload numtrees mult numproc = Raise ZeroDivisionError)
  ∧ (numproc ≠ 1 →
     2 ^ 1024 - 2 ^ 970 ≤ Z.abs numtrees
     ∨ 2 ^ 1024 - 2 ^ 970 ≤ Z.abs (numtrees - 1)
     ∨ 2 ^ 1024 - 2 ^ 970 ≤ Z.abs (mult * numproc) →
     workload numtrees mult numproc = Raise OverflowError).
Proof.
  split_and!.
  - intros ->. by unfold workload.
  - intros Hn Hp Hn1 Hd Hnz. by apply workload_no_trees.
  - intros Hp Hn Hn1 Hd.
    destruct (workload_outcome HL numtrees mult numproc Hp)
      as (_ & Hzero & _). by apply Hzero.
  - intros Hp Hbig.
    destruct (workload_outcome HL numtrees mult numproc Hp) as (Hov & _).
    by apply Hov.
Qed.

Lemma foldr_add_acc (l : list Z) (a : Z) :
  foldr Z.add a l = foldr Z.add 0 l + a.
Proof. induction l as [|x l IH]; simpl; lia. Qed.

(** The rows [1, ..., b] take [total] down to what is left after [b]. *)
Lemma cost_closed (numtrees : Z) (b : nat) :
  2 * cost numtrees 0 (Z.of_nat b)
  = numtrees * (numtrees - 1)
    - (numtrees - 1 - Z.of_nat b) * (numtrees - Z.of_nat b).
Proof.
  unfold cost, range. replace (Z.of_nat b + 1 - (0 + 1)) with (Z.of_nat b) by lia.
  induction b as [|b IH].
  - rewrite seqZ_nil by lia. simpl. lia.
  - rewrite seqZ_S, fmap_app, foldr_app. simpl. rewrite foldr_add_acc. nia.
Qed.

(** X4: where the floats of [workload] are exact
    ([numtrees * (numtrees - 1) < 2^54] and [1 <= mult * numproc <= 2^53]),
    its cuts keep up with the goal: the rows before the end of the i-th
    interval, counted from one, that is not the last take at least [i]
    times [chunk] comparisons, where [chunk] is
    [total // (mult * numproc) + 1]. *)
Theorem workload_cuts_cost (HL : FloatLaws) (numtrees mult numproc : Z) :
  1 ≤ numtrees → numproc ≠ 1 → 1 ≤ mult * numproc ≤ 2 ^ 53 →
  numtrees * (numtrees - 1) < 2 ^ 54 →
  ∃ ivs,
    workload numtrees mult numproc = Ok ivs
    ∧ ∀ (i : nat) a b, ivs !! i = Some (a, b) → (S i < length ivs)%nat →
        (Z.of_nat i + 1)
        * (numtrees * (numtrees - 1) / 2 / (mult * numproc) + 1)
        ≤ cost numtrees 0 b.
Proof.
  intros Hn Hp Hd Hrange.
  destruct (workload_exact_shape HL numtrees mult numproc)
    as (result & last & togo & Hw & _ & _ & _ & _ & Hcuts); [done..|].
  eexists. split; [exact Hw|].
  intros i a b Hi Hlast.
  assert (result !! i = Some (a, b)) as Hi'.
  { rewrite length_app in Hlast. simpl in Hlast.
    rewrite lookup_app_l in Hi by lia. done. }
  destruct (Hcuts i a b Hi') as [Hb Hcost].
  pose proof (cost_closed numtrees (Z.to_nat b)) as Hclosed.
  rewrite Z2Nat.id in Hclosed by lia. lia.
Qed.

(** ** The intervals for two treebanks *)

Lemma tiles_steps (c : Z) (q : nat) :
  0 < c →
  tiles 0 (Z.of_nat q * c)
    ((λ a, (a, a + c)) <$> ((λ k, k * c) <$> seqZ 0 (Z.of_nat q))).
Proof.
  intros Hc. induction q as [|q IH].
  - simpl. lia.
  - rewrite seqZ_S, !fmap_app. eapply tiles_app; [exact IH|].
    simpl. lia.
Qed.

(** X5: with two treebanks [regular] cuts the first one into intervals of
    one width, [numtrees // (mult * numproc) + 1]: they follow each other
    from 0, there are at most [mult * numproc] of them, and the last one
    ends at or after [numtrees], less than one width after it. *)
Theorem evenchunks_tiles (numtrees mult numproc : Z) :
  1 ≤ numtrees → 1 ≤ mult * numproc →
  let chunk := numtrees / (mult * numproc) + 1 in
  ∃ ivs hi,
    evenchunks numtrees mult numproc = Ok ivs
    ∧ tiles 0 hi ivs
    ∧ numtrees ≤ hi < numtrees + chunk
    ∧ Forall (λ iv : Z * Z, iv.2 - iv.1 = chunk) ivs
    ∧ 1 ≤ len ivs ≤ mult * numproc.
Proof.
  intros Hn Hd chunk. unfold evenchunks, range_step.
  rewrite decide_False by lia. fold chunk.
  assert (1 ≤ chunk) as Hchunk.
  { unfold chunk. pose proof (Z.div_pos numtrees (mult * numproc)). lia. }
  rewrite decide_False by lia. csimpl.
  pose proof (ceil_div_bounds numtrees chunk ltac:(lia)) as Hq.
  set (q := - (- numtrees / chunk)) in *.
  assert (1 ≤ q) as Hq1 by nia.
  exists ((λ a, (a, a + chunk)) <$> ((λ k, k * chunk) <$> seqZ 0 q)),
         (q * chunk).
  split; [done|]. split_and!.
  - rewrite <- (Z2Nat.id q) by lia. apply tiles_steps. lia.
  - lia.
  - lia.
  - rewrite Forall_fmap, Forall_fmap. apply Forall_forall. intros k _.
    simpl. lia.
  - unfold len. rewrite !length_fmap, length_seqZ. lia.
  - unfold len. rewrite !length_fmap, length_seqZ.
    pose proof (workload_chunk_bound numtrees (mult * numproc) ltac:(lia)).
    fold chunk in H. rewrite Z2Nat.id by lia.
    apply Z.nlt_ge. intros Hgt. nia.
Qed.

(** ** The approximate merge over all workers *)

Lemma merge_approx_parts_dom (parts : list (gmap fragment value))
    (acc : gmap fragment value) :
  ints acc → Forall ints parts →
  ∃ m, foldlM merge_approx acc parts = Ok m
       ∧ ints m
       ∧ (∀ k, k ∈ dom m ↔ k ∈ dom acc ∨ Exists (λ p, k ∈ dom p) parts)
       ∧ ∀ k, freq_of (m !! k) = freq_of (acc !! k) + partial_sum parts k.
Proof.
  revert acc. induction parts as [|p parts IH]; intros acc Hacc Hparts.
  - exists acc. simpl. split_and!; [done|done| |intros; lia].
    intros k. rewrite Exists_nil. tauto.
  - apply Forall_cons in Hparts as [Hp Hparts].
    destruct (merge_approx_sum acc p Hacc Hp) as (m1 & Hm1 & Hi1 & Hd1 & Hf1).
    destruct (IH m1 Hi1 Hparts) as (m & Hm & Hi & Hd & Hf).
    exists m. cbn [foldlM]. rewrite Hm1. csimpl.
    split_and!; [done|done| |].
    + intros k. rewrite Hd, Hd1, Exists_cons. set_solver.
    + intros k. rewrite Hf, Hf1. simpl. lia.
Qed.

Lemma partial_sum_perm (parts parts' : list (gmap fragment value)) k :
  parts ≡ₚ parts' → partial_sum parts k = partial_sum parts' k.
Proof.
  unfold partial_sum. induction 1; simpl; lia.
Qed.

(** X6: in approximate mode the merged frequencies do not depend on the
    order in which the results of the workers arrive: merging the same
    maps of numbers in another order gives the same dictionary. *)
Theorem merge_approx_order_free (parts parts' : list (gmap fragment value)) :
  Forall ints parts → parts ≡ₚ parts' →
  ∃ m, foldlM merge_approx ∅ parts = Ok m
       ∧ foldlM merge_approx ∅ parts' = Ok m
       ∧ ∀ k, m !! k = None ↔ Forall (λ p, p !! k = None) parts.
Proof.
  intros Hparts Hperm.
  assert (Forall ints parts') as Hparts' by (by rewrite <- Hperm).
  assert (ints (∅ : gmap fragment value)) as Hempty.
  { intros k v. by rewrite lookup_empty. }
  destruct (merge_approx_parts_dom parts ∅ Hempty Hparts)
    as (m & Hm & Hi & Hd & Hf).
  destruct (merge_approx_parts_dom parts' ∅ Hempty Hparts')
    as (m' & Hm' & Hi' & Hd' & Hf').
  assert (m' = m) as ->.
  { apply map_eq. intros k.
    specialize (Hd k). specialize (Hd' k). specialize (Hf k).
    specialize (Hf' k). rewrite <- (partial_sum_perm _ _ k Hperm) in Hf'.
    rewrite <- Hperm in Hd'. rewrite !elem_of_dom in Hd, Hd'.
    destruct (m !! k) as [v|] eqn:Hk, (m' !! k) as [v'|] eqn:Hk'.
    - destruct (Hi _ _ Hk) as [n ->], (Hi' _ _ Hk') as [n' ->].
      simpl in *. f_equal. f_equal. lia.
    - exfalso. assert (is_Some (Some v)) as Hs by done.
      apply Hd in Hs. apply Hd' in Hs. by destruct Hs.
    - exfalso. assert (is_Some (Some v')) as Hs by done.
      apply Hd' in Hs. apply Hd in Hs. by destruct Hs.
    - done. }
  exists m. split_and!; [done|done|].
  intros k. rewrite <- not_elem_of_dom, Hd, dom_empty, elem_of_empty.
  split.
  - intros Hno. apply Forall_forall. intros p Hp.
    apply not_elem_of_dom. intros Hin. apply Hno. right.
    apply Exists_exists. eauto.
  - intros Hall [[]|Hex]. apply Exists_exists in Hex as (p & Hp & Hin).
    rewrite Forall_forall in Hall. apply Hall in Hp.
    by apply not_elem_of_dom in Hp.
Qed.

(** ** The planned intervals and the workers *)

Lemma tiles_bounds lo hi ivs :
  tiles lo hi ivs → Forall (λ iv : Z * Z, lo ≤ iv.1 < iv.2 ∧ iv.2 ≤ hi) ivs.
Proof.
  revert lo. induction ivs as [|[a b] ivs IH]; simpl; intros lo; [done|].
  intros (-> & Hab & Hrest). pose proof (tiles_le _ _ _ Hrest).
  constructor; [simpl; lia|].
  eapply Forall_impl; [exact (IH _ Hrest)|]. simpl. intros [a' b']. simpl. lia.
Qed.

Lemma extract_update_accepted (P : PARAMS) (c : corpora)
    (work : list (Z * Z)) (acc : gmap fragment value) :
  Forall (λ iv, worker P iv = Ok (extracted P c iv)) work →
  foldlM (λ fragments interval,
            a ← worker P interval; Ok (merge_exact fragments a)) acc work
  = Ok (foldl (λ fragments iv, merge_exact fragments (extracted P c iv))
          acc work).
Proof.
  revert acc. induction work as [|iv work IH]; intros acc Hall; [done|].
  apply Forall_cons in Hall as [Hiv Hall].
  cbn [foldlM foldl]. rewrite Hiv. csimpl. by apply IH.
Qed.

(** X7: the intervals planned for a treebank never trip the assertion of
    [worker]: when [numtrees] is at least one and at most the number of
    trees loaded, every interval of [workload], and of the even division
    used for two treebanks, starts at a tree of the treebank, so each
    worker returns what the extraction gives, and the exact merge of all
    of them is defined. *)
Theorem planned_work_accepted (P : PARAMS) (c : corpora)
    (numtrees mult numproc : Z) (work : list (Z * Z)) :
  loaded P = Ok c →
  1 ≤ numtrees ≤ ctrees_len (trees1 c) →
  workload numtrees mult numproc = Ok work
  ∨ (1 ≤ mult * numproc ∧ evenchunks numtrees mult numproc = Ok work) →
  Forall (λ iv, 0 ≤ iv.1 < numtrees
                ∧ worker P iv = Ok (extracted P c iv)) work
  ∧ extract_update P work
    = Ok (foldl (λ fragments iv, merge_exact fragments (extracted P c iv))
            ∅ work).
Proof.
  intros Hc Hn Hwork.
  assert (Forall (λ iv : Z * Z, 0 ≤ iv.1 < numtrees) work) as Hstarts.
  { destruct Hwork as [Hwork|[Hd Hwork]].
    - pose proof (workload_returns_tiles _ _ _ _ Hwork ltac:(lia)) as Htiles.
      eapply Forall_impl; [exact (tiles_bounds _ _ _ Htiles)|].
      simpl. intros [a b]. simpl. lia.
    - unfold evenchunks, range_step in Hwork.
      rewrite decide_False in Hwork by lia.
      set (chunk := numtrees / (mult * numproc) + 1) in *.
      assert (1 ≤ chunk) as Hchunk.
      { unfold chunk. pose proof (Z.div_pos numtrees (mult * numproc)). lia. }
      rewrite decide_False in Hwork by lia. csimpl in Hwork.
      injection Hwork as <-.
      pose proof (ceil_div_bounds numtrees chunk ltac:(lia)) as Hq.
      rewrite !Forall_fmap. apply Forall_forall. intros k Hk.
      apply elem_of_seqZ in Hk. simpl. nia. }
  assert (Forall (λ iv, worker P iv = Ok (extracted P c iv)) work) as Hok.
  { eapply Forall_impl; [exact Hstarts|]. intros [a b]. simpl. intros Ha.
    unfold worker, extracted. rewrite Hc. csimpl.
    rewrite bool_decide_eq_true_2 by lia. done. }
  split.
  - apply Forall_forall. intros iv Hiv.
    rewrite Forall_forall in Hstarts, Hok. auto.
  - unfold extract_update. by apply extract_update_accepted.
Qed.

(** ** One count per value *)

Lemma collectcounts_length (P : PARAMS) (c : corpora)
    (work : list (Z * Z * list value)) :
  loaded P = Ok c →
  (∀ t1 t2 bitsets i, length (exactcounts t1 t2 bitsets i) = length bitsets) →
  ∃ counts, collectcounts P work = Ok counts
            ∧ length counts = length (concat work.*2).
Proof.
  intros Hc Hlen. unfold collectcounts.
  assert (∃ chunks, traverse (exactcountworker P) work = Ok chunks
                    ∧ length (concat chunks) = length (concat work.*2))
    as (chunks & -> & Hchunks).
  { induction work as [|[[n m] chunk] work (chunks & IH & Hl)].
    - by exists [].
    - cbn [traverse]. rewrite IH. unfold exactcountworker. rewrite Hc. csimpl.
      destruct (complete P); csimpl; eexists; (split; [done|]);
        simpl; rewrite !length_app, Hlen; lia. }
  by exists (concat chunks).
Qed.

Lemma countwork_covers (bitsets : list value) (numproc : Z) :
  1 ≤ numproc →
  ∃ work, countwork bitsets (len bitsets / numproc + 1) = Ok work
          ∧ concat work.*2 = bitsets
          ∧ (bitsets = [] → work = []).
Proof.
  intros Hp. set (cc := len bitsets / numproc + 1).
  assert (0 ≤ len bitsets) as Hlen0 by (unfold len; lia).
  assert (1 ≤ cc) as Hcc.
  { unfold cc. pose proof (Z.div_pos (len bitsets) numproc). lia. }
  pose proof (ceil_div_bounds (len bitsets) cc ltac:(lia)) as Hq.
  pose proof (countwork_chunks bitsets cc ltac:(lia)) as Hwork.
  simpl in Hwork. set (Q := - (- len bitsets / cc)) in *.
  assert (0 ≤ Q) as HQ0 by nia.
  set (c := Z.to_nat cc) in *. set (q := Z.to_nat Q) in *.
  assert (length bitsets ≤ q * c)%nat as Hcover.
  { unfold len in *. subst q c. nia. }
  eexists. split; [exact Hwork|]. split.
  - rewrite <-list_fmap_compose.
    transitivity (take (q * c) bitsets); [|by apply take_ge].
    by rewrite <-concat_chunks.
  - intros ->. assert (q = 0%nat) as ->; [|done].
    unfold len in *. simpl in *. subst q. nia.
Qed.

Lemma exactcounting_length (P : PARAMS) (c : corpora) (bitsets : list value)
    (numproc : Z) :
  1 ≤ numproc → loaded P = Ok c →
  (∀ t1 t2 bitsets i, length (exactcounts t1 t2 bitsets i) = length bitsets) →
  ∃ counts, exactcounting P bitsets numproc = Ok counts
            ∧ length counts = length bitsets.
Proof.
  intros Hp Hc Hlen. unfold exactcounting, countchunk_of.
  rewrite decide_False by lia. csimpl.
  destruct (countwork_covers bitsets numproc Hp) as (work & -> & Hcat & _).
  csimpl. destruct (collectcounts_length P c work Hc Hlen) as (counts & -> & Hl).
  exists counts. by rewrite Hl, Hcat.
Qed.

(** X8: when the counting routine gives as many counts as it is given
    values, the counting phase with at least one process gives exactly one
    count per value, however the values fall into chunks; with no value to
    count it returns the empty list without calling a worker, so also when
    no treebank is loaded, whereas with values and no treebank the first
    worker fails on the missing [trees1] with a [KeyError], in place of
    which its decorator raises an [Exception] that holds the traceback. *)
Theorem exactcounting_one_per_value (P : PARAMS) (bitsets : list value)
    (numproc : Z) :
  1 ≤ numproc →
  (∀ t1 t2 bitsets i, length (exactcounts t1 t2 bitsets i) = length bitsets) →
  (∀ c, loaded P = Ok c →
     ∃ counts, exactcounting P bitsets numproc = Ok counts
               ∧ length counts = length bitsets)
  ∧ (bitsets = [] → exactcounting P bitsets numproc = Ok [])
  ∧ (bitsets ≠ [] → corp P = None →
     exactcounting P bitsets numproc
     = Raise (Exception ("in worker process" +:+ NL
                         +:+ format_exception KeyError))).
Proof.
  intros Hp Hlen. split_and!.
  - intros c Hc. by eapply exactcounting_length.
  - intros Hnil. unfold exactcounting, countchunk_of.
    rewrite decide_False by lia. csimpl.
    destruct (countwork_covers bitsets numproc Hp) as (work & -> & _ & Hw).
    by rewrite (Hw Hnil).
  - intros Hne Hnone. unfold exactcounting, countchunk_of.
    rewrite decide_False by lia. csimpl.
    destruct (countwork_covers bitsets numproc Hp) as (work & -> & Hcat & _).
    csimpl. destruct work as [|[[n m] chunk] work].
    + simpl in Hcat. congruence.
    + unfold collectcounts. cbn [traverse]. unfold exactcountworker, loaded.
      rewrite Hnone. done.
Qed.

(** ** Keys and counts stay aligned *)

Lemma traverse_length {A B} (f : A → result B) (l : list A) (l' : list B) :
  traverse f l = Ok l' → length l' = length l.
Proof.
  revert l'. induction l as [|x l IH]; intros l'; cbn [traverse].
  - by intros [= <-].
  - destruct (f x) as [y|]; csimpl; [|done].
    destruct (traverse f l) as [ys|]; csimpl; [|done].
    intros [= <-]. simpl. f_equal. by apply IH.
Qed.

Lemma initworkersimple_loaded (P Pw : PARAMS) trees sents disc trees2 sents2 :
  initworkersimple P trees sents disc trees2 sents2 = Ok Pw →
  loaded Pw = Ok (getctrees trees sents disc trees2 sents2)
  ∧ Pw = update_corpora P (getctrees trees sents disc trees2 sents2).
Proof.
  unfold initworkersimple. destruct (assert _); csimpl; [|done].
  by intros [= <-].
Qed.

Lemma pool_started (numproc : Z) :
  (if decide (numproc = 1) then Ok tt else Pool numproc) = Ok tt →
  1 ≤ numproc.
Proof.
  case_decide; [lia|]. unfold Pool. case_decide; [done|lia].
Qed.

Lemma discover_ok (P Pw : PARAMS) newtrees newsents trees sents numproc
    newfragments :
  discover P newtrees newsents trees sents numproc = Ok (Pw, newfragments) →
  1 ≤ numproc ∧ newtrees ≠ [] ∧ ∃ c, loaded Pw = Ok c.
Proof.
  unfold discover. case_decide as Hn; [done|].
  destruct (if decide (numproc = 1) then _ else _) as [[]|] eqn:Hpool;
    csimpl; [|done].
  destruct (initworkersimple _ _ _ _ _ _) as [Pw'|] eqn:Hinit; csimpl; [|done].
  destruct (workload _ _ _) as [work|]; csimpl; [|done].
  destruct (extract_update _ _) as [nf|]; csimpl; [|done].
  intros [= <- <-]. split_and!.
  - by apply pool_started.
  - by intros ->.
  - apply initworkersimple_loaded in Hinit as [? _]. eauto.
Qed.

Lemma iteratefragments_counts (P P' : PARAMS) fragments newtrees newsents
    trees sents numproc newkeys counts :
  (∀ t1 t2 bitsets i, length (exactcounts t1 t2 bitsets i) = length bitsets) →
  iteratefragments P fragments newtrees newsents trees sents numproc
  = Ok (P', (newkeys, counts)) →
  length counts = length newkeys.
Proof.
  intros Hlen. unfold iteratefragments.
  destruct (discover _ _ _ _ _ _) as [[Pw newfragments]|] eqn:Hd;
    csimpl; [|done].
  apply discover_ok in Hd as (Hp & _ & c & Hc).
  destruct (traverse _ _) as [bitsets|] eqn:Hb; csimpl; [|done].
  apply traverse_length in Hb.
  unfold countchunk_of. rewrite (decide_False (P:=numproc = 0)) by lia.
  csimpl.
  assert (0 ≤ len bitsets) by (unfold len; lia).
  pose proof (Z.div_pos (len bitsets) numproc).
  rewrite (decide_False (P:=len bitsets / numproc + 1 = 0)) by lia.
  destruct (countwork_covers bitsets numproc Hp) as (work & -> & Hcat & _).
  csimpl.
  destruct (collectcounts_length Pw c work Hc Hlen) as (counts' & -> & Hl).
  csimpl. intros [= _ <- <-]. by rewrite Hl, Hcat.
Qed.

Lemma closure_round_aligned numproc cl o :
  (∀ t1 t2 bitsets i, length (exactcounts t1 t2 bitsets i) = length bitsets) →
  aligned cl → closure_round numproc cl = Ok o →
  aligned match o with Break cl' | Continue cl' => cl' end.
Proof.
  intros Hlen [Hl Hdom]. unfold closure_round.
  destruct (newtrees_of _ _) as [newtrees ids1].
  destruct (newsents_of _ _) as [newsents ids2].
  destruct (iteratefragments _ _ _ _ _ _ _)
    as [[P' [newkeys newcounts]]|] eqn:Hit; csimpl; [|done].
  apply (iteratefragments_counts _ _ _ _ _ _ _ _ _ _ Hlen) in Hit.
  case_decide; intros [= <-]; split; simpl; try done.
  - rewrite !length_app. lia.
  - rewrite dict_update_dom, fst_zip by lia.
    rewrite list_to_set_app_L. set_solver.
Qed.

Lemma closure_loop_aligned (n : nat) numproc cl cl' :
  (∀ t1 t2 bitsets i, length (exactcounts t1 t2 bitsets i) = length bitsets) →
  aligned cl → closure_loop n numproc cl = Ok cl' →
  aligned cl' ∧ dom (cl_fragments cl) ⊆ dom (cl_fragments cl').
Proof.
  intros Hlen. revert cl. induction n as [|n IH]; intros cl Hal; simpl.
  - by intros [= <-].
  - destruct (closure_round numproc cl) as [o|] eqn:Hround; csimpl; [|done].
    pose proof (closure_round_aligned _ _ _ Hlen Hal Hround) as Hal'.
    destruct o as [cl1|cl1].
    + intros [= <-]. split; [done|].
      apply closure_round_ok in Hround as (? & _ & _ & -> & _). done.
    + intros Hloop. destruct (IH _ Hal' Hloop) as [? Hsub]. split; [done|].
      apply closure_round_grows in Hround as [? _]. set_solver.
Qed.

Lemma recurring_once_ok (P : PARAMS) trees sents numproc disc complement
    indices maxdepth maxfrontier cl :
  (∀ t1 t2 bitsets i, length (exactcounts t1 t2 bitsets i) = length bitsets) →
  recurring_once P trees sents numproc disc complement indices maxdepth
    maxfrontier = Ok cl →
  aligned cl
  ∧ cl_newfrags cl = keys (cl_fragments cl)
  ∧ keys (cl_fragments cl) `prefix_of` cl_fragmentkeys cl
  ∧ (maxdepth = 0 → cl_fragmentkeys cl = keys (cl_fragments cl)).
Proof.
  intros Hlen. unfold recurring_once. case_decide as Hn; [done|].
  destruct (workload _ _ _) as [work|]; csimpl; [|done].
  destruct (initworkersimple _ _ _ _ _ _) as [Pw|] eqn:Hinit; csimpl; [|done].
  apply initworkersimple_loaded in Hinit as [Hc _].
  destruct (if decide (numproc = 1) then _ else _) as [[]|] eqn:Hpool;
    csimpl; [|done].
  apply pool_started in Hpool.
  destruct (extract_update _ _) as [fragments|]; csimpl; [|done].
  destruct (traverse _ _) as [bitsets|] eqn:Hb; csimpl; [|done].
  apply traverse_length in Hb.
  destruct (exactcounting_length Pw _ bitsets numproc Hpool Hc Hlen)
    as (counts & -> & Hcounts). csimpl.
  assert (dom fragments ⊆ list_to_set (keys fragments)) as Hkeys.
  { intros a [v Hv]%elem_of_dom. apply elem_of_list_to_set.
    apply list_elem_of_fmap. exists (a, v). split; [done|].
    by apply elem_of_map_to_list. }
  case_decide as Hdepth; csimpl.
  - intros [= <-]. simpl. split_and!; try done.
    split; simpl; [lia|done].
  - rewrite Hc. csimpl. unfold mergecover. rewrite cover_loop. csimpl.
    intros [= <-]. simpl. split_and!; try done.
    + split; simpl.
      * rewrite !length_app, !length_fmap. lia.
      * rewrite list_to_set_app_L. set_solver.
    + by apply prefix_app_r.
Qed.

Lemma closure_round_lengths numproc cl o :
  (∀ t1 t2 bitsets i, length (exactcounts t1 t2 bitsets i) = length bitsets) →
  length (cl_counts cl) = length (cl_fragmentkeys cl) →
  closure_round numproc cl = Ok o →
  length (cl_counts match o with Break cl' | Continue cl' => cl' end)
  = length (cl_fragmentkeys match o with Break cl' | Continue cl' => cl' end).
Proof.
  intros Hlen Hl. unfold closure_round.
  destruct (newtrees_of _ _) as [newtrees ids1].
  destruct (newsents_of _ _) as [newsents ids2].
  destruct (iteratefragments _ _ _ _ _ _ _)
    as [[P' [newkeys newcounts]]|] eqn:Hit; csimpl; [|done].
  apply (iteratefragments_counts _ _ _ _ _ _ _ _ _ _ Hlen) in Hit.
  case_decide; intros [= <-]; simpl; [done|].
  rewrite !length_app. lia.
Qed.

Lemma closure_loop_prefix (n : nat) numproc cl cl' :
  closure_loop n numproc cl = Ok cl' →
  cl_fragmentkeys cl `prefix_of` cl_fragmentkeys cl'.
Proof.
  revert cl. induction n as [|n IH]; intros cl; simpl.
  - by intros [= <-].
  - destruct (closure_round numproc cl) as [[cl1|cl1]|] eqn:Hround;
      csimpl; [| |done].
    + intros [= <-].
      apply closure_round_ok in Hround as (? & _ & _ & _ & -> & _). done.
    + intros Hloop. apply IH in Hloop.
      apply closure_round_grows in Hround as (_ & _ & Hk & _). by etrans.
Qed.

(** X9: when the counting routine gives as many counts as it is given
    values, the dictionary [recurringfragments] returns has every key the
    run has collected.  The run goes from the state [cl0] after the cover
    fragments were merged to the state [cl] that the loop of fragments of
    fragments ends in (with [iterate], which takes discontinuous trees;
    without it [cl] is [cl0]); in both states the keys and the counts are
    equally many, so zipping them into the result cuts off no key; the
    keys of [cl0] are the first keys of [cl]; and each fragment the
    extraction over the treebank found, and each one that a turn of the
    loop added to [fragments], is a key of the result.  Every turn of the
    loop that starts with as many counts as keys ends with as many counts
    as keys. *)
Theorem recurringfragments_loses_no_key (P : PARAMS) (trees : list Tree)
    (sents : list (list string)) (numproc : Z)
    (disc iterate complement indices : bool) (maxdepth maxfrontier : Z)
    (result : gmap fragment value) :
  (∀ t1 t2 bitsets i, length (exactcounts t1 t2 bitsets i) = length bitsets) →
  recurringfragments P trees sents numproc disc iterate complement indices
    maxdepth maxfrontier = Ok result →
  let numproc' := if decide (numproc = 0) then cpu_count else numproc in
  (∃ cl0 cl,
     recurring_once P trees sents numproc' disc complement indices maxdepth
       maxfrontier = Ok cl0
     ∧ (if iterate
        then disc = true
             ∧ closure_loop 10 numproc' (complement_off cl0) = Ok cl
        else cl = cl0)
     ∧ result = dict_update ∅ (zip (cl_fragmentkeys cl) (cl_counts cl))
     ∧ length (cl_counts cl0) = length (cl_fragmentkeys cl0)
     ∧ length (cl_counts cl) = length (cl_fragmentkeys cl)
     ∧ cl_fragmentkeys cl0 `prefix_of` cl_fragmentkeys cl
     ∧ dom result = list_to_set (cl_fragmentkeys cl)
     ∧ dom (cl_fragments cl0) ⊆ dom (cl_fragments cl)
     ∧ dom (cl_fragments cl) ⊆ dom result)
  ∧ (∀ cl1 o,
       length (cl_counts cl1) = length (cl_fragmentkeys cl1) →
       closure_round numproc' cl1 = Ok o →
       length (cl_counts match o with Break cl2 | Continue cl2 => cl2 end)
       = length (cl_fragmentkeys
                   match o with Break cl2 | Continue cl2 => cl2 end)).
Proof.
  intros Hlen Hrun numproc'. split.
  2: { intros cl1 o Hl Hround. by eapply closure_round_lengths. }
  revert Hrun. unfold recurringfragments. fold numproc'.
  destruct (recurring_once _ _ _ _ _ _ _ _ _) as [cl0|] eqn:Honce;
    cbn [mbind result_bind]; [|done].
  destruct (recurring_once_ok _ _ _ _ _ _ _ _ _ _ Hlen Honce)
    as (Hal0 & _).
  assert (∀ cl, aligned cl →
            let result := dict_update ∅ (zip (cl_fragmentkeys cl)
                                           (cl_counts cl)) in
            length (cl_counts cl) = length (cl_fragmentkeys cl)
            ∧ dom result = list_to_set (cl_fragmentkeys cl)
            ∧ dom (cl_fragments cl) ⊆ dom result) as Hfinal.
  { intros cl [Hl Hdom]. simpl.
    rewrite dict_update_dom, fst_zip, dom_empty_L by lia.
    split_and!; [done|set_solver|set_solver]. }
  destruct iterate.
  - destruct disc; cbn [negb]; [|done].
    destruct (closure_loop _ _ _) as [cl|] eqn:Hloop; csimpl; [|done].
    intros [= <-]. exists cl0, cl.
    destruct (closure_loop_aligned _ _ (complement_off cl0) _ Hlen Hal0 Hloop)
      as [Hal Hsub].
    pose proof (closure_loop_prefix _ _ _ _ Hloop) as Hpre.
    destruct (Hfinal cl Hal) as (? & ? & ?). destruct Hal0 as [? _].
    by split_and!.
  - csimpl. intros [= <-]. exists cl0, cl0.
    destruct (Hfinal cl0 Hal0) as (? & ? & ?). destruct Hal0 as [? _].
    by split_and!.
Qed.

(** X10: the iteration cannot start from nothing: when the extraction over
    the treebank finds no fragment, [recurringfragments] with [iterate] on
    (and discontinuous trees) raises [ValueError('no trees.')], also when
    cover fragments were merged in, whereas with [iterate] off it returns
    the dictionary of the keys it has. *)
Theorem iterate_without_fragments (P : PARAMS) (trees : list Tree)
    (sents : list (list string)) (numproc : Z) (complement indices : bool)
    (maxdepth maxfrontier : Z) (cl : closure) :
  recurring_once P trees sents
    (if decide (numproc = 0) then cpu_count else numproc)
    true complement indices maxdepth maxfrontier = Ok cl →
  cl_fragments cl = ∅ →
  recurringfragments P trees sents numproc true true complement indices
    maxdepth maxfrontier = Raise (ValueError "no trees.")
  ∧ recurringfragments P trees sents numproc true false complement indices
      maxdepth maxfrontier
    = Ok (dict_update ∅ (zip (cl_fragmentkeys cl) (cl_counts cl))).
Proof.
  intros Honce Hempty. unfold recurringfragments. rewrite Honce. csimpl.
  split; [|done].
  assert (cl_newfrags cl = []) as Hnew.
  { revert Honce. unfold recurring_once. case_decide; [done|].
    destruct (workload _ _ _); csimpl; [|done].
    destruct (initworkersimple _ _ _ _ _ _); csimpl; [|done].
    destruct (if decide (_ = 1) then _ else _); csimpl; [|done].
    destruct (extract_update _ _) as [fragments|]; csimpl; [|done].
    destruct (traverse _ _); csimpl; [|done].
    destruct (exactcounting _ _ _); csimpl; [|done].
    destruct (if decide (maxdepth = 0) then _ else _) as [[??]|];
      csimpl; [|done].
    intros [= <-]. simpl in *. subst fragments. done. }
  unfold closure_round, complement_off. simpl. rewrite Hnew. simpl.
  unfold iteratefragments, discover. simpl. done.
Qed.

(** ** What [regular] returns *)

Lemma initworker_ok (P P' : PARAMS) treebank1 treebank2 limit encoding :
  initworker P treebank1 treebank2 limit encoding = Ok P' →
  P' = update_corpora P
         (readtreebanks treebank1 treebank2 (fmt P) limit encoding)
  ∧ ctrees_bool (trees1 (readtreebanks treebank1 treebank2 (fmt P) limit
                           encoding)) = true.
Proof.
  unfold initworker.
  destruct (ctrees_bool (trees1 _)) eqn:Hnonempty; simpl; [|done].
  destruct treebank2 as [[|? ?]|]; try by intros [= <-].
  destruct (from_option _ _ _); [|done]. by intros [= <-].
Qed.

Lemma keys_dom `{Countable K} {V} (d : gmap K V) :
  list_to_set (keys d) = dom d.
Proof.
  apply set_eq. intros k. rewrite elem_of_list_to_set, elem_of_dom.
  unfold keys. rewrite list_elem_of_fmap. split.
  - intros [[k' v] [-> Hkv]]. apply elem_of_map_to_list in Hkv. eauto.
  - intros [v Hv]. exists (k, v). split; [done|].
    by apply elem_of_map_to_list.
Qed.

Lemma cover_new_nodup (fragments cover : gmap fragment value) :
  NoDup (keys fragments
         ++ (filter (λ av : fragment * value, av.1 ∉ dom fragments)
               (map_to_list cover)).*1).
Proof.
  apply NoDup_app. split_and!.
  - apply NoDup_fst_map_to_list.
  - intros a Ha Hin.
    apply list_elem_of_fmap in Hin as [[a' v] [Heq Hin]].
    simpl in Heq. subst a'. apply list_elem_of_filter in Hin as [Hout _].
    apply Hout. rewrite <- keys_dom. by apply elem_of_list_to_set.
  - eapply NoDup_fmap_fst; [|apply NoDup_filter, NoDup_map_to_list].
    intros a v1 v2 [_ H1%elem_of_map_to_list]%list_elem_of_filter
      [_ H2%elem_of_map_to_list]%list_elem_of_filter.
    congruence.
Qed.

(** X11: what [regular] returns is well formed.  When the counting routine
    gives as many counts as it is given values, a run that returns has
    started with at least one process, its keys are pairwise different,
    there is a list of counts exactly when frequencies are wanted, and
    then with one count per key; and with [--nofreq] and [--cover] it
    returns only when every cover fragment was among the fragments found,
    so that nothing is merged. *)
Theorem regular_keys_and_counts (P P' : PARAMS) (filenames : list string)
    (numproc : Z) (limit : option Z) (encoding : string)
    (fragmentkeys : list fragment) (counts : option (list value)) :
  (∀ t1 t2 bitsets i, length (exactcounts t1 t2 bitsets i) = length bitsets) →
  regular P filenames numproc limit encoding
  = Ok (P', (fragmentkeys, counts)) →
  1 ≤ numproc
  ∧ NoDup fragmentkeys
  ∧ (counts = None ↔ nofreq P = true)
  ∧ (∀ cs, counts = Some cs → length cs = length fragmentkeys)
  ∧ (nofreq P = true → ∀ c maxdepth maxfrontier,
       loaded P' = Ok c → cover P = Some (maxdepth, maxfrontier) →
       dom (allfragments (trees1 c) (sents1 c) (labels c) maxdepth
              maxfrontier (disc P) (indices P))
       ⊆ list_to_set fragmentkeys).
Proof.
  intros Hlen. unfold regular.
  destruct (filenames !! 0%nat) as [treebank1|]; csimpl; [|done].
  destruct (initworker _ _ _ _ _) as [P1|] eqn:Hinit; csimpl; [|done].
  apply initworker_ok in Hinit as [-> _].
  set (c := readtreebanks _ _ _ _ _).
  destruct (if decide (numproc = 1) then Ok tt else Pool numproc)
    as [[]|] eqn:Hpool; csimpl; [|done].
  apply pool_started in Hpool.
  set (found := if complete P
                then match trees2 _ with Some _ => _ | None => _ end
                else _).
  destruct found as [fragments|]; csimpl; [|done].
  destruct (nofreq P) eqn:Hnofreq; csimpl.
  - destruct (cover P) as [[maxdepth maxfrontier]|] eqn:Hcover; csimpl.
    + destruct (decide (dom _ ⊆ dom _)) as [Hsub|Hsub]; csimpl; [|done].
      destruct (if decide (numproc = 1) then Ok tt
                else if complete P then _ else _) as [[]|];
        csimpl; [|done].
      intros [= <- <- <-]. split_and!; try done.
      * apply NoDup_fst_map_to_list.
      * intros _ c' md mf [= <-] [= <- <-]. by rewrite keys_dom.
    + destruct (if decide (numproc = 1) then Ok tt
                else if complete P then _ else _) as [[]|];
        csimpl; [|done].
      intros [= <- <- <-]. split_and!; try done.
      apply NoDup_fst_map_to_list.
  - set (counted := if approx P then _ else _).
    assert (∀ cs, counted = Ok (Some cs)
                  → length cs = length (keys fragments)) as Hcounted.
    { intros cs. unfold counted. destruct (approx P).
      - destruct (traverse _ _) as [cs'|] eqn:Hcs; csimpl; [|done].
        intros [= <-]. by apply traverse_length in Hcs.
      - destruct (traverse _ _) as [bitsets|] eqn:Hb; csimpl; [|done].
        apply traverse_length in Hb.
        destruct (exactcounting_length
                    (update_corpora P c) c bitsets numproc Hpool
                    eq_refl Hlen) as (cs' & -> & Hcs').
        csimpl. intros [= <-]. lia. }
    assert (∀ o, counted = Ok o → is_Some o) as Hsome.
    { intros o. unfold counted. destruct (approx P).
      - destruct (traverse _ _); csimpl; [|done]. intros [= <-]. eauto.
      - destruct (traverse _ _); csimpl; [|done].
        destruct (exactcounting _ _ _); csimpl; [|done]. intros [= <-]. eauto. }
    destruct counted as [o|] eqn:Hco; csimpl; [|done].
    destruct (Hsome o eq_refl) as [cs ->].
    specialize (Hcounted cs eq_refl).
    destruct (cover P) as [[maxdepth maxfrontier]|] eqn:Hcover; csimpl.
    + unfold mergecover. rewrite cover_loop. csimpl.
      destruct (if decide (numproc = 1) then Ok tt
                else if complete P then _ else _) as [[]|];
        csimpl; [|done].
      intros [= <- <- <-]. split_and!; try done.
      * apply cover_new_nodup.
      * intros cs' [= <-]. rewrite !length_app, !length_fmap. lia.
    + destruct (if decide (numproc = 1) then Ok tt
                else if complete P then _ else _) as [[]|];
        csimpl; [|done].
      intros [= <- <- <-]. split_and!; try done.
      * apply NoDup_fst_map_to_list.
      * by intros cs' [= <-].
Qed.


(** ** What [printfragments] writes *)

Lemma write_freqs_bound (P : PARAMS) threshold zeroinvalid pairs out :
  (length (write_freqs P threshold zeroinvalid pairs out).1
   ≤ length out + length pairs)%nat.
Proof.
  revert out. induction pairs as [|[a v] pairs IH]; intros out; simpl; [lia|].
  destruct v as [freq| |]; simpl; try lia.
  case_decide.
  - etrans; [apply IH|]. rewrite length_app. simpl. lia.
  - destruct zeroinvalid; simpl; [lia|]. etrans; [apply IH|]. lia.
Qed.

Lemma write_indices_bound (P : PARAMS) threshold zeroinvalid pairs out :
  (length (write_indices P threshold zeroinvalid pairs out).1
   ≤ length out + length pairs)%nat.
Proof.
  revert out. induction pairs as [|[a v] pairs IH]; intros out; simpl; [lia|].
  destruct v as [| |m]; simpl; try lia.
  case_decide.
  - etrans; [apply IH|]. rewrite length_app. simpl. lia.
  - destruct zeroinvalid; simpl; [lia|]. etrans; [apply IH|]. lia.
Qed.

Lemma write_relfreqs_bound (P : PARAMS) pairs sums out :
  (length (write_relfreqs P pairs sums out).1
   ≤ length out + length pairs)%nat.
Proof.
  revert out. induction pairs as [|[a v] pairs IH]; intros out; simpl; [lia|].
  destruct (rootlabel P a); simpl; [|lia].
  destruct v; simpl; try lia.
  etrans; [apply IH|]. rewrite length_app. simpl. lia.
Qed.

Lemma alt_fragments_length (P : PARAMS) fragments fragments' :
  alt_fragments P fragments = Ok fragments' →
  length fragments' = length fragments.
Proof.
  unfold alt_fragments. destruct (alt P); [|by intros [= <-]].
  destruct (disc P).
  - destruct fragments; [by intros [= <-]|done].
  - intros [= <-]. by rewrite length_fmap.
Qed.

(** X13: [printfragments] never writes more lines than it is given
    fragments, nor, when frequencies are reported, more than it is given
    counts; without frequencies it writes exactly one line per fragment,
    whatever the counts; and when frequencies are to be reported and there
    are no counts, it fails before it writes anything. *)
Theorem printfragments_line_bound (P : PARAMS) (fragments : list fragment)
    (counts : option (list value)) :
  (length (printfragments P fragments counts).1 ≤ length fragments)%nat
  ∧ (nofreq P = false → ∀ cs, counts = Some cs →
     (length (printfragments P fragments counts).1 ≤ length cs)%nat)
  ∧ (nofreq P = true → (printfragments P fragments counts).2 = None →
     length (printfragments P fragments counts).1 = length fragments)
  ∧ (nofreq P = false → counts = None →
     ∃ e, printfragments P fragments counts = ([], Some e)).
Proof.
  unfold printfragments.
  destruct (alt_fragments P fragments) as [fragments'|] eqn:Halt; csimpl.
  2: { split_and!; intros; simpl; eauto with lia. done. }
  apply alt_fragments_length in Halt.
  destruct (if complete P then _ else _) as [n|]; csimpl.
  2: { split_and!; intros; simpl; eauto with lia. done. }
  destruct (nofreq P); simpl.
  { rewrite length_fmap. split_and!; intros; try done; lia. }
  destruct (threshold_of P) as [threshold zeroinvalid].
  destruct counts as [cs|]; simpl.
  2: { split_and!; intros; try done; eauto with lia. }
  assert (length (zip fragments' cs) ≤ length fragments
          ∧ length (zip fragments' cs) ≤ length cs)%nat as [Hf Hc].
  { rewrite length_zip. lia. }
  set (run := if indices P then _ else _).
  assert (length run.1 ≤ length (zip fragments' cs))%nat as Hrun.
  { unfold run. destruct (indices P).
    - apply (write_indices_bound P threshold zeroinvalid _ []).
    - destruct (relfreq P).
      + destruct (sum_roots _ _ _ _ _); simpl; [|lia].
        apply (write_relfreqs_bound P _ _ []).
      + apply (write_freqs_bound P threshold zeroinvalid _ []). }
  split_and!; try done; [lia|].
  intros _ cs' [= <-]. lia.
Qed.

(** ** Relative frequencies *)

Lemma sum_roots_ok (P : PARAMS) (threshold : Z) (zeroinvalid : bool)
    (pairs : list (fragment * Z)) (sums : gmap (option string) Z) :
  Forall (λ p, threshold < p.2 ∧ ∃ r, rootlabel P p.1 = Ok r) pairs →
  ∃ sums',
    sum_roots P threshold zeroinvalid (prod_map id VInt <$> pairs) sums
    = Ok sums'
    ∧ ∀ r, default 0 (sums' !! r)
           = default 0 (sums !! r) + root_total P pairs r.
Proof.
  revert sums. induction pairs as [|[a freq] pairs IH]; intros sums Hall.
  - exists sums. split; [done|]. intros r. simpl. lia.
  - apply Forall_cons in Hall as [[Hfreq [r0 Hr0]] Hall]. simpl in *.
    rewrite decide_True by lia. rewrite Hr0. csimpl.
    destruct (IH (<[r0 := default 0 (sums !! r0) + freq]> sums) Hall)
      as (sums' & -> & Hsums).
    exists sums'. split; [done|]. intros r. rewrite Hsums.
    assert (root_of P a = r0) as Hroot by (unfold root_of; by rewrite Hr0).
    unfold root_total. simpl. rewrite Hroot.
    destruct (decide (r0 = r)) as [->|Hne].
    + rewrite lookup_insert_eq. simpl. lia.
    + rewrite lookup_insert_ne by done. lia.
Qed.

Lemma sum_roots_raises (P : PARAMS) (threshold : Z)
    (pairs : list (fragment * Z)) (sums : gmap (option string) Z) :
  Exists (λ p, p.2 ≤ threshold ∨ ∃ e, rootlabel P p.1 = Raise e) pairs →
  ∃ e, sum_roots P threshold true (prod_map id VInt <$> pairs) sums = Raise e.
Proof.
  revert sums. induction pairs as [|[a freq] pairs IH]; intros sums Hex.
  - by apply Exists_nil in Hex.
  - simpl. case_decide as Hfreq; [|eauto].
    destruct (rootlabel P a) as [r|e] eqn:Hr; csimpl; [|eauto].
    apply IH. apply Exists_cons in Hex as [[?|[e ?]]|?]; simpl in *;
      [lia|congruence|done].
Qed.

Lemma write_relfreqs_all (P : PARAMS) (pairs : list (fragment * Z))
    (sums : gmap (option string) Z) out :
  Forall (λ p, ∃ r, rootlabel P p.1 = Ok r) pairs →
  write_relfreqs P (prod_map id VInt <$> pairs) sums out
  = (out ++ ((λ p, relfreq_line P p.1 p.2
                     (default 0 (sums !! root_of P p.1))) <$> pairs), None).
Proof.
  revert out. induction pairs as [|[a freq] pairs IH]; intros out Hall.
  - simpl. by rewrite app_nil_r.
  - apply Forall_cons in Hall as [[r Hr] Hall]. simpl in *.
    assert (root_of P a = r) as Hroot by (unfold root_of; by rewrite Hr).
    rewrite Hr. rewrite IH by done. rewrite Hroot.
    by rewrite <- app_assoc.
Qed.

Lemma threshold_zeroinvalid (P : PARAMS) :
  complete P = false → (threshold_of P).2 = true.
Proof.
  intros Hc. unfold threshold_of. rewrite Hc.
  by destruct (_ || _).
Qed.

(** X14: outside complete-match mode the output of relative frequencies is
    all or nothing.  When every frequency exceeds the threshold and every
    root label can be read off, one line is written per fragment, and its
    denominator is the sum of the frequencies of the fragments with the
    same root label; as soon as one frequency does not exceed the threshold
    or one label cannot be read, the run raises and not a single line is
    written. *)
Theorem relfreq_all_or_nothing (P : PARAMS)
    (fragments fragments' : list fragment) (freqs : list Z) :
  nofreq P = false → indices P = false → relfreq P = true →
  complete P = false →
  alt_fragments P fragments = Ok fragments' →
  let pairs := zip fragments' freqs in
  let run := printfragments P fragments (Some (VInt <$> freqs)) in
  (Forall (λ p, (threshold_of P).1 < p.2 ∧ ∃ r, rootlabel P p.1 = Ok r)
     pairs →
   run = ((λ p, relfreq_line P p.1 p.2 (root_total P pairs (root_of P p.1)))
          <$> pairs, None))
  ∧ (Exists (λ p, p.2 ≤ (threshold_of P).1 ∨ ∃ e, rootlabel P p.1 = Raise e)
       pairs →
     ∃ e, run = ([], Some e)).
Proof.
  intros Hnofreq Hindices Hrelfreq Hcomplete Halt pairs run.
  assert (run = match sum_roots P (threshold_of P).1 true
                        (prod_map id VInt <$> pairs) ∅ with
                | Raise e => ([], Some e)
                | Ok sums =>
                    write_relfreqs P (prod_map id VInt <$> pairs) sums []
                end) as ->.
  { unfold run. erewrite printfragments_counts; [|done| |done].
    2: { by rewrite Hcomplete. }
    pose proof (threshold_zeroinvalid P Hcomplete) as Hz.
    destruct (threshold_of P) as [threshold zeroinvalid]. simpl in *.
    subst zeroinvalid. rewrite Hindices, Hrelfreq, zip_VInt. done. }
  split.
  - intros Hgood.
    destruct (sum_roots_ok P (threshold_of P).1 true pairs ∅ Hgood)
      as (sums & -> & Hsums).
    rewrite write_relfreqs_all.
    2: { eapply Forall_impl; [exact Hgood|]. by intros p [_ ?]. }
    simpl. f_equal. apply list_fmap_ext. intros i p _.
    by rewrite Hsums, lookup_empty.
  - intros Hbad.
    destruct (sum_roots_raises P (threshold_of P).1 pairs ∅ Hbad) as [e ->].
    eauto.
Qed.

(** X15: with discontinuous trees neither [--alt] nor [--relfreq] can
    write anything: a fragment is then a tuple, which has no [replace], and
    in which [' '] is not found, so that with at least one fragment (and,
    for the relative frequencies, one count, and a fragment whose tree is
    not a single space) the run ends in an exception and not a single line
    is written. *)
Theorem discontinuous_alt_relfreq_fail (P : PARAMS) (a : fragment)
    (rest : list fragment) (counts : option (list value)) :
  disc P = true →
  (alt P = true →
   printfragments P (a :: rest) counts = ([], Some AttributeError))
  ∧ (alt P = false → relfreq P = true → indices P = false →
     nofreq P = false → a.1 ≠ " " →
     ∀ v vs, counts = Some (v :: vs) →
     ∃ e, printfragments P (a :: rest) counts = ([], Some e)).
Proof.
  intros Hdisc. split.
  - intros Halt. unfold printfragments, alt_fragments.
    by rewrite Halt, Hdisc.
  - intros Halt Hrelfreq Hindices Hnofreq Ha v vs ->.
    assert (∃ e, rootlabel P a = Raise e) as [e0 Hroot].
    { unfold rootlabel. rewrite Hdisc, decide_False by done. eauto. }
    unfold printfragments, alt_fragments. rewrite Halt. csimpl.
    destruct (if complete P then _ else _) as [n|]; csimpl; [|eauto].
    rewrite Hnofreq, Hindices, Hrelfreq.
    destruct (threshold_of P) as [threshold zeroinvalid]. simpl.
    destruct v as [freq| |]; simpl; eauto.
    case_decide.
    + rewrite Hroot. csimpl. eauto.
    + destruct zeroinvalid; [eauto|].
      destruct (sum_roots _ _ _ _ _) as [sums|]; [|eauto].
      rewrite Hroot. eauto.
Qed.

(** ** The threshold when treebanks are compared *)

Lemma threshold_comparison (P : PARAMS) :
  complete P = false →
  from_option (λ c, from_option ctrees_bool false (trees2 c)) false (corp P)
  || bool_decide (is_Some (cover P)) || complement P || approx P = true →
  threshold_of P = (0, true).
Proof.
  intros Hc Hmode. unfold threshold_of. by rewrite Hc, Hmode.
Qed.

(** X16: when two treebanks are compared, or cover fragments are added,
    or the complement or approximate counts are asked for (and not
    complete matches), a frequency of 1 is as good as any higher one and
    only a frequency below 1 is an error: in the default output every
    fragment is written as long as the frequencies are at least 1, and the
    first frequency of 0 or less ends the run after the lines of the
    fragments before it: for a continuous fragment with the
    invalid-fragment [ValueError], whose message says [frequency=1]; for a
    discontinuous fragment, a tuple of two that the one place of the
    message cannot take, with the [TypeError] of the formatting. *)
Theorem comparison_threshold (P : PARAMS)
    (fragments fragments' : list fragment) (freqs : list Z) :
  complete P = false →
  from_option (λ c, from_option ctrees_bool false (trees2 c)) false (corp P)
  || bool_decide (is_Some (cover P)) || complement P || approx P = true →
  nofreq P = false → indices P = false → relfreq P = false →
  alt_fragments P fragments = Ok fragments' →
  let pairs := zip fragments' freqs in
  let run := printfragments P fragments (Some (VInt <$> freqs)) in
  (Forall (λ p, 1 ≤ p.2) pairs →
   run = ((λ p, freq_line P p.1 p.2) <$> pairs, None))
  ∧ (∀ pre a freq post,
       pairs = pre ++ (a, freq) :: post →
       Forall (λ p, 1 ≤ p.2) pre → freq ≤ 0 →
       run = ((λ p, freq_line P p.1 p.2) <$> pre,
              Some (if disc P then TypeError
                    else ValueError ("invalid fragment--frequency=1: "
                                     +:+ repr_fragment (disc P) a)))).
Proof.
  intros Hcomplete Hmode Hnofreq Hindices Hrelfreq Halt pairs run.
  assert (run = write_freqs P 0 true (prod_map id VInt <$> pairs) [])
    as ->.
  { unfold run. erewrite printfragments_counts; [|done| |done].
    2: { by rewrite Hcomplete. }
    rewrite (threshold_comparison P Hcomplete Hmode).
    by rewrite Hindices, Hrelfreq, zip_VInt. }
  split.
  - intros Hall. rewrite <- (app_nil_r pairs) at 1.
    rewrite write_freqs_valid.
    + done.
    + eapply Forall_impl; [exact Hall|]. simpl. intros; lia.
  - intros pre a freq post -> Hpre Hfreq.
    rewrite write_freqs_valid.
    + simpl. rewrite decide_False by lia. done.
    + eapply Forall_impl; [exact Hpre|]. simpl. intros; lia.
Qed.

(** ** More on [debinarize] *)

(** X17: [debinarize] works fragment by fragment: the result for a list
    put together from two lists is the two results put together, the
    sentence of every fragment is left as it is, and a fragment whose
    debinarization fails is in the result unchanged. *)
Theorem debinarize_fragmentwise (fragments more : list fragment) :
  debinarize (fragments ++ more) = debinarize fragments ++ debinarize more
  ∧ (debinarize fragments).*2 = fragments.*2
  ∧ (∀ i a, fragments !! i = Some a → unbinarize a.1 = None →
       debinarize fragments !! i = Some a).
Proof.
  unfold debinarize. rewrite !debinarize_loop. simpl. split_and!.
  - by rewrite fmap_app.
  - rewrite <- list_fmap_compose. apply list_fmap_ext.
    intros i [frag sent] _. simpl. by destruct (unbinarize frag).
  - intros i a Hi Hfail. rewrite list_lookup_fmap, Hi. simpl.
    by rewrite Hfail.
Qed.

(** ** The sentences of the fragments of fragments *)

Lemma newsent_loop (sent : list (option string)) (acc : list string)
    (ids : Z) :
  ∃ new,
    foldl (λ '(acc, ids) word,
             match word with
             | None => (acc ++ ["#" +:+ pretty ids], ids + 1)
             | Some word => (acc ++ [word], ids)
             end) (acc, ids) sent
    = (acc ++ new,
       ids + len (filter (λ w : option string, w = None) sent))
    ∧ length new = length sent
    ∧ ∀ i word, sent !! i = Some word →
        new !! i
        = Some match word with
               | Some w => w
               | None =>
                   "#" +:+ pretty
                     (ids + len (filter (λ w : option string, w = None)
                                   (take i sent)))
               end.
Proof.
  revert acc ids. induction sent as [|w0 sent IH]; intros acc ids.
  - exists []. simpl. rewrite app_nil_r, Z.add_0_r. by split_and!.
  - cbn [foldl]. destruct w0 as [w0|].
    + destruct (IH (acc ++ [w0]) ids) as (new & -> & Hlen & Hnew).
      exists (w0 :: new). rewrite <- app_assoc.
      rewrite filter_cons_False by done. split_and!; [done|simpl; lia|].
      intros [|i] word; simpl.
      * by intros [= <-].
      * intros Hi. rewrite (Hnew i word Hi).
        by rewrite filter_cons_False by done.
    + destruct (IH (acc ++ ["#" +:+ pretty ids]) (ids + 1))
        as (new & -> & Hlen & Hnew).
      exists (("#" +:+ pretty ids) :: new). rewrite <- app_assoc.
      rewrite filter_cons_True by done. split_and!.
      * f_equal. unfold len. cbn [length]. lia.
      * simpl. lia.
      * intros [|i] word; simpl.
        -- intros [= <-]. rewrite filter_nil. unfold len. simpl.
           by rewrite Z.add_0_r.
        -- intros Hi. rewrite (Hnew i word Hi).
           rewrite filter_cons_True by done. destruct word; [done|].
           do 3 f_equal. unfold len. cbn [length]. lia.
Qed.

(** X18: the sentence made for a fragment has a word at every position of
    the sentence of the fragment: the word that stands there or, where
    there is none, [#n] for the next number of the counter, so that the
    numbers are given out in the order of the positions, without gaps, and
    the counter ends up advanced by the number of missing words. *)
Theorem newsent_of_numbers (sent : list (option string)) (ids : Z) :
  length (newsent_of sent ids).1 = length sent
  ∧ (newsent_of sent ids).2
    = ids + len (filter (λ w : option string, w = None) sent)
  ∧ ∀ i word, sent !! i = Some word →
      (newsent_of sent ids).1 !! i
      = Some match word with
             | Some w => w
             | None =>
                 "#" +:+ pretty
                   (ids + len (filter (λ w : option string, w = None)
                                 (take i sent)))
             end.
Proof.
  unfold newsent_of.
  destruct (newsent_loop sent [] ids) as (new & -> & Hlen & Hnew).
  simpl. by split_and!.
Qed.

(** ** What [main] hands on *)

Lemma paths_checked (args : list string) :
  foldlM (λ _ a, if path_exists a then Ok tt
                 else Raise (ValueError ("not found: " +:+ repr_string a)))
         tt args = Ok tt →
  Forall (λ a, path_exists a = true) args.
Proof.
  induction args as [|a args IH]; [by constructor|].
  cbn [foldlM]. destruct (path_exists a) eqn:Ha; csimpl; [|done].
  intros Hrest. constructor; [done|]. by apply IH.
Qed.

Lemma configure_ok (opts : gmap string string) args cfg :
  configure opts args = Ok cfg →
  cfg_numproc cfg ≠ 0
  ∧ cfg_limit cfg ≠ Some 0
  ∧ cfg_args cfg ≠ []
  ∧ Forall (λ a, path_exists a = true) (cfg_args cfg)
  ∧ length (cfg_args cfg) = length args
  ∧ corp (cfg_params cfg) = None
  ∧ cfg_batchdir cfg = opts !! "--batch"
  ∧ (cfg_batchdir cfg = None → len args = 1 ∨ len args = 2)
  ∧ (is_Some (cfg_batchdir cfg) → cfg_batchdir cfg ≠ Some ""
     → cfg_numproc cfg = 1).
Proof.
  unfold configure.
  destruct (from_option parse_int (Ok 1) _) as [numproc|]; simpl; [|done].
  case_decide as Hnumproc; [done|].
  destruct (from_option parse_int (Ok 0) _) as [numtrees|]; simpl; [|done].
  destruct (parse_cover opts) as [cover|]; simpl; [|done].
  destruct (bool_decide (opts !! "--batch" = None) && _) eqn:Hcount; [done|].
  destruct (bool_decide (is_Some _ ∧ _) && _) eqn:Hbatch; [done|].
  destruct (match args with [] => _ | _ => _ end) as [args'|] eqn:Hargs;
    simpl; [|done].
  destruct (foldlM _ _ _) as [[]|] eqn:Hpaths; simpl; [|done].
  intros [= <-]. simpl. apply paths_checked in Hpaths.
  assert (args' ≠ [] ∧ length args' = length args) as [? ?].
  { destruct args as [|a rest]; [done|]. simplify_eq. done. }
  split_and!; try done.
  - destruct (decide (numtrees = 0)); [done|]. by intros [= ?].
  - intros Hnone. apply andb_false_iff in Hcount as [Hc|Hc].
    + apply bool_decide_eq_false in Hc. by destruct Hc.
    + by apply negb_false_iff, bool_decide_eq_true in Hc.
  - intros Hsome Hne. apply andb_false_iff in Hbatch as [Hb|Hb].
    + apply bool_decide_eq_false in Hb. by destruct Hb.
    + by apply negb_false_iff, bool_decide_eq_true in Hb.
Qed.

(** X19: whatever [main] hands on has passed the checks of the command
    line.  It prints the usage only when [--help] or [-h] is given; when
    it calls [batch] or [regular], there is at least one treebank, every
    treebank exists, the limit is not 0, no corpus is loaded yet, and with
    [--complete] there are at least two treebanks and none of
    [--twoterms], [--adjacent], [--approx] and [--nofreq]; [batch] is
    called with a directory that is not the empty string, and [regular]
    with a number of processes that is not 0 and, unless [--batch] is
    given with an empty directory, with one or two treebanks. *)
Theorem main_hands_on_checked (argv : list string) (a : action) :
  main argv = Ok a →
  let checked (P : PARAMS) (args : list string) (limit : option Z) :=
    args ≠ [] ∧ Forall (λ a, path_exists a = true) args
    ∧ limit ≠ Some 0 ∧ corp P = None
    ∧ (complete P = true →
       2 ≤ len args ∧ twoterms P = false ∧ adjacent P = false
       ∧ approx P = false ∧ nofreq P = false) in
  ∃ opts args0,
    gnu_getopt (drop 1 argv) = Some (opts, args0)
    ∧ match a with
      | PrintUsage =>
          given (dict_update ∅ opts) "--help"
          || given (dict_update ∅ opts) "-h" = true
      | RunBatch P batchdir args limit encoding debin =>
          batchdir ≠ "" ∧ checked P args limit
          ∧ length args = length args0
      | RunRegular P args numproc limit encoding out debin =>
          numproc ≠ 0 ∧ checked P args limit
          ∧ length args = length args0
          ∧ (len args = 1 ∨ len args = 2
             ∨ dict_update ∅ opts !! "--batch" = Some "")
      end.
Proof.
  unfold main.
  destruct (gnu_getopt (drop 1 argv)) as [[opts args0]|]; [|done].
  intros Hmain. exists opts, args0. split; [done|].
  set (o := dict_update ∅ opts) in *.
  destruct (given o "--help" || given o "-h") eqn:Hhelp.
  { by injection Hmain as <-. }
  destruct (configure o args0) as [cfg|] eqn:Hcfg; csimpl in Hmain; [|done].
  apply configure_ok in Hcfg
    as (Hnumproc & Hlimit & Hargs & Hpaths & Hlen & Hcorp & Hdir & Hcount
        & Hbatch).
  unfold dispatch in Hmain.
  destruct (check_complete _ _) as [[]|] eqn:Hcheck; csimpl in Hmain; [|done].
  assert (complete (cfg_params cfg) = true →
          2 ≤ len (cfg_args cfg) ∧ twoterms (cfg_params cfg) = false
          ∧ adjacent (cfg_params cfg) = false
          ∧ approx (cfg_params cfg) = false
          ∧ nofreq (cfg_params cfg) = false) as Hchecked.
  { intros Hcomplete. unfold check_complete in Hcheck.
    rewrite Hcomplete in Hcheck. case_decide; [done|].
    destruct (twoterms _); [done|]. destruct (adjacent _); [done|].
    destruct (approx _); [done|]. destruct (nofreq _); [done|].
    split_and!; try done. lia. }
  destruct (_ && _) eqn:Hmode; injection Hmain as <-.
  - apply andb_true_iff in Hmode as [_ [Hsome Hne]%bool_decide_eq_true].
    split_and!; try done.
    destruct (cfg_batchdir cfg) as [dir|]; simpl; [|by destruct Hsome].
    intros ->. done.
  - split_and!; try done.
    destruct (cfg_batchdir cfg) as [dir|] eqn:Hd.
    + destruct (decide (dir = "")) as [->|Hne].
      * right. right. by rewrite <- Hdir.
      * exfalso. apply andb_false_iff in Hmode as [Hm|Hm].
        -- apply bool_decide_eq_false in Hm. apply Hm, Hbatch; [eauto|].
           congruence.
        -- apply bool_decide_eq_false in Hm. apply Hm. split; [eauto|].
           congruence.
    + unfold len in *. rewrite Hlen. destruct (Hcount eq_refl); auto.
Qed.

(** ** The files of batch mode *)

Lemma batch_prepare_name read2nd (trees1 : Ctrees) (sents1 : Sents)
    outputdir first limit encoding st filename st' counts name :
  batch_prepare read2nd trees1 sents1 outputdir first limit encoding st
    filename = Ok (st', counts, name) →
  name = outputdir +:+ "/" +:+ basename first +:+ "_" +:+ basename filename.
Proof.
  unfold batch_prepare.
  destruct (loaded (bs_params st)) as [c|]; csimpl; [|done].
  destruct (loaded _) as [c'|]; csimpl; [|done].
  destruct (if complete _ then _ else _) as [fragments fragmentkeys].
  destruct (if approx _ || _ then _ else _); csimpl; [|done].
  by intros [= _ _ <-].
Qed.

Lemma batch_loop_names read2nd (trees1 : Ctrees) (sents1 : Sents)
    outputdir first limit encoding debin st others files :
  let run := batch_loop read2nd trees1 sents1 outputdir first limit encoding
               debin st others files in
  let names := (λ filename, outputdir +:+ "/" +:+ basename first +:+ "_"
                            +:+ basename filename) <$> others in
  ∃ k, (k ≤ length others)%nat
       ∧ run.1.*1 = files.*1 ++ take k names
       ∧ files `prefix_of` run.1
       ∧ (run.2 = None → k = length others)
       ∧ (run.2 ≠ None → (0 < length others)%nat).
Proof.
  revert st files. induction others as [|filename others IH];
    intros st files; simpl.
  - exists 0%nat. rewrite app_nil_r. by split_and!.
  - destruct (batch_prepare _ _ _ _ _ _ _ _ _) as [[[st' counts] name]|]
      eqn:Hprep.
    2: { exists 0%nat. simpl. rewrite app_nil_r.
         split_and!; try done; lia. }
    apply batch_prepare_name in Hprep as ->.
    destruct (printfragments _ _ _) as [lines raised].
    destruct raised as [e|].
    + exists 1%nat. simpl. rewrite fmap_app. simpl.
      split_and!; try done; try lia. by apply prefix_app_r.
    + match goal with
      | |- context [batch_loop _ _ _ _ _ _ _ _ ?s others ?f] =>
          destruct (IH s f) as (k & Hk & Hnames & Hpre & Hall & _)
      end.
      exists (S k). simpl. rewrite Hnames, fmap_app, <- app_assoc. simpl.
      split_and!; try done; try lia.
      * etrans; [|exact Hpre]. by apply prefix_app_r.
      * intros Hnone. f_equal. by apply Hall.
Qed.

(** X20: batch mode opens its output files in the order of the treebanks
    after the first, each under the name [outputdir/A_B] made of the base
    names of the first treebank and of that one: the files written are the
    first so many of these, all of them when no exception ends the run, and
    none when only one treebank is given. *)
Theorem batch_files_in_order read2nd (P : PARAMS) (outputdir : string)
    (filenames : list string) (limit : option Z) (encoding : string)
    (debin : bool) :
  let run := batch read2nd P outputdir filenames limit encoding debin in
  run.1.*1 `prefix_of` batch_names outputdir filenames
  ∧ (run.2 = None → run.1.*1 = batch_names outputdir filenames)
  ∧ ((length filenames ≤ 1)%nat → run.1 = []).
Proof.
  unfold batch, batch_names.
  destruct (filenames !! 0%nat) as [first|] eqn:Hfirst; csimpl.
  2: { split_and!; try done. apply prefix_nil. }
  destruct (initworker _ _ _ _ _) as [P1|]; csimpl.
  2: { split_and!; try done. apply prefix_nil. }
  destruct (loaded P1) as [c|]; csimpl.
  2: { split_and!; try done. apply prefix_nil. }
  match goal with
  | |- context [batch_loop _ ?t ?s _ _ _ _ _ ?st _ _] =>
      destruct (batch_loop_names read2nd t s outputdir first limit encoding
                  debin st (drop 1 filenames) [])
        as (k & Hk & Hnames & _ & Hall & _)
  end.
  simpl in Hnames. split_and!.
  - rewrite Hnames. apply prefix_take.
  - intros Hnone. rewrite Hnames, (Hall Hnone).
    rewrite take_ge by (by rewrite length_fmap). done.
  - intros Hone. destruct filenames as [|f [|? ?]]; simpl in *; [done|done|lia].
Qed.

Lemma traverse_getitem_missing (d : gmap fragment value)
    (l : list fragment) :
  Exists (λ a, d !! a = None) l → traverse (getitem d) l = Raise KeyError.
Proof.
  induction l as [|a l IH]; intros Hex; [by apply Exists_nil in Hex|].
  cbn [traverse]. destruct (getitem d a) as [v|e] eqn:Hg; csimpl.
  - apply Exists_cons in Hex as [Hhd|Htl].
    + unfold getitem in Hg. by rewrite Hhd in Hg.
    + by rewrite (IH Htl).
  - unfold getitem in Hg. destruct (d !! a); by simplify_eq.
Qed.

Lemma batch_prepare_complete read2nd (trees1 : Ctrees) (sents1 : Sents)
    outputdir first limit encoding st filename st' counts name :
  batch_prepare read2nd trees1 sents1 outputdir first limit encoding st
    filename = Ok (st', counts, name) →
  complete (bs_params st) = true →
  bs_fragments st' = bs_fragments st
  ∧ bs_fragmentkeys st' = bs_fragmentkeys st
  ∧ is_Some (corp (bs_params st'))
  ∧ complete (bs_params st') = true
  ∧ approx (bs_params st') = approx (bs_params st)
  ∧ nofreq (bs_params st') = nofreq (bs_params st)
  ∧ alt (bs_params st') = alt (bs_params st).
Proof.
  unfold batch_prepare. intros Hprep Hcomplete.
  destruct (loaded (bs_params st)) as [c|]; csimpl in Hprep; [|done].
  destruct (read2nd _ _ _ _ _ _) as [[[t2 s2] pr] lb]. simpl in Hprep.
  rewrite Hcomplete in Hprep.
  destruct (if approx _ || _ then _ else _); csimpl in Hprep; [|done].
  injection Hprep as <- _ _. simpl. split_and!; eauto.
Qed.

(** X21: in batch mode with [--complete] the keys are computed once,
    before the loop over the treebanks, and [debinarize] replaces them
    inside the loop.  So with [--debin], once the first comparison is
    written, the second starts from the debinarized keys, and when one of
    them is not a key of the bitsets (debinarization has changed it) the
    run ends there with a [KeyError], after the file of the first
    comparison and before a file for the second is opened. *)
Theorem batch_complete_debin_keys read2nd (trees1 : Ctrees) (sents1 : Sents)
    (outputdir first : string) (limit : option Z) (encoding : string)
    (st st1 : batchstate) (f1 f2 : string) (rest : list string)
    (files : list (string * list string)) (counts1 : option (list value))
    (name1 : string) (lines1 : list string) :
  batch_prepare read2nd trees1 sents1 outputdir first limit encoding st f1
  = Ok (st1, counts1, name1) →
  complete (bs_params st) = true → approx (bs_params st) = false →
  nofreq (bs_params st) = false → alt (bs_params st) = false →
  bs_fragments st ≠ ∅ →
  printfragments (bs_params st1) (debinarize (bs_fragmentkeys st)) counts1
  = (lines1, None) →
  Exists (λ a, bs_fragments st !! a = None)
    (debinarize (bs_fragmentkeys st)) →
  batch_loop read2nd trees1 sents1 outputdir first limit encoding true st
    (f1 :: f2 :: rest) files
  = (files ++ [(name1, lines1)], Some KeyError).
Proof.
  intros Hprep Hcomplete Happrox Hnofreq Halt Hnonempty Hprint Hmissing.
  destruct (batch_prepare_complete _ _ _ _ _ _ _ _ _ _ _ _ Hprep Hcomplete)
    as (Hfrags & Hkeys & [c1 Hc1] & Hcomplete1 & Happrox1 & Hnofreq1 & Halt1).
  cbn [batch_loop]. rewrite Hprep, Hkeys, Hprint.
  unfold alt_fragments. rewrite Halt1, Halt.
  unfold batch_prepare. cbn [bs_params bs_fragments bs_fragmentkeys].
  assert (loaded (bs_params st1) = Ok c1) as ->
    by (unfold loaded; by rewrite Hc1).
  csimpl. destruct (read2nd _ _ _ _ _ _) as [[[t2 s2] pr] lb]. simpl.
  rewrite Hcomplete1, Happrox1, Happrox, Hnofreq1, Hnofreq, Hfrags.
  rewrite bool_decide_eq_false_2 by done.
  simpl. by rewrite (traverse_getitem_missing _ _ Hmissing).
Qed.

End MoreFacts.

(** * Further runs on the small native layer *)

Section MoreRuns.
#[local] Existing Instances toy_types toy dyadic_floats.

(** The counting routine of the small native layer counts value by
    value. *)
Lemma toy_counts_length (t1 : Ctrees) (t2 : option Ctrees)
    (bitsets : list value) (i : bool) :
  length (exactcounts t1 t2 bitsets i) = length bitsets.
Proof. apply length_fmap. Qed.

Lemma workload_always_partitions_witness :
  ((∃ ivs, workload 5 1 2 = Ok ivs)
   ↔ 2 = 1
     ∨ (5 < 2 ^ 1024 - 2 ^ 970
        ∧ Z.abs (1 * 2) < 2 ^ 1024 - 2 ^ 970
        ∧ 1 * 2 ≠ 0))
  ∧ ∀ ivs, workload 5 1 2 = Ok ivs → tiles 0 5 ivs ∧ 1 ≤ len ivs ≤ 5.
Proof.
  apply (workload_always_partitions dyadic_float_laws 5 1 2). lia.
Defined.

Lemma workload_count_tight_witness :
  ∃ ivs, workload 10 1 4 = Ok ivs ∧ len ivs ≤ 1 * 4.
Proof. apply (workload_count_tight dyadic_float_laws 10 1 4); lia. Defined.

(** No tree for two processes; and a number of processes that is no
    float. *)
Lemma workload_degenerate_witness :
  workload 0 1 2 = Ok []
  ∧ workload 3 1 (2 ^ 1024) = Raise OverflowError.
Proof.
  split.
  - destruct (workload_degenerate dyadic_float_laws 0 1 2) as (_ & H & _).
    apply H; lia.
  - destruct (workload_degenerate dyadic_float_laws 3 1 (2 ^ 1024))
      as (_ & _ & _ & H).
    apply H; lia.
Defined.

(** Of 45 comparisons for ten trees and four processes, 12 make a chunk:
    the first cut comes after 17, the second after 24, the third after
    39. *)
Example workload_cost_example :
  workload 10 1 4 = Ok [(0, 2); (2, 3); (3, 6); (6, 10)]
  ∧ cost 10 0 2 = 17 ∧ cost 10 0 3 = 24 ∧ cost 10 0 6 = 39.
Proof. by vm_compute. Qed.

Lemma workload_cuts_cost_witness :
  ∃ ivs,
    workload 10 1 4 = Ok ivs
    ∧ ∀ (i : nat) a b, ivs !! i = Some (a, b) → (S i < length ivs)%nat →
        (Z.of_nat i + 1) * (10 * (10 - 1) / 2 / (1 * 4) + 1) ≤ cost 10 0 b.
Proof. apply (workload_cuts_cost dyadic_float_laws 10 1 4); lia. Defined.

Example evenchunks_example :
  evenchunks 10 1 4 = Ok [(0, 3); (3, 6); (6, 9); (9, 12)].
Proof. by vm_compute. Qed.

Lemma evenchunks_tiles_witness :
  ∃ ivs hi,
    evenchunks 10 1 4 = Ok ivs
    ∧ tiles 0 hi ivs
    ∧ 10 ≤ hi < 10 + (10 / (1 * 4) + 1)
    ∧ Forall (λ iv : Z * Z, iv.2 - iv.1 = 10 / (1 * 4) + 1) ivs
    ∧ 1 ≤ len ivs ≤ 1 * 4.
Proof. apply (evenchunks_tiles 10 1 4); lia. Defined.

Lemma merge_approx_order_free_witness :
  ∃ m : gmap fragment value,
    foldlM merge_approx ∅
      [{[ ("X", []) := VInt 1 ]};
       {[ ("X", []) := VInt 2; ("Y", []) := VInt 3 ]}] = Ok m
    ∧ foldlM merge_approx ∅
        [{[ ("X", []) := VInt 2; ("Y", []) := VInt 3 ]};
         {[ ("X", []) := VInt 1 ]}] = Ok m
    ∧ ∀ k, m !! k = None
           ↔ Forall (λ p : gmap fragment value, p !! k = None)
               [{[ ("X", []) := VInt 1 ]};
                {[ ("X", []) := VInt 2; ("Y", []) := VInt 3 ]}].
Proof.
  apply (merge_approx_order_free
           [{[ ("X", []) := VInt 1 ]};
            {[ ("X", []) := VInt 2; ("Y", []) := VInt 3 ]}]
           [{[ ("X", []) := VInt 2; ("Y", []) := VInt 3 ]};
            {[ ("X", []) := VInt 1 ]}]).
  - repeat constructor.
    + intros k v [_ <-]%lookup_singleton_Some. by eexists.
    + intros k v Hk. apply lookup_insert_Some in Hk as [[_ <-]|[_ Hk]].
      * by eexists.
      * apply lookup_singleton_Some in Hk as [_ <-]. by eexists.
  - apply perm_swap.
Defined.

Lemma planned_work_accepted_witness :
  ∃ work,
    workload 3 1 2 = Ok work
    ∧ extract_update toy_loaded work
      = Ok (foldl (λ fragments iv,
                     merge_exact fragments
                       (extracted toy_loaded
                          (toy_ctrees ["a"; "a"; "b"] [] false None None) iv))
              ∅ work).
Proof.
  exists [(0, 1); (1, 3)]. split; [by vm_compute|].
  apply (planned_work_accepted toy_loaded
           (toy_ctrees ["a"; "a"; "b"] [] false None None) 3 1 2
           [(0, 1); (1, 3)]).
  - reflexivity.
  - by vm_compute.
  - left. by vm_compute.
Defined.

Lemma exactcounting_one_per_value_witness :
  ∃ counts, exactcounting toy_loaded toy_bitsets 4 = Ok counts
            ∧ length counts = length toy_bitsets.
Proof.
  refine (proj1 (exactcounting_one_per_value toy_loaded toy_bitsets 4 _ _)
            (toy_ctrees ["a"; "a"; "b"] [] false None None) _).
  - lia.
  - exact toy_counts_length.
  - reflexivity.
Defined.

Lemma recurringfragments_loses_no_key_witness :
  ∃ cl0 cl,
    recurring_once toy_params ["(S x)"; "(S x)"; "(S y)"; "(S y)"]
      [[]; []; []; []] 1 true false false 0 999 = Ok cl0
    ∧ closure_loop 10 1 (complement_off cl0) = Ok cl
    ∧ length (cl_counts cl) = length (cl_fragmentkeys cl)
    ∧ cl_fragmentkeys cl0 `prefix_of` cl_fragmentkeys cl
    ∧ dom (cl_fragments cl)
      ⊆ dom (dict_update (∅ : gmap fragment value)
               [(("(S y)", []), VInt 2); (("(S x)", []), VInt 2);
                (("(S", []), VInt 2)]).
Proof.
  destruct (recurringfragments_loses_no_key toy_params
              ["(S x)"; "(S x)"; "(S y)"; "(S y)"] [[]; []; []; []]
              1 true true false false 0 999
              (dict_update ∅ [(("(S y)", []), VInt 2); (("(S x)", []), VInt 2);
                              (("(S", []), VInt 2)]))
    as ((cl0 & cl & Honce & [_ Hloop] & _ & _ & Hlen & Hpre & _ & _ & Hsub)
        & _).
  - exact toy_counts_length.
  - vm_cast_no_check
      (eq_refl (@Ok (gmap fragment value)
                  (dict_update ∅ [(("(S y)", []), VInt 2);
                                  (("(S x)", []), VInt 2);
                                  (("(S", []), VInt 2)]))).
  - exists cl0, cl. split; [exact Honce|]. by split_and!.
Defined.

Lemma iterate_without_fragments_witness :
  recurringfragments toy_params ["(S x)"; "(NP y)"] [[]; []] 1 true true
    false false 1 999 = Raise (ValueError "no trees.").
Proof.
  refine (proj1 (iterate_without_fragments toy_params ["(S x)"; "(NP y)"]
                   [[]; []] 1 false false 1 999 _ _ _)).
  - vm_compute. reflexivity.
  - reflexivity.
Defined.

(** Without the iteration the same treebank gives its cover fragments. *)
Example iterate_without_fragments_example :
  map_to_list <$> recurringfragments toy_params ["(S x)"; "(NP y)"]
                    [[]; []] 1 true false false false 1 999
  = Ok [(("(S x)", []), VInt 1); (("(NP y)", []), VInt 1)].
Proof. by vm_compute. Qed.

Lemma regular_keys_and_counts_witness :
  ∃ P' fragmentkeys cs,
    regular toy_params ["(S x)"] 1 None "utf8"
    = Ok (P', (fragmentkeys, Some cs))
    ∧ NoDup fragmentkeys ∧ length cs = length fragmentkeys.
Proof.
  eexists _, _, _. split; [vm_compute; reflexivity|].
  destruct (regular_keys_and_counts toy_params _ ["(S x)"] 1 None "utf8"
              _ _ toy_counts_length ltac:(vm_compute; reflexivity))
    as (_ & Hnodup & _ & Hlen & _).
  split; [exact Hnodup|]. by apply Hlen.
Defined.


Lemma relfreq_all_or_nothing_witness :
  printfragments toy_relfreq [("(S x)", []); ("(NP y)", []); ("(S z)", [])]
    (Some (VInt <$> [2; 3; 4]))
  = (["(S x)" +:+ TAB +:+ "2/6" +:+ NL; "(NP y)" +:+ TAB +:+ "3/3" +:+ NL;
      "(S z)" +:+ TAB +:+ "4/6" +:+ NL], None).
Proof.
  refine (proj1 (relfreq_all_or_nothing toy_relfreq
                   [("(S x)", []); ("(NP y)", []); ("(S z)", [])]
                   [("(S x)", []); ("(NP y)", []); ("(S z)", [])]
                   [2; 3; 4] _ _ _ _ _) _); try reflexivity.
  repeat constructor; by eexists.
Defined.

(** One fragment that occurs once: nothing is written. *)
Example relfreq_nothing_example :
  printfragments toy_relfreq [("(S x)", []); ("(NP y)", []); ("(S z)", [])]
    (Some (VInt <$> [2; 3; 1]))
  = ([], Some (ValueError ("invalid fragment--frequency=1: (S z)"))).
Proof. by vm_compute. Qed.

Lemma discontinuous_alt_relfreq_fail_witness :
  ∃ e, printfragments toy_disc_relfreq [("(S 0)", [Some "x"])]
         (Some [VInt 2]) = ([], Some e).
Proof.
  refine (proj2 (discontinuous_alt_relfreq_fail toy_disc_relfreq
                   ("(S 0)", [Some "x"]) [] (Some [VInt 2]) _)
            _ _ _ _ _ (VInt 2) [] _); try reflexivity.
  simpl. discriminate.
Defined.

Lemma comparison_threshold_witness :
  printfragments toy_approx toy_fragments (Some (VInt <$> [1; 0]))
  = ([freq_line toy_approx ("(S x)", []) 1],
     Some (ValueError ("invalid fragment--frequency=1: "
                       +:+ repr_fragment false ("(NP y)", [])))).
Proof.
  refine (proj2 (comparison_threshold toy_approx toy_fragments toy_fragments
                   [1; 0] _ _ _ _ _ _)
            [(("(S x)", []), 1)] ("(NP y)", []) 0 [] _ _ _);
    try reflexivity.
  repeat constructor. simpl. lia.
Defined.

Lemma main_hands_on_checked_witness :
  main ["fragments.py"; "a"; "b"]
  = Ok (RunRegular toy_params ["a"; "b"] 1 None "utf8" None false)
  ∧ ∃ opts args0,
      gnu_getopt (drop 1 ["fragments.py"; "a"; "b"]) = Some (opts, args0)
      ∧ length ["a"; "b"] = length args0
      ∧ Forall (λ a, path_exists a = true) ["a"; "b"].
Proof.
  assert (main ["fragments.py"; "a"; "b"]
          = Ok (RunRegular toy_params ["a"; "b"] 1 None "utf8" None false))
    as Hmain by (by vm_compute).
  split; [exact Hmain|].
  destruct (main_hands_on_checked _ _ Hmain)
    as (opts & args0 & Hopts & _ & (_ & Hpaths & _) & Hlen & _).
  by exists opts, args0.
Defined.

(** Three treebanks in complete-match mode with [--debin]: the file for
    the second treebank is written, with the debinarized fragment, and the
    third treebank is not reached. *)
Lemma batch_complete_debin_keys_witness :
  @batch_loop toy_types toy_marking toy_read2nd ["|A"; "|A"] [] "out" "|A"
    None "utf8" true toy_batchstate ["B"; "C"] []
  = ([] ++ [("out/|A_B", ["A" +:+ TAB +:+ "2" +:+ NL])], Some KeyError).
Proof.
  pose (st1 := BatchState
                 (update_second (bs_params toy_batchstate)
                    (toy_read "|A" None "bracket" None "utf8")
                    (toy_read2nd "B" tt tt "bracket" None "utf8"))
                 (bs_fragments toy_batchstate)
                 (bs_fragmentkeys toy_batchstate)).
  assert (@batch_prepare toy_types toy_marking toy_read2nd ["|A"; "|A"] []
            "out" "|A" None "utf8" toy_batchstate "B"
          = Ok (st1, Some [VInt 2], "out/|A_B")) as Hprep.
  { vm_cast_no_check
      (eq_refl (@Ok (@batchstate toy_types * option (list value) * string)
                  (st1, Some [VInt 2], "out/|A_B"))). }
  assert (@debinarize toy_types toy_marking (bs_fragmentkeys toy_batchstate)
          = [("A", [])]) as Hkeys.
  { vm_cast_no_check (eq_refl [("A", [] : list (option string))]). }
  assert (@printfragments toy_types toy_marking (bs_params st1)
            (@debinarize toy_types toy_marking
               (bs_fragmentkeys toy_batchstate)) (Some [VInt 2])
          = (["A" +:+ TAB +:+ "2" +:+ NL], None)) as Hprint.
  { vm_cast_no_check (eq_refl (["A" +:+ TAB +:+ "2" +:+ NL], @None exn)). }
  refine (@batch_complete_debin_keys toy_types toy_marking toy_read2nd
            ["|A"; "|A"] [] "out" "|A" None "utf8" toy_batchstate st1
            "B" "C" [] [] (Some [VInt 2]) "out/|A_B"
            ["A" +:+ TAB +:+ "2" +:+ NL] Hprep eq_refl eq_refl eq_refl
            eq_refl _ Hprint _).
  - intros Hempty.
    apply (f_equal (λ m : gmap fragment value, m !! ("|A", []))) in Hempty.
    by vm_compute in Hempty.
  - rewrite Hkeys. apply Exists_cons_hd.
    vm_cast_no_check (eq_refl (@None value)).
Defined.

(** The same through [batch]: the first treebank holds [|A] twice. *)
Example batch_complete_debin_example :
  @batch toy_types toy_marking toy_read2nd toy_complete "out"
    ["|A"; "B"; "C"] None "utf8" true
  = ([("out/|A_B", ["A" +:+ TAB +:+ "2" +:+ NL])], Some KeyError)
  ∧ (@batch toy_types toy_marking toy_read2nd toy_complete "out"
       ["|A"; "B"; "C"] None "utf8" false).2 = None.
Proof. split; by vm_compute. Qed.

End MoreRuns.
